(** * Mahjong solitaire: the board and the backtracking search ([monte_carlo.py])

    A shallow embedding of the board model of [monte_carlo.py] (class [Board]
    with its exposure rule, move enumeration, move application and
    rendering), of the canonical-state fingerprint with the MD5 digest it is
    hashed with, and of the searchers [BacktrackingSearcher] and
    [MonteCarloSearcher], followed by the properties of the specification
    that concern them.

    Conventions of the embedding.
    - A Python [list] is a Rocq [list] in the same order: the last element is
      the one [pop()] removes and [append] adds, so the exposed piece of a
      stack is the last element of its list.
    - A Python [str] (a byte string in Python 2) is a [string].
    - A raised exception ([IndexError], [TypeError]) is [None] in the option
      monad; a normal return is [Some]. The searchers end in an [outcome]:
      they return, raise, or use up the recursion budget of the model.
    - What [print] writes is not kept; the exceptions raised while the
      printed values are computed are.
    - Grid indices are natural numbers: every index the program builds comes
      from [range], so Python's negative indexing is never exercised.
    - The [set] of seen states, which is only tested for membership, is a
      [gset]; the other sets are duplicate-free lists in insertion order (the
      order of a Python set is unspecified: where a later sort leaves two
      elements with equal keys in set order, the model leaves them in
      insertion order); the [dict] of [find_moves] is a [gmap]. *)

From Stdlib Require Import ZArith Ascii String DecimalString DecimalNat Lia.
From stdpp Require Import base tactics option numbers list gmap strings sorting.

(** ** Python primitives *)

(** [l.pop()]: removes and returns the last element; [IndexError] on the
    empty list. *)
Definition pop {A} (l : list A) : option (list A * A) :=
  match reverse l with
  | [] => None
  | x :: r => Some (reverse r, x)
  end.

(** [l[-1]]: the last element; [IndexError] on the empty list. *)
Definition peek {A} (l : list A) : option A := last l.

(** [str(n)] for a non-negative integer: its decimal numeral. *)
Definition str (n : nat) : string := NilEmpty.string_of_uint (Nat.to_uint n).

(** [chr(n)]: the one-character string with code [n]. *)
Definition chr (n : nat) : string := String (ascii_of_nat n) EmptyString.

(** [ord(c)] for the letter 'A'. *)
Definition ord_A : nat := 65.

(** [sep.join(parts)]. *)
Fixpoint join (sep : string) (parts : list string) : string :=
  match parts with
  | [] => ""
  | [p] => p
  | p :: rest => p +:+ sep +:+ join sep rest
  end.

(** ** [hashlib.md5]: the MD5 message digest (RFC 1321)

    Words are integers in [0, 2^32); a message and a digest are byte strings. *)
Module MD5.

Local Open Scope Z_scope.

Definition add32 (x y : Z) : Z := (x + y) mod 2 ^ 32.
Definition not32 (x : Z) : Z := Z.lxor x 0xffffffff.
Definition rotl32 (x : Z) (n : Z) : Z :=
  Z.lor (Z.shiftl x n mod 2 ^ 32) (Z.shiftr x (32 - n)).

(** Per-round left-rotation amounts. *)
Definition S_table : list Z :=
  [ 7; 12; 17; 22; 7; 12; 17; 22; 7; 12; 17; 22; 7; 12; 17; 22;
    5; 9; 14; 20; 5; 9; 14; 20; 5; 9; 14; 20; 5; 9; 14; 20;
    4; 11; 16; 23; 4; 11; 16; 23; 4; 11; 16; 23; 4; 11; 16; 23;
    6; 10; 15; 21; 6; 10; 15; 21; 6; 10; 15; 21; 6; 10; 15; 21 ].

(** [K_table !! i = floor (2^32 * |sin (i + 1)|)]. *)
Definition K_table : list Z :=
  [ 0xd76aa478; 0xe8c7b756; 0x242070db; 0xc1bdceee;
    0xf57c0faf; 0x4787c62a; 0xa8304613; 0xfd469501;
    0x698098d8; 0x8b44f7af; 0xffff5bb1; 0x895cd7be;
    0x6b901122; 0xfd987193; 0xa679438e; 0x49b40821;
    0xf61e2562; 0xc040b340; 0x265e5a51; 0xe9b6c7aa;
    0xd62f105d; 0x02441453; 0xd8a1e681; 0xe7d3fbc8;
    0x21e1cde6; 0xc33707d6; 0xf4d50d87; 0x455a14ed;
    0xa9e3e905; 0xfcefa3f8; 0x676f02d9; 0x8d2a4c8a;
    0xfffa3942; 0x8771f681; 0x6d9d6122; 0xfde5380c;
    0xa4beea44; 0x4bdecfa9; 0xf6bb4b60; 0xbebfbc70;
    0x289b7ec6; 0xeaa127fa; 0xd4ef3085; 0x04881d05;
    0xd9d4d039; 0xe6db99e5; 0x1fa27cf8; 0xc4ac5665;
    0xf4292244; 0x432aff97; 0xab9423a7; 0xfc93a039;
    0x655b59c3; 0x8f0ccc92; 0xffeff47d; 0x85845dd1;
    0x6fa87e4f; 0xfe2ce6e0; 0xa3014314; 0x4e0811a1;
    0xf7537e82; 0xbd3af235; 0x2ad7d2bb; 0xeb86d391 ].

(** The chaining value (A, B, C, D). *)
Record state := State { sA : Z; sB : Z; sC : Z; sD : Z }.

Definition init : state :=
  State 0x67452301 0xefcdab89 0x98badcfe 0x10325476.

(** The non-linear function of round [i] and the index of the message word
    it consumes. *)
Definition mix (i : nat) (b c d : Z) : Z * nat :=
  if (i <? 16)%nat then
    (Z.lor (Z.land b c) (Z.land (not32 b) d), i)
  else if (i <? 32)%nat then
    (Z.lor (Z.land d b) (Z.land (not32 d) c), ((5 * i + 1) mod 16)%nat)
  else if (i <? 48)%nat then
    (Z.lxor (Z.lxor b c) d, ((3 * i + 5) mod 16)%nat)
  else
    (Z.lxor c (Z.lor b (not32 d)), ((7 * i) mod 16)%nat).

Definition step (m : list Z) (st : state) (i : nat) : state :=
  let '(f, g) := mix i (sB st) (sC st) (sD st) in
  let f' := add32 (add32 (add32 f (sA st)) (K_table !!! i)) (m !!! g) in
  State (sD st) (add32 (sB st) (rotl32 f' (S_table !!! i))) (sB st) (sC st).

(** Little-endian decoding of four bytes and encoding of a word. *)
Definition word_of_bytes (bs : list Z) : Z :=
  foldr (λ b acc, b + 256 * acc) 0 bs.

Definition bytes_of_word (n : nat) (w : Z) : list Z :=
  (λ k : nat, (w `div` 256 ^ Z.of_nat k) `mod` 256) <$> seq 0 n.

(** Splits a list into consecutive blocks of [n] elements. *)
Fixpoint blocks {A} (fuel n : nat) (l : list A) : list (list A) :=
  match fuel, l with
  | O, _ | _, [] => []
  | S fuel, _ => take n l :: blocks fuel n (drop n l)
  end.

Definition compress (st : state) (block : list Z) : state :=
  let m := word_of_bytes <$> blocks 16 4 block in
  let st' := foldl (step m) st (seq 0 64) in
  State (add32 (sA st) (sA st')) (add32 (sB st) (sB st'))
        (add32 (sC st) (sC st')) (add32 (sD st) (sD st')).

(** Padding: a one bit, zero bits up to 56 modulo 64 bytes, and the message
    length in bits as a 64-bit little-endian integer. *)
Definition pad (msg : list Z) : list Z :=
  let len := length msg in
  msg ++ [0x80] ++ replicate ((64 + 55 - len mod 64) mod 64)%nat 0
      ++ bytes_of_word 8 ((8 * Z.of_nat len) mod 2 ^ 64).

Definition digest_bytes (msg : list Z) : list Z :=
  let padded := pad msg in
  let st := foldl compress init (blocks (length padded) 64 padded) in
  bytes_of_word 4 (sA st) ++ bytes_of_word 4 (sB st)
    ++ bytes_of_word 4 (sC st) ++ bytes_of_word 4 (sD st).

Definition byte_of_ascii (c : ascii) : Z := Z.of_N (N_of_ascii c).
Definition ascii_of_byte (b : Z) : ascii := ascii_of_N (Z.to_N b).

Definition bytes_of_string (s : string) : list Z :=
  byte_of_ascii <$> String.list_ascii_of_string s.
Definition string_of_bytes (bs : list Z) : string :=
  String.string_of_list_ascii (ascii_of_byte <$> bs).

(** [hashlib.md5(s).digest()]: the 16-byte digest of [s]. *)
Definition md5 (s : string) : string :=
  string_of_bytes (digest_bytes (bytes_of_string s)).

(** [hexdigest()], for comparison with the published test vectors. *)
Definition hex_digit (n : Z) : ascii :=
  ascii_of_N (Z.to_N (if n <? 10 then 48 + n else 87 + n)).
Definition hexdigest (s : string) : string :=
  String.string_of_list_ascii
    (mjoin ((λ b, [hex_digit (b `div` 16); hex_digit (b `mod` 16)])
              <$> digest_bytes (bytes_of_string s))).

End MD5.

(** ** Pieces, movable pieces and the board *)

(** A piece is its symbol: a one-character string. *)
Abbreviation Piece := string (only parsing).

(** [PIECES]: the ten digits followed by the twenty-six capital letters. *)
Definition PIECES : list Piece :=
  (str <$> seq 0 10) ++ ((λ x, chr (x + ord_A)) <$> seq 0 26).

(** The row coordinate of a movable piece: a grid row index, or one of the
    sentinels [MovablePiece.TOP], [MovablePiece.LEFT], [MovablePiece.RIGHT]
    (the strings "T", "L", "R" in the source). *)
Inductive RowIx := Row (r : nat) | TOP | LEFT | RIGHT.

(** The [MovablePiece] named tuple; [col_ix] is [None] for the piles. *)
Record MovablePiece := mkMovablePiece {
  row_ix : RowIx;
  col_ix : option nat;
  piece : Piece;
  depth : nat;
}.

Abbreviation Move := (MovablePiece * MovablePiece)%type (only parsing).

Global Instance RowIx_eq_dec : EqDecision RowIx.
Proof. solve_decision. Defined.
Global Instance MovablePiece_eq_dec : EqDecision MovablePiece.
Proof. solve_decision. Defined.

(** [==] on named tuples is tuple equality: field by field, all four. *)
Definition MovablePiece_eqb (p q : MovablePiece) : bool :=
  bool_decide (row_ix p = row_ix q) && bool_decide (col_ix p = col_ix q)
  && bool_decide (piece p = piece q) && bool_decide (depth p = depth q).

(** The coordinate of a movable piece. *)
Definition coord (p : MovablePiece) : RowIx * option nat := (row_ix p, col_ix p).

(** [Board.DEPTHS]: the capacity of every grid cell. *)
Definition DEPTHS : list (list nat) :=
  [ [1; 1; 1; 1; 1; 1; 1; 1; 1; 1; 1; 1];
    [      1; 2; 2; 2; 2; 2; 2; 1      ];
    [   1; 1; 2; 3; 3; 3; 3; 2; 1; 1   ];
    [1; 1; 1; 2; 3; 4; 4; 3; 2; 1; 1; 1];
    [1; 1; 1; 2; 3; 4; 4; 3; 2; 1; 1; 1];
    [   1; 1; 2; 3; 3; 3; 3; 2; 1; 1   ];
    [      1; 2; 2; 2; 2; 2; 2; 1      ];
    [1; 1; 1; 1; 1; 1; 1; 1; 1; 1; 1; 1] ]%nat.

(** The state of a [Board]: the grid of stacks and the three piles. *)
Record Board := mkBoard {
  rows : list (list (list Piece));
  top : list Piece;
  left_blocks : list Piece;
  right_blocks : list Piece;
}.

(** [Board.__init__]: an empty stack for every cell of [DEPTHS]. *)
Definition new_board : Board :=
  mkBoard ((λ row : list nat, (λ _, []) <$> row) <$> DEPTHS) [] [] [].

(** [Board.get_state]: the three [update] calls hash the concatenation of
    their arguments. *)
Definition state_string (b : Board) : string :=
  join "|" (row ← rows b; stack ← row; [str (length stack)])
  +:+ "|"
  +:+ join "|" [str (length (top b)); str (length (left_blocks b));
                str (length (right_blocks b))].

Definition get_state (b : Board) : string := MD5.md5 (state_string b).

(** The shape [get_state] reads off a board: the depth of every stack, row
    by row, and the lengths of the three piles. *)
Definition depths (b : Board) : list (list nat) :=
  (λ row : list (list Piece), length <$> row) <$> rows b.

Definition shape (b : Board) : list (list nat) * nat * nat * nat :=
  (depths b, length (top b), length (left_blocks b), length (right_blocks b)).

(** The number of cells of every row. *)
Definition layout (b : Board) : list nat := length <$> rows b.

(** The depth of the stack of a cell, when the cell exists. *)
Definition stack_depth (b : Board) (r c : nat) : option nat :=
  row ← rows b !! r; stack ← row !! c; Some (length stack).

(** *** [Board.fill] *)

(** [l[i], l[j] = l[j], l[i]]. *)
Definition swap {A} (i j : nat) (l : list A) : option (list A) :=
  x ← l !! i; y ← l !! j; Some (<[j := x]> (<[i := y]> l)).

(** The shuffle loop. [rand i] stands for the value of
    [int(random.random() * (len(pieces) - i))] at iteration [i]: an integer
    of [0, len(pieces) - i), since [random.random()] lies in [0, 1). *)
Definition shuffle {A} (rand : nat → nat) (pieces : list A) : option (list A) :=
  foldl (λ acc i, l ← acc; swap i (i + rand i) l)
        (Some pieces) (seq 0 (length pieces)).

(** The [while depth:] loop: [depth] pieces go from the end of [pieces] onto
    [stack]. *)
Fixpoint fill_stack (depth : nat) (stack pieces : list Piece)
    : option (list Piece * list Piece) :=
  match depth with
  | O => Some (stack, pieces)
  | S depth =>
      '(pieces, p) ← pop pieces;
      fill_stack depth (stack ++ [p]) pieces
  end.

Definition fill_cell (rix : nat)
    (st : list (list (list Piece)) * list Piece) (cix : nat)
    : option (list (list (list Piece)) * list Piece) :=
  depth ← DEPTHS !! rix ≫= (.!! cix);
  row ← st.1 !! rix;
  stack ← row !! cix;
  '(stack, pieces) ← fill_stack depth stack st.2;
  Some (<[rix := <[cix := stack]> row]> st.1, pieces).

Definition fill_row (st : list (list (list Piece)) * list Piece) (rix : nat)
    : option (list (list (list Piece)) * list Piece) :=
  row ← st.1 !! rix;
  foldl (λ acc cix, st ← acc; fill_cell rix st cix) (Some st)
        (seq 0 (length row)).

(** The part of [fill] after the shuffle: every cell is filled up to its
    depth, then one piece goes to [top], one to [left_blocks], and what is
    left to [right_blocks]. *)
Definition distribute (b : Board) (pieces : list Piece) : option Board :=
  '(rows', pieces) ← foldl (λ acc rix, st ← acc; fill_row st rix)
                           (Some (rows b, pieces)) (seq 0 (length (rows b)));
  '(pieces, p_top) ← pop pieces;
  '(pieces, p_left) ← pop pieces;
  Some (mkBoard rows' (top b ++ [p_top]) (left_blocks b ++ [p_left])
                (right_blocks b ++ pieces)).

(** [[piece for piece in PIECES for _ in range(4)]]. *)
Definition fresh_pieces : list Piece := p ← PIECES; replicate 4 p.

Definition fill (rand : nat → nat) (b : Board) : option Board :=
  pieces ← shuffle rand fresh_pieces;
  distribute b pieces.

(** [Board.is_empty]. *)
Definition is_empty (b : Board) : bool :=
  if bool_decide (top b ≠ []) then false
  else if bool_decide (left_blocks b ≠ []) then false
  else if bool_decide (right_blocks b ≠ []) then false
  else forallb (forallb (λ stack : list Piece, bool_decide (stack = []))) (rows b).

(** *** Exposure: [Board.is_movable] and [Board.find_movable_pieces] *)

Definition is_movable (b : Board) (row_ix col_ix : nat)
    (is_left_to_right : bool) : option bool :=
  row ← rows b !! row_ix;
  stack ← row !! col_ix;
  if bool_decide (stack = []) then Some false
  else
    let depth := length stack in
    if bool_decide (depth = 4) then
      (* center piece has to be gone first *)
      Some (bool_decide (top b = []))
    else if bool_decide (depth = 1) then
      if bool_decide (3 ≤ row_ix ≤ 4) then
        (* ground level on the middle rows need side blocks cleared *)
        if is_left_to_right then Some (bool_decide (left_blocks b = []))
        else Some (bool_decide (right_blocks b = []))
      else Some true
    else Some true.

(** [s.add(x)] on a set kept as a duplicate-free list. *)
Definition set_add {A} `{EqDecision A} (x : A) (s : list A) : list A :=
  if decide (x ∈ s) then s else s ++ [x].

(** The left-to-right [while col_ix < len(row)] loop of one row; [fuel] is
    the number of columns not yet visited. *)
Fixpoint scan_left_to_right (b : Board) (rix : nat) (row : list (list Piece))
    (fuel col_ix last_depth : nat) (movable_pieces : list MovablePiece)
    : option (list MovablePiece) :=
  match fuel with
  | O => Some movable_pieces
  | S fuel =>
      if bool_decide (col_ix < length row) then
        stack ← row !! col_ix;
        let depth := length stack in
        movable ← is_movable b rix col_ix true;
        if movable && bool_decide (last_depth < depth) then
          p ← peek stack;
          scan_left_to_right b rix row fuel (col_ix + 1) depth
            (set_add (mkMovablePiece (Row rix) (Some col_ix) p depth)
                     movable_pieces)
        else if bool_decide (depth < last_depth) then Some movable_pieces
        else scan_left_to_right b rix row fuel (col_ix + 1) last_depth
               movable_pieces
      else Some movable_pieces
  end.

(** The right-to-left [while col_ix >= 0] loop of one row; the first
    argument is [col_ix + 1]. *)
Fixpoint scan_right_to_left (b : Board) (rix : nat) (row : list (list Piece))
    (col_ix_succ last_depth : nat) (movable_pieces : list MovablePiece)
    : option (list MovablePiece) :=
  match col_ix_succ with
  | O => Some movable_pieces
  | S col_ix =>
      stack ← row !! col_ix;
      let depth := length stack in
      movable ← is_movable b rix col_ix false;
      if movable && bool_decide (last_depth < depth) then
        p ← peek stack;
        scan_right_to_left b rix row col_ix depth
          (set_add (mkMovablePiece (Row rix) (Some col_ix) p depth)
                   movable_pieces)
      else if bool_decide (depth < last_depth) then Some movable_pieces
      else scan_right_to_left b rix row col_ix last_depth movable_pieces
  end.

Definition scan_row (b : Board) (movable_pieces : list MovablePiece)
    (rix : nat) : option (list MovablePiece) :=
  row ← rows b !! rix;
  movable_pieces ← scan_left_to_right b rix row (length row) 0 0 movable_pieces;
  scan_right_to_left b rix row (length row) 0 movable_pieces.

(** [if pile: movable_pieces.add(MovablePiece(tag, None, pile[-1], 1))]. *)
Definition add_pile (tag : RowIx) (pile : list Piece)
    (movable_pieces : list MovablePiece) : list MovablePiece :=
  match peek pile with
  | Some p => set_add (mkMovablePiece tag None p 1) movable_pieces
  | None => movable_pieces
  end.

(** Python 2 ordering of the sort keys: an [int] sorts before a [str], the
    strings "L" < "R" < "T" by code, and [None] sorts before an [int]. *)
Definition RowIx_compare (x y : RowIx) : comparison :=
  match x, y with
  | Row m, Row n => Nat.compare m n
  | Row _, _ => Lt
  | _, Row _ => Gt
  | LEFT, LEFT | RIGHT, RIGHT | TOP, TOP => Eq
  | LEFT, _ => Lt
  | _, LEFT => Gt
  | RIGHT, _ => Lt
  | _, RIGHT => Gt
  end.

Definition col_compare (x y : option nat) : comparison :=
  match x, y with
  | None, None => Eq
  | None, Some _ => Lt
  | Some _, None => Gt
  | Some m, Some n => Nat.compare m n
  end.

(** Lexicographic comparison of the key [(x.row_ix, x.col_ix)]. *)
Definition coord_compare (p q : MovablePiece) : comparison :=
  match RowIx_compare (row_ix p) (row_ix q) with
  | Eq => col_compare (col_ix p) (col_ix q)
  | c => c
  end.

Definition piece_key_le (p q : MovablePiece) : bool :=
  match coord_compare p q with Gt => false | _ => true end.

(** The key of a move: the coordinates of its first, then of its second
    piece. *)
Definition move_key_le (m1 m2 : Move) : bool :=
  match coord_compare m1.1 m2.1 with
  | Eq => match coord_compare m1.2 m2.2 with Gt => false | _ => true end
  | Gt => false
  | Lt => true
  end.

(** [sorted(s, key=...)]: a stable sort by the key. *)
Fixpoint insert_sorted {A} (le : A → A → bool) (x : A) (l : list A) : list A :=
  match l with
  | [] => [x]
  | y :: l' => if le x y then x :: l else y :: insert_sorted le x l'
  end.

Definition sorted {A} (le : A → A → bool) (l : list A) : list A :=
  foldr (insert_sorted le) [] l.

Definition find_movable_pieces (b : Board) : option (list MovablePiece) :=
  movable_pieces ←
    foldl (λ acc rix, s ← acc; scan_row b s rix) (Some [])
          (seq 0 (length (rows b)));
  let movable_pieces := add_pile TOP (top b) movable_pieces in
  let movable_pieces := add_pile LEFT (left_blocks b) movable_pieces in
  let movable_pieces := add_pile RIGHT (right_blocks b) movable_pieces in
  Some (sorted piece_key_le movable_pieces).

(** *** [Board.find_moves] *)

(** [movables_by_piece.setdefault(p.piece, []).append(p)] for every [p]. *)
Definition group_by_piece (movable_pieces : list MovablePiece)
    : gmap string (list MovablePiece) :=
  foldl (λ m p, <[piece p := default [] (m !! piece p) ++ [p]]> m)
        ∅ movable_pieces.

(** The pairs [(pieces[i], pieces[j])] of the two nested [range] loops. *)
Definition pairs {A} (pieces : list A) : list (A * A) :=
  i ← seq 0 (length pieces - 1);
  j ← seq (i + 1) (length pieces - (i + 1));
  match pieces !! i, pieces !! j with
  | Some x, Some y => [(x, y)]
  | _, _ => []
  end.

Definition find_moves (movable_pieces : list MovablePiece) : list Move :=
  let movables_by_piece := group_by_piece movable_pieces in
  let moves :=
    foldl (λ moves mv, set_add mv moves) []
          (kv ← map_to_list movables_by_piece; pairs kv.2) in
  sorted move_key_le moves.

(** *** [remove_piece], [replace_piece], [do_move], [undo_move] *)

Definition remove_piece (b : Board) (movable_piece : MovablePiece)
    : option Board :=
  match row_ix movable_piece with
  | TOP =>
      '(l, _) ← pop (top b);
      Some (mkBoard (rows b) l (left_blocks b) (right_blocks b))
  | LEFT =>
      '(l, _) ← pop (left_blocks b);
      Some (mkBoard (rows b) (top b) l (right_blocks b))
  | RIGHT =>
      '(l, _) ← pop (right_blocks b);
      Some (mkBoard (rows b) (top b) (left_blocks b) l)
  | Row r =>
      row ← rows b !! r;
      c ← col_ix movable_piece;
      stack ← row !! c;
      '(stack, _) ← pop stack;
      Some (mkBoard (<[r := <[c := stack]> row]> (rows b))
                    (top b) (left_blocks b) (right_blocks b))
  end.

Definition replace_piece (b : Board) (movable_piece : MovablePiece)
    : option Board :=
  match row_ix movable_piece with
  | TOP =>
      Some (mkBoard (rows b) (top b ++ [piece movable_piece])
                    (left_blocks b) (right_blocks b))
  | LEFT =>
      Some (mkBoard (rows b) (top b)
                    (left_blocks b ++ [piece movable_piece]) (right_blocks b))
  | RIGHT =>
      Some (mkBoard (rows b) (top b) (left_blocks b)
                    (right_blocks b ++ [piece movable_piece]))
  | Row r =>
      row ← rows b !! r;
      c ← col_ix movable_piece;
      stack ← row !! c;
      Some (mkBoard (<[r := <[c := stack ++ [piece movable_piece]]> row]> (rows b))
                    (top b) (left_blocks b) (right_blocks b))
  end.

Definition do_move (b : Board) (move : Move) : option Board :=
  b ← remove_piece b move.1; remove_piece b move.2.

Definition undo_move (b : Board) (move : Move) : option Board :=
  b ← replace_piece b move.1; replace_piece b move.2.

(** *** Counting pieces *)

Definition grid_pieces (b : Board) : list Piece := mjoin (mjoin (rows b)).

Definition all_pieces (b : Board) : list Piece :=
  grid_pieces b ++ top b ++ left_blocks b ++ right_blocks b.

Definition total_pieces (b : Board) : nat := length (all_pieces b).

Definition symbol_count (sym : Piece) (b : Board) : nat :=
  length (filter (λ p, p = sym) (all_pieces b)).

(** ** Vocabulary of the properties *)

(** *** The stack a movable piece names *)

(** The place [remove_piece] and [replace_piece] act on: a pile is selected
    by [row_ix] alone, a grid stack by [row_ix] and [col_ix]. *)
Definition place (p : MovablePiece) : RowIx * option nat :=
  match row_ix p with
  | Row r => (Row r, col_ix p)
  | tag => (tag, None)
  end.

Definition stack_of (b : Board) (p : MovablePiece) : option (list Piece) :=
  match row_ix p with
  | TOP => Some (top b)
  | LEFT => Some (left_blocks b)
  | RIGHT => Some (right_blocks b)
  | Row r => row ← rows b !! r; c ← col_ix p; row !! c
  end.

(** [p] describes the exposed piece of its stack: the stack exists and its
    last element is [p.piece]. *)
Definition at_top (b : Board) (p : MovablePiece) : Prop :=
  ∃ stack, stack_of b p = Some stack ∧ peek stack = Some (piece p).

(** The two pieces of [m] are the exposed pieces of their respective stacks:
    two pieces, hence two stacks. *)
Definition exposed_pair (b : Board) (m : Move) : Prop :=
  at_top b m.1 ∧ at_top b m.2 ∧ place m.1 ≠ place m.2.

(** [p] is the descriptor [find_movable_pieces] builds for an occupied place
    of [b]: its coordinate names a non-empty grid stack or pile, [p.piece] is
    the last piece of it, and [p.depth] is the stack's length (1 for a
    pile). *)
Definition describes (b : Board) (p : MovablePiece) : Prop :=
  match row_ix p, col_ix p with
  | Row r, Some c =>
      ∃ row stack, rows b !! r = Some row ∧ row !! c = Some stack
                   ∧ peek stack = Some (piece p) ∧ depth p = length stack
  | TOP, None => peek (top b) = Some (piece p) ∧ depth p = 1
  | LEFT, None => peek (left_blocks b) = Some (piece p) ∧ depth p = 1
  | RIGHT, None => peek (right_blocks b) = Some (piece p) ∧ depth p = 1
  | _, _ => False
  end.

(** What the scans keep: no duplicates, and only descriptors of [b]. *)
Definition scan_inv (b : Board) (acc : list MovablePiece) : Prop :=
  NoDup acc ∧ Forall (describes b) acc.

(** The board in which the stack [p] names is [stack]; the board itself when
    [p] names no grid stack. *)
Definition set_stack (b : Board) (p : MovablePiece) (stack : list Piece)
    : Board :=
  match row_ix p with
  | TOP => mkBoard (rows b) stack (left_blocks b) (right_blocks b)
  | LEFT => mkBoard (rows b) (top b) stack (right_blocks b)
  | RIGHT => mkBoard (rows b) (top b) (left_blocks b) stack
  | Row r =>
      match col_ix p with
      | Some c =>
          mkBoard (alter (λ row, <[c := stack]> row) r (rows b))
                  (top b) (left_blocks b) (right_blocks b)
      | None => b
      end
  end.

(** [avoids c s]: the character [c] does not occur in [s]. *)
Fixpoint avoids (c : ascii) (s : string) : Prop :=
  match s with
  | EmptyString => True
  | String a s => a ≠ c ∧ avoids c s
  end.

(** The boards a game can show: a freshly filled board, and the boards
    that follow by applying moves that [find_moves] offers. *)
Inductive reachable : Board → Prop :=
  | reachable_fill rand b :
      fill rand new_board = Some b → reachable b
  | reachable_move b mps m b' :
      reachable b → find_movable_pieces b = Some mps → m ∈ find_moves mps →
      do_move b m = Some b' → reachable b'.

(** ** Rendering: [Board.row_to_str] and [Board.__str__] *)

(** [s * n] on strings; Python gives the empty string for [n <= 0], as the
    truncated subtraction of [nat] does below. *)
Fixpoint repeat_string (s : string) (n : nat) : string :=
  match n with
  | O => ""
  | S n => s +:+ repeat_string s n
  end.

(** One cell of [row_to_str]: the last piece, a dot for every piece under
    it, and blanks up to four characters; ["_   "] for an empty stack. *)
Definition cell_to_str (stack : list Piece) : string :=
  match peek stack with
  | Some p =>
      p +:+ repeat_string "." (length stack - 1)
        +:+ repeat_string " " (4 - length stack)
  | None => "_   "
  end.

Definition row_to_str (row : list (list Piece)) : string :=
  join " " (cell_to_str <$> row).

(** The line feed. *)
Definition newline : string := String (ascii_of_nat 10) EmptyString.

(** [Board.__str__]. The eight grid rows are read as [row_strs[0]] to
    [row_strs[7]]: an [IndexError] on a board of fewer rows. *)
Definition Board_str (b : Board) : option string :=
  let indent := 2 in
  let row_strs := row_to_str <$> rows b in
  r0 ← row_strs !! 0;
  r1 ← row_strs !! 1;
  r2 ← row_strs !! 2;
  r3 ← row_strs !! 3;
  r4 ← row_strs !! 4;
  r5 ← row_strs !! 5;
  r6 ← row_strs !! 6;
  r7 ← row_strs !! 7;
  Some (join newline [
    "        0    1    2    3    4    5    6    7    8    9    a    b";
    " +--------------------------------------------------------------";
    "0|  " +:+ repeat_string " " (indent + 2) +:+ r0;
    "1|  " +:+ repeat_string " " (indent + 12) +:+ r1;
    "2|  " +:+ repeat_string " " (indent + 7) +:+ r2;
    "3|  " +:+ repeat_string " " (indent + 2) +:+ r3;
    "M|  " +:+ join " " (left_blocks b) +:+ repeat_string " " 30
           +:+ join " " (top b) +:+ repeat_string " " 31
           +:+ join " " (right_blocks b);
    "4|  " +:+ repeat_string " " (indent + 2) +:+ r4;
    "5|  " +:+ repeat_string " " (indent + 7) +:+ r5;
    "6|  " +:+ repeat_string " " (indent + 12) +:+ r6;
    "7|  " +:+ repeat_string " " (indent + 2) +:+ r7
  ]).

(** ** [BacktrackingSearcher] *)

(** A call of a board-mutating method, for the history below. *)
Inductive BoardCall := Do (m : Move) | Undo (m : Move).

(** The state of a searcher ([BoardSearcher.__init__]). [dead_ends] is never
    written. The throughput counters [num_moves] and [last_time] follow the
    wall clock and only feed the printed report: they are left out. An entry
    [(ix, n)] of [trail] stands for the pair of floats
    [(float(ix), float(n))]. [history] is a ghost field: the [do_move] and
    [undo_move] calls made on the board so far, in order. *)
Record BoardSearcher := mkSearcher {
  board : Board;
  moves : list Move;
  trail : list (nat * nat);
  solutions : list (list Move);
  seen_states : gset string;
  stats_calls : nat;
  history : list BoardCall;
}.

(** How a call ends: it returns, it raises, or the model's recursion budget
    is used up. *)
Inductive outcome (A : Type) :=
  | Returned (a : A)
  | Raised
  | OutOfFuel.
Arguments Returned {A} a.
Arguments Raised {A}.
Arguments OutOfFuel {A}.

Global Instance outcome_bind : MBind outcome := λ A B f m,
  match m with
  | Returned a => f a
  | Raised => Raised
  | OutOfFuel => OutOfFuel
  end.

(** An exception raised by a board method propagates. *)
Definition lift {A} (o : option A) : outcome A :=
  match o with
  | Some a => Returned a
  | None => Raised
  end.

(** The loop [for num, den in self.trail: progress += num / den * fraction;
    fraction /= den] of [print_stats]: float divisions, which raise
    [ZeroDivisionError] on a zero denominator. The value is only printed. *)
Definition progress (trail : list (nat * nat)) : option unit :=
  if forallb (λ t : nat * nat, negb (t.2 =? 0)) trail then Some () else None.

(** [print_stats]. What is written to the output is not kept, but the
    exceptions of computing it are: [stats_calls] is counted up first, then
    [print self.board] renders the board unless the count is a multiple of
    100, then the progress is computed. The lines in between print the
    throughput, from the wall clock. *)
Definition print_stats (s : BoardSearcher) : outcome BoardSearcher :=
  let stats_calls1 := stats_calls s + 1 in
  _ ← (if decide (stats_calls1 mod 100 ≠ 0)
       then lift (Board_str (board s)) else Returned "");
  _ ← lift (progress (trail s));
  Returned (mkSearcher (board s) (moves s) (trail s) (solutions s)
                       (seen_states s) stats_calls1 (history s)).

(** One iteration of [for ix, move in enumerate(moves)], with [search] the
    recursive call. *)
Definition visit (search : BoardSearcher → outcome BoardSearcher)
    (n_moves : nat) (s : BoardSearcher) (ix : nat) (move : Move)
    : outcome BoardSearcher :=
  let trail1 := trail s ++ [(ix, n_moves)] in
  let moves1 := moves s ++ [move] in
  b ← lift (do_move (board s) move);
  s ← search (mkSearcher b moves1 trail1 (solutions s) (seen_states s)
                         (stats_calls s) (history s ++ [Do move]));
  b ← lift (undo_move (board s) move);
  '(moves2, _) ← lift (pop (moves s));
  '(trail2, _) ← lift (pop (trail s));
  Returned (mkSearcher b moves2 trail2 (solutions s) (seen_states s)
                       (stats_calls s) (history s ++ [Undo move])).

(** [backtracking_search]; [fuel] bounds the recursion depth. *)
Fixpoint backtracking_search (fuel : nat) (s : BoardSearcher)
    : outcome BoardSearcher :=
  match fuel with
  | O => OutOfFuel
  | S fuel =>
      if is_empty (board s) then
        let solution := moves s in
        print_stats
          (mkSearcher (board s) (moves s) (trail s)
                      (set_add solution (solutions s)) (seen_states s)
                      (stats_calls s) (history s))
      else
        let state := get_state (board s) in
        if decide (state ∈ seen_states s) then Returned s
        else
          let s := mkSearcher (board s) (moves s) (trail s) (solutions s)
                              ({[state]} ∪ seen_states s) (stats_calls s)
                              (history s) in
          movable_pieces ← lift (find_movable_pieces (board s));
          let found := find_moves movable_pieces in
          if decide (found = []) then print_stats s
          else
            foldl (λ acc im, s ← acc;
                     visit (backtracking_search fuel) (length found) s im.1 im.2)
                  (Returned s) (zip (seq 0 (length found)) found)
  end.

(** A history in which every [do_move] is followed, after a history of the
    same kind, by the [undo_move] of the same move: calls are undone in
    reverse order. *)
Inductive paired : list BoardCall → Prop :=
  | paired_nil : paired []
  | paired_app h1 h2 : paired h1 → paired h2 → paired (h1 ++ h2)
  | paired_wrap m h : paired h → paired (Do m :: h ++ [Undo m]).

(** What a call of [backtracking_search] that starts in [s] and returns in
    [s'] leaves as it found it: the board, the current path and the trail;
    and what it adds to the history is paired. *)
Definition search_inv (s s' : BoardSearcher) : Prop :=
  board s' = board s ∧ moves s' = moves s ∧ trail s' = trail s
  ∧ ∃ h, history s' = history s ++ h ∧ paired h.

(** [print_stats] can make its report: the board has the eight rows
    [__str__] reads, and no denominator on the trail is zero. *)
Definition can_report (s : BoardSearcher) : Prop :=
  8 ≤ length (rows (board s)) ∧ Forall (λ t : nat * nat, t.2 ≠ 0) (trail s).

(** A searcher as [BoardSearcher(board)] builds it. *)
Definition new_searcher (b : Board) : BoardSearcher :=
  mkSearcher b [] [] [] ∅ 0 [].

(** ** [MonteCarloSearcher] *)

(** A [MonteCarloSearcher]: the fields of [BoardSearcher] and the counter
    [max_depth]. *)
Record MonteCarloSearcher := mkMonteCarlo {
  base : BoardSearcher;
  max_depth : nat;
}.

(** [MonteCarloSearcher(board)]. *)
Definition new_monte_carlo (b : Board) : MonteCarloSearcher :=
  mkMonteCarlo (new_searcher b) 0.

(** [self.board] after a method of the board has changed it. *)
Definition with_board (b : Board) (s : BoardSearcher) : BoardSearcher :=
  mkSearcher b (moves s) (trail s) (solutions s) (seen_states s)
             (stats_calls s) (history s).

(** [monte_carlo_search]: the [while True] loop, [fuel] bounding its
    iterations and [k] counting them. [rand k n] stands for the value of
    [int(len(moves) * random.random())] at iteration [k] when [n] moves are
    open: an integer of [0, n), since [random.random()] lies in [0, 1). *)
Fixpoint monte_carlo_search (rand : nat → nat → nat) (fuel k : nat)
    (s : MonteCarloSearcher) : outcome MonteCarloSearcher :=
  match fuel with
  | O => OutOfFuel
  | S fuel =>
      if is_empty (board (base s)) then Returned s
      else
        movable_pieces ← lift (find_movable_pieces (board (base s)));
        let found := find_moves movable_pieces in
        if decide (found = []) then Returned s
        else
          move ← lift (found !! rand k (length found));
          b ← lift (do_move (board (base s)) move);
          monte_carlo_search rand fuel (S k)
            (mkMonteCarlo (with_board b (base s)) (max_depth s + 1))
  end.

(** ** Further vocabulary *)

(** [plays b ms b']: the moves [ms], applied in order from [b], lead to
    [b'], each being one of the moves [find_moves] offers on the board it is
    applied to. *)
Inductive plays : Board → list Move → Board → Prop :=
  | plays_nil b : plays b [] b
  | plays_cons b mps m b1 ms b' :
      find_movable_pieces b = Some mps → m ∈ find_moves mps →
      do_move b m = Some b1 → plays b1 ms b' → plays b (m :: ms) b'.

(** The order of the sort key [(row_ix, col_ix)]. *)
Definition coord_lt (p q : MovablePiece) : Prop := coord_compare p q = Lt.

(** The descriptor of a grid cell names a piece that [is_movable] accepts
    from the left or from the right. *)
Definition movable_from_a_side (b : Board) (p : MovablePiece) : Prop :=
  match row_ix p, col_ix p with
  | Row r, Some c =>
      is_movable b r c true = Some true ∨ is_movable b r c false = Some true
  | _, _ => True
  end.

(** The bounds a board in play keeps. *)
Definition within_depths (b : Board) : Prop :=
  layout b = layout new_board
  ∧ (∀ r c d, stack_depth b r c = Some d →
       ∃ dmax, DEPTHS !! r ≫= (.!! c) = Some dmax ∧ d ≤ dmax)
  ∧ length (top b) ≤ 1 ∧ length (left_blocks b) ≤ 1
  ∧ length (right_blocks b) ≤ 2
  ∧ total_pieces b ≤ 144 ∧ Nat.Even (total_pieces b).

(** *** Orders given by a three-way comparison *)

(** What a sort key's comparison has to satisfy for the sort to order. *)
Definition compare_order {A} (cmp : A → A → comparison) : Prop :=
  (∀ x y, cmp y x = CompOpp (cmp x y))
  ∧ (∀ x y z, cmp x y = Lt → cmp y z = Lt → cmp x z = Lt)
  ∧ (∀ x y z, cmp x y = Eq → cmp x z = cmp y z).

(** Comparison of tuples [(f x, g x)], as Python compares them. *)
Definition lex_compare {A B C} (f : C → A) (g : C → B)
    (cmpA : A → A → comparison) (cmpB : B → B → comparison)
    (x y : C) : comparison :=
  match cmpA (f x) (f y) with
  | Eq => cmpB (g x) (g y)
  | c => c
  end.

(** [le] as the "not greater" of a comparison. *)
Definition not_Gt (c : comparison) : bool :=
  match c with Gt => false | _ => true end.

(** The descriptor the scans build for the cell (rix, cix). *)
Definition cell_piece (rix cix : nat) (stack : list Piece) (x : Piece)
    : MovablePiece :=
  mkMovablePiece (Row rix) (Some cix) x (length stack).

(** [p] is a descriptor a scan of row [rix] in direction [ltr] may add. *)
Definition scanned (b : Board) (rix : nat) (row : list (list Piece))
    (ltr : bool) (p : MovablePiece) : Prop :=
  ∃ c stack x, p = cell_piece rix c stack x ∧ row !! c = Some stack
               ∧ peek stack = Some x ∧ is_movable b rix c ltr = Some true.

(** [sol] extends the path [path] by moves that empty the board [b], each
    one offered by [find_moves] when it is made. *)
Definition solves (b : Board) (path sol : list Move) : Prop :=
  ∃ ms b', sol = path ++ ms ∧ plays b ms b' ∧ is_empty b' = true.

(** What a call of [backtracking_search] adds to the searcher: solutions
    and seen states are only added, every new solution solves the board of
    the call, and the state of a non-empty board is seen afterwards. *)
Definition search_adds (s s' : BoardSearcher) : Prop :=
  solutions s ⊆ solutions s' ∧ seen_states s ⊆ seen_states s'
  ∧ stats_calls s ≤ stats_calls s'
  ∧ (∀ sol, sol ∈ solutions s' →
       sol ∈ solutions s ∨ solves (board s) (moves s) sol)
  ∧ (is_empty (board s) = false → get_state (board s) ∈ seen_states s').

(** [b] can be emptied by moves [find_moves] offers. *)
Definition solvable (b : Board) : Prop :=
  ∃ ms b', plays b ms b' ∧ is_empty b' = true.

(** [c] is a position of the game that starts on [b0]. *)
Definition position (b0 c : Board) : Prop := ∃ ms, plays b0 ms c.

(** No two positions of the game on [b0] have the same [get_state]. *)
Definition no_collision (b0 : Board) : Prop :=
  ∀ c1 c2, position b0 c1 → position b0 c2 →
           get_state c1 = get_state c2 → c1 = c2.

(** MD5 does not collide on the strings [get_state] hashes for two
    positions of the game on [b0]. *)
Definition md5_collision_free (b0 : Board) : Prop :=
  ∀ c1 c2, position b0 c1 → position b0 c2 →
           get_state c1 = get_state c2 → state_string c1 = state_string c2.

(** Every seen position with fewer than [n] pieces that can be solved has
    led to a recorded solution. *)
Definition finished (b0 : Board) (s : BoardSearcher) (n : nat) : Prop :=
  ∀ c, position b0 c → get_state c ∈ seen_states s → total_pieces c < n →
       solvable c → solutions s ≠ [].

(** The states a call adds are states of positions below its board. *)
Definition seen_below (s s' : BoardSearcher) : Prop :=
  ∀ st, st ∈ seen_states s' →
        st ∈ seen_states s ∨ ∃ ms d, plays (board s) ms d ∧ st = get_state d.

(** A stack [row_to_str] renders in four characters: at most four pieces,
    the last of them a symbol of one character. *)
Definition four_wide (stack : list Piece) : Prop :=
  length stack ≤ 4 ∧ ∀ p, peek stack = Some p → String.length p = 1.

(** The one-row board without pieces, and a one-row board without moves. *)
Definition empty_row_board : Board := mkBoard [[[]; []]] [] [] [].
Definition stuck_row_board : Board := mkBoard [[["A"]; ["B"]]] [] [] [].

(** ** Boards used as examples *)

(** The board [fill] builds when every random draw is 0 (the shuffle leaves
    the pieces in order). *)
Definition sample_board : Board :=
  Eval vm_compute in default new_board (fill (λ _, 0) new_board).


(** Two descriptors of one cell that differ in the piece they carry. *)
Definition sample_cell_A : MovablePiece := mkMovablePiece (Row 0) (Some 0) "A" 1.
Definition sample_cell_B : MovablePiece := mkMovablePiece (Row 0) (Some 0) "B" 1.

(** A row of two cells holding one piece of the same symbol each. *)
Definition two_cell_board : Board := mkBoard [[["A"]; ["A"]]] [] [] [].

(** The empty board of the game with one piece of the same symbol on each
    of the cells (0, 0) and (0, 1). *)
Definition pair_board : Board :=
  set_stack (set_stack new_board sample_cell_A ["A"])
            (mkMovablePiece (Row 0) (Some 1) "A" 1) ["A"].

(** The one move of [pair_board]. *)
Definition pair_move : Move :=
  (mkMovablePiece (Row 0) (Some 0) "A" 1, mkMovablePiece (Row 0) (Some 1) "A" 1).

(** The descriptors of the three piles of [sample_board]. *)
Definition sample_left : MovablePiece := mkMovablePiece LEFT None "0" 1.
Definition sample_right : MovablePiece := mkMovablePiece RIGHT None "0" 1.
Definition sample_top : MovablePiece := mkMovablePiece TOP None "0" 1.

(** Two exposed pieces of [sample_board] with the same symbol. *)
Definition sample_move : Move :=
  (mkMovablePiece (Row 1) (Some 0) "W" 1, mkMovablePiece (Row 1) (Some 1) "W" 2).

(** * Properties *)

Example md5_empty : MD5.hexdigest "" = "d41d8cd98f00b204e9800998ecf8427e".
Proof. vm_compute. reflexivity. Qed.

Example md5_abc : MD5.hexdigest "abc" = "900150983cd24fb0d6963f7d28e17f72".
Proof. vm_compute. reflexivity. Qed.

Example md5_message_digest :
  MD5.hexdigest "message digest" = "f96b697d7cb7938d525a2f31aaf161d0".
Proof. vm_compute. reflexivity. Qed.

Example md5_two_blocks :
  MD5.hexdigest "aaaaaaaaaaaaaaaaaaaaaaaaaaaaaaaaaaaaaaaaaaaaaaaaaaaaaaaaaaaaaaaa"
  = "014842d480b571495a4a0363793f7367".
Proof. vm_compute. reflexivity. Qed.

(** The states of the empty and of a freshly filled board, as Python's
    [hashlib] gives them. *)
Example get_state_new_board :
  MD5.hexdigest (state_string new_board) = "12f7201083d1686aa26ff2f9ad0f0e3c".
Proof. vm_compute. reflexivity. Qed.

Example get_state_sample_board :
  MD5.hexdigest (state_string sample_board)
  = "8d84c2854455cabc1895e56d1cf230cc".
Proof. vm_compute. reflexivity. Qed.

(** On the freshly filled [sample_board] thirty-five pieces are movable and
    thirteen moves are open. *)
Example find_movable_pieces_sample_board :
  length <$> find_movable_pieces sample_board = Some 35.
Proof. vm_compute. reflexivity. Qed.

Example find_moves_sample_board :
  length ∘ find_moves <$> find_movable_pieces sample_board = Some 13.
Proof. vm_compute. reflexivity. Qed.

(** On the eight-row board with one pair the search finds the one solution,
    which is the one legal move, and prints statistics once. *)
Example backtracking_search_pair_board :
  match backtracking_search 2 (new_searcher pair_board) with
  | Returned s => solutions s = [[pair_move]] ∧ stats_calls s = 1
  | _ => False
  end.
Proof. vm_compute. split; reflexivity. Qed.

(** On the board of one row the same search raises: [print_stats] prints
    the board, and [__str__] reads eight rows. *)
Example backtracking_search_two_cells :
  backtracking_search 2 (new_searcher two_cell_board) = Raised.
Proof. vm_compute. reflexivity. Qed.

(** ** Python primitives *)

Section primitives.
Context {A : Type}.
Implicit Types (l : list A) (x : A).

Lemma pop_snoc l x : pop (l ++ [x]) = Some (l, x).
Proof. unfold pop. by rewrite reverse_snoc, reverse_involutive. Qed.

Lemma pop_Some l l' x : pop l = Some (l', x) ↔ l = l' ++ [x].
Proof.
  split; [|intros ->; apply pop_snoc].
  unfold pop. destruct (reverse l) as [|y r] eqn:E; [done|].
  intros [= <- <-]. apply (inj reverse).
  by rewrite reverse_snoc, reverse_involutive.
Qed.

Lemma pop_None l : pop l = None ↔ l = [].
Proof.
  destruct l as [|y l _] using rev_ind; [done|].
  rewrite pop_snoc. split; [done|]. by destruct l.
Qed.

Lemma peek_snoc l x : peek (l ++ [x]) = Some x.
Proof. apply last_snoc. Qed.

Lemma peek_Some l x : peek l = Some x ↔ ∃ l', l = l' ++ [x].
Proof.
  split; [|intros [l' ->]; apply peek_snoc].
  destruct l as [|y l _] using rev_ind; [done|].
  rewrite peek_snoc. intros [= ->]. by exists l.
Qed.

Lemma peek_None l : peek l = None ↔ l = [].
Proof.
  destruct l as [|y l _] using rev_ind; [done|].
  rewrite peek_snoc. split; [done|]. by destruct l.
Qed.

End primitives.

(** ** The exposure rule *)

Lemma sample_board_filled : fill (λ _, 0) new_board = Some sample_board.
Proof. vm_compute. reflexivity. Qed.

(** C8. On any board, for a grid cell of row 3 or row 4 whose stack holds
    exactly one piece, [is_movable] answers [False] from left to right when
    [left_blocks] is not empty, and [False] from right to left when
    [right_blocks] is not empty. *)
Theorem is_movable_ground_middle_rows (b : Board) (rix cix : nat)
    (row : list (list Piece)) (stack : list Piece) :
  rows b !! rix = Some row → row !! cix = Some stack →
  length stack = 1 → 3 ≤ rix ≤ 4 →
  (left_blocks b ≠ [] → is_movable b rix cix true = Some false) ∧
  (right_blocks b ≠ [] → is_movable b rix cix false = Some false).
Proof.
  intros Hrow Hstack Hlen Hrix. unfold is_movable.
  rewrite Hrow; simpl. rewrite Hstack; simpl. rewrite Hlen.
  destruct stack as [|p stack]; [done|].
  rewrite bool_decide_eq_false_2 by done.
  rewrite (bool_decide_eq_false_2 (1 = 4)) by done.
  rewrite (bool_decide_eq_true_2 (1 = 1)) by done.
  rewrite (bool_decide_eq_true_2 (3 ≤ rix ≤ 4)) by done.
  split; intros Hne; by rewrite bool_decide_eq_false_2.
Qed.

(** On [sample_board], cell (3, 0): one piece, both side piles occupied. *)
Lemma is_movable_ground_middle_rows_witness :
  is_movable sample_board 3 0 true = Some false
  ∧ is_movable sample_board 3 0 false = Some false.
Proof.
  destruct (is_movable_ground_middle_rows sample_board 3 0 _ _
              eq_refl eq_refl eq_refl (conj (le_n 3) (le_S 3 3 (le_n 3))))
    as [Hleft Hright].
  split; [apply Hleft|apply Hright]; discriminate.
Defined.

(** C3, as the code has it. On any board and for either scan direction:
    for a grid cell whose stack is four pieces deep (the depth-map maximum
    of the four centre cells) [is_movable] answers whether [top] is empty,
    so [False] when [top] is not empty; for a stack of any other depth the
    answer does not depend on [top]: it is the same whatever [top] holds,
    [True] for a stack of two or three pieces and, for a single piece,
    [True] outside the rows 3 and 4. *)
Theorem is_movable_depth4_under_top (b : Board) (rix cix : nat)
    (row : list (list Piece)) (stack : list Piece) (is_left_to_right : bool) :
  rows b !! rix = Some row → row !! cix = Some stack →
  (length stack = 4 →
     is_movable b rix cix is_left_to_right = Some (bool_decide (top b = []))
     ∧ (top b ≠ [] → is_movable b rix cix is_left_to_right = Some false))
  ∧ (length stack ≠ 4 →
     ∀ top' : list Piece,
       is_movable (mkBoard (rows b) top' (left_blocks b) (right_blocks b))
                  rix cix is_left_to_right
       = is_movable b rix cix is_left_to_right)
  ∧ (2 ≤ length stack ≤ 3 →
     is_movable b rix cix is_left_to_right = Some true)
  ∧ (length stack = 1 → ¬ 3 ≤ rix ≤ 4 →
     is_movable b rix cix is_left_to_right = Some true).
Proof.
  intros Hrow Hstack. unfold is_movable; simpl.
  rewrite Hrow; simpl. rewrite Hstack; simpl. split_and!.
  - intros Hlen. rewrite Hlen.
    destruct stack as [|p stack]; [done|].
    rewrite bool_decide_eq_false_2 by done.
    rewrite (bool_decide_eq_true_2 (4 = 4)) by done.
    split; [done|]. intros Htop. by rewrite bool_decide_eq_false_2.
  - intros Hlen top'. by rewrite (bool_decide_eq_false_2 (length stack = 4)).
  - intros Hlen. destruct stack as [|p stack]; [simpl in Hlen; lia|].
    rewrite bool_decide_eq_false_2 by done.
    rewrite (bool_decide_eq_false_2 (length (p :: stack) = 4)) by lia.
    by rewrite (bool_decide_eq_false_2 (length (p :: stack) = 1)) by lia.
  - intros Hlen Hrix. destruct stack as [|p stack]; [done|].
    rewrite bool_decide_eq_false_2 by done.
    rewrite (bool_decide_eq_false_2 (length (p :: stack) = 4)) by lia.
    rewrite (bool_decide_eq_true_2 (length (p :: stack) = 1)) by done.
    by rewrite (bool_decide_eq_false_2 (3 ≤ rix ≤ 4)).
Qed.

(** On [sample_board], whose [top] holds a piece: the centre cells (3, 5)
    and (4, 6) are blocked; the cell (2, 3) of depth three, the cell (1, 1)
    of depth two and the cell (0, 0) of depth one are not, and taking the
    piece off [top] changes nothing for the cell (3, 0). *)
Lemma is_movable_depth4_under_top_witness :
  is_movable sample_board 3 5 true = Some false
  ∧ is_movable sample_board 4 6 false = Some false
  ∧ is_movable sample_board 2 3 true = Some true
  ∧ is_movable sample_board 1 1 false = Some true
  ∧ is_movable sample_board 0 0 true = Some true
  ∧ is_movable (mkBoard (rows sample_board) [] (left_blocks sample_board)
                        (right_blocks sample_board)) 3 0 true
    = is_movable sample_board 3 0 true.
Proof.
  split_and!.
  - destruct (is_movable_depth4_under_top sample_board 3 5 _ _ true
                eq_refl eq_refl) as (H4 & _).
    destruct (H4 eq_refl) as [_ Htop]. apply Htop. discriminate.
  - destruct (is_movable_depth4_under_top sample_board 4 6 _ _ false
                eq_refl eq_refl) as (H4 & _).
    destruct (H4 eq_refl) as [_ Htop]. apply Htop. discriminate.
  - destruct (is_movable_depth4_under_top sample_board 2 3 _ _ true
                eq_refl eq_refl) as (_ & _ & H23 & _).
    apply H23. simpl. lia.
  - destruct (is_movable_depth4_under_top sample_board 1 1 _ _ false
                eq_refl eq_refl) as (_ & _ & H23 & _).
    apply H23. simpl. lia.
  - destruct (is_movable_depth4_under_top sample_board 0 0 _ _ true
                eq_refl eq_refl) as (_ & _ & _ & H1).
    apply H1; [reflexivity|lia].
  - destruct (is_movable_depth4_under_top sample_board 3 0 _ _ true
                eq_refl eq_refl) as (_ & Hother & _).
    apply Hother. discriminate.
Defined.

(** C3, as stated, fails: on the freshly filled board the cell (0, 0) holds
    one piece, which is its depth-map maximum, [top] is not empty, and the
    cell is movable. *)
Lemma max_depth_cell_movable_under_top :
  ∃ b row stack,
    fill (λ _, 0) new_board = Some b
    ∧ rows b !! 0 = Some row ∧ row !! 0 = Some stack
    ∧ DEPTHS !! 0 ≫= (.!! 0) = Some (length stack)
    ∧ top b ≠ []
    ∧ is_movable b 0 0 true = Some true.
Proof.
  exists sample_board, (default [] (rows sample_board !! 0)), ["Z"].
  split; [apply sample_board_filled|].
  repeat split; done.
Qed.

(** ** Removing and replacing pieces *)

Lemma Board_eq (b1 b2 : Board) :
  rows b1 = rows b2 → top b1 = top b2 → left_blocks b1 = left_blocks b2 →
  right_blocks b1 = right_blocks b2 → b1 = b2.
Proof. destruct b1, b2; simpl; congruence. Qed.

Lemma insert_alter_lookup {A} (f : A → A) (l : list A) (i : nat) (x : A) :
  l !! i = Some x → <[i := f x]> l = alter f i l.
Proof.
  intros Hi. rewrite list_insert_alter. apply list_alter_ext; [|done].
  intros y Hy. congruence.
Qed.

Lemma remove_piece_set_stack (b : Board) (p : MovablePiece) (st : list Piece)
    (x : Piece) :
  stack_of b p = Some (st ++ [x]) → remove_piece b p = Some (set_stack b p st).
Proof.
  unfold stack_of, remove_piece, set_stack.
  destruct (row_ix p) as [r| | |];
    [|by intros [= ->]; rewrite pop_snoc..].
  destruct (rows b !! r) as [row|] eqn:Hrow; [simpl|done].
  destruct (col_ix p) as [c|]; [simpl|done].
  intros ->; simpl. rewrite pop_snoc; simpl.
  by rewrite (insert_alter_lookup (λ row, <[c:=st]> row) _ _ _ Hrow).
Qed.

Lemma replace_piece_set_stack (b : Board) (p : MovablePiece)
    (st : list Piece) :
  stack_of b p = Some st →
  replace_piece b p = Some (set_stack b p (st ++ [piece p])).
Proof.
  unfold stack_of, replace_piece, set_stack.
  destruct (row_ix p) as [r| | |]; [|by intros [= ->]..].
  destruct (rows b !! r) as [row|] eqn:Hrow; [simpl|done].
  destruct (col_ix p) as [c|]; [simpl|done].
  intros ->; simpl.
  by rewrite (insert_alter_lookup (λ row, <[c:=_]> row) _ _ _ Hrow).
Qed.

Lemma stack_of_set_stack_ne (b : Board) (p q : MovablePiece)
    (st : list Piece) :
  place p ≠ place q → stack_of (set_stack b p st) q = stack_of b q.
Proof.
  unfold place, stack_of, set_stack.
  destruct (row_ix p) as [r| | |], (row_ix q) as [r'| | |]; try done;
    try (by destruct (col_ix p)).
  destruct (col_ix p) as [c|]; [simpl|done].
  intros Hne. destruct (decide (r = r')) as [<-|Hr].
  - rewrite list_lookup_alter_eq.
    destruct (rows b !! r) as [row|]; [simpl|done].
    destruct (col_ix q) as [c'|]; [simpl|done].
    apply list_lookup_insert_ne. congruence.
  - by rewrite list_lookup_alter_ne.
Qed.

Lemma stack_of_set_stack_eq (b : Board) (p : MovablePiece)
    (st st' : list Piece) :
  stack_of b p = Some st → stack_of (set_stack b p st') p = Some st'.
Proof.
  unfold stack_of, set_stack.
  destruct (row_ix p) as [r| | |]; try done.
  destruct (col_ix p) as [c|];
    [simpl|by destruct (rows b !! r)].
  rewrite list_lookup_alter_eq.
  destruct (rows b !! r) as [row|]; [simpl|done].
  intros Hc. apply list_lookup_insert_eq. eauto using lookup_lt_Some.
Qed.

Lemma set_stack_id (b : Board) (p : MovablePiece) (st : list Piece) :
  stack_of b p = Some st → set_stack b p st = b.
Proof.
  unfold stack_of, set_stack.
  destruct (row_ix p) as [r| | |];
    [|by intros [= <-]; destruct b..].
  destruct (col_ix p) as [c|]; [simpl|done].
  intros Hc. apply Board_eq; try done; simpl.
  rewrite <-(list_alter_id id (rows b) r) at 2 by done.
  apply list_alter_ext; [|done]. intros row Hrow.
  rewrite Hrow in Hc; simpl in Hc. by apply list_insert_id.
Qed.

Lemma set_stack_set_stack (b : Board) (p : MovablePiece)
    (st st' : list Piece) :
  set_stack (set_stack b p st) p st' = set_stack b p st'.
Proof.
  unfold set_stack.
  destruct (row_ix p) as [r| | |]; try done.
  destruct (col_ix p) as [c|]; [simpl|done].
  apply Board_eq; try done; simpl.
  rewrite list_alter_alter_eq. apply list_alter_ext; [|done].
  intros row _; simpl. apply list_insert_insert_eq.
Qed.

Lemma set_stack_comm (b : Board) (p q : MovablePiece) (s t : list Piece) :
  place p ≠ place q →
  set_stack (set_stack b p s) q t = set_stack (set_stack b q t) p s.
Proof.
  unfold place, set_stack.
  destruct (row_ix p) as [r| | |] eqn:Hp, (row_ix q) as [r'| | |] eqn:Hq;
    try done; try (by destruct (col_ix _)).
  intros Hne. destruct (col_ix p) as [c|], (col_ix q) as [c'|]; try done.
  apply Board_eq; try done; simpl.
  destruct (decide (r = r')) as [<-|Hr].
  - rewrite !list_alter_alter_eq. apply list_alter_ext; [|done].
    intros row _; simpl. apply list_insert_insert_ne. congruence.
  - by apply list_alter_alter_ne.
Qed.

Lemma exposed_pair_stacks (b : Board) (m : Move) :
  exposed_pair b m →
  ∃ sp sq, stack_of b m.1 = Some (sp ++ [piece m.1])
           ∧ stack_of b m.2 = Some (sq ++ [piece m.2])
           ∧ place m.1 ≠ place m.2.
Proof.
  intros ([sp [Hp Hpt]] & [sq [Hq Hqt]] & Hne).
  apply peek_Some in Hpt as [sp' ->]. apply peek_Some in Hqt as [sq' ->].
  by exists sp', sq'.
Qed.

(** [do_move] on two stacks takes the last piece off each. *)
Lemma do_move_set_stack (b : Board) (p q : MovablePiece)
    (sp sq : list Piece) :
  stack_of b p = Some (sp ++ [piece p]) →
  stack_of b q = Some (sq ++ [piece q]) → place p ≠ place q →
  do_move b (p, q) = Some (set_stack (set_stack b p sp) q sq).
Proof.
  intros Hp Hq Hne. unfold do_move; simpl.
  rewrite (remove_piece_set_stack _ _ _ _ Hp); simpl.
  apply (remove_piece_set_stack _ _ _ (piece q)).
  by rewrite stack_of_set_stack_ne.
Qed.

(** [undo_move] puts the two pieces back on the stacks [do_move] took them
    from. *)
Lemma undo_move_set_stack (b : Board) (p q : MovablePiece)
    (sp sq : list Piece) :
  stack_of b p = Some (sp ++ [piece p]) →
  stack_of b q = Some (sq ++ [piece q]) → place p ≠ place q →
  undo_move (set_stack (set_stack b p sp) q sq) (p, q) = Some b.
Proof.
  intros Hp Hq Hne. unfold undo_move; simpl.
  erewrite (replace_piece_set_stack _ p sp); last first.
  { rewrite stack_of_set_stack_ne by done.
    by eapply stack_of_set_stack_eq. }
  simpl.
  erewrite (replace_piece_set_stack _ q sq); last first.
  { rewrite stack_of_set_stack_ne by done.
    eapply stack_of_set_stack_eq.
    rewrite stack_of_set_stack_ne by done. exact Hq. }
  f_equal.
  rewrite (set_stack_comm _ q p) by done.
  rewrite !set_stack_set_stack.
  rewrite (set_stack_id _ p) by done.
  by rewrite (set_stack_id _ q).
Qed.

(** C2. On any board, for a move (two movable pieces that name two
    different stacks or piles) whose pieces are the exposed pieces of their
    respective stacks, [do_move] succeeds and [undo_move] called right after
    it gives back the board as it was: the same stacks in the same order in
    every cell, and the same three piles. *)
Theorem undo_move_do_move (b : Board) (m : Move) :
  at_top b m.1 → at_top b m.2 → place m.1 ≠ place m.2 →
  ∃ b', do_move b m = Some b' ∧ undo_move b' m = Some b.
Proof.
  intros Hp Hq Hne.
  destruct (exposed_pair_stacks b m) as (sp & sq & Hsp & Hsq & _);
    [by split_and!|].
  destruct m as [p q]; simpl in *.
  exists (set_stack (set_stack b p sp) q sq). split.
  - by apply do_move_set_stack.
  - by apply undo_move_set_stack.
Qed.

(** On [sample_board], for the move [sample_move]. *)
Lemma undo_move_do_move_witness :
  ∃ b', do_move sample_board sample_move = Some b'
        ∧ undo_move b' sample_move = Some sample_board.
Proof.
  apply (undo_move_do_move sample_board sample_move).
  - exists ["W"]. split; reflexivity.
  - exists ["W"; "W"]. split; reflexivity.
  - discriminate.
Defined.

(** ** Sets kept as lists, and sorting *)

Section set_add.
Context {A : Type} `{EqDecision A}.
Implicit Types (x y : A) (s l : list A).

Lemma elem_of_set_add x y s : y ∈ set_add x s ↔ y = x ∨ y ∈ s.
Proof.
  unfold set_add. case_decide as Hx.
  - split; [by right|]. by intros [->|?].
  - rewrite elem_of_app, list_elem_of_singleton. tauto.
Qed.

Lemma NoDup_set_add x s : NoDup s → NoDup (set_add x s).
Proof.
  unfold set_add. case_decide; [done|]. intros Hs.
  apply NoDup_app. split_and!; [done| |apply NoDup_singleton].
  intros y Hy ->%list_elem_of_singleton. done.
Qed.

Lemma Forall_set_add (P : A → Prop) x s :
  P x → Forall P s → Forall P (set_add x s).
Proof.
  unfold set_add. case_decide; [done|]. intros. apply Forall_app; auto.
Qed.

Lemma insert_sorted_Permutation (le : A → A → bool) x l :
  insert_sorted le x l ≡ₚ x :: l.
Proof.
  induction l as [|y l IH]; simpl; [done|].
  destruct (le x y); [done|]. rewrite IH. apply Permutation_swap.
Qed.

Lemma sorted_Permutation (le : A → A → bool) l : sorted le l ≡ₚ l.
Proof.
  induction l as [|x l IH]; simpl; [done|].
  unfold sorted in *; simpl. by rewrite insert_sorted_Permutation, IH.
Qed.

End set_add.

(** A loop whose body may raise keeps an invariant and does not raise when
    every iteration keeps it and does not raise. *)
Lemma foldl_option_invariant {A B} (P : A → Prop) (f : A → B → option A)
    (l : list B) (a : A) :
  P a →
  (∀ a x, x ∈ l → P a → ∃ a', f a x = Some a' ∧ P a') →
  ∃ a', foldl (λ acc x, s ← acc; f s x) (Some a) l = Some a' ∧ P a'.
Proof.
  revert a. induction l as [|x l IH]; intros a Ha Hf; simpl; [by eauto|].
  destruct (Hf a x) as (a' & -> & Ha'); [left|done|].
  apply IH; [done|]. intros a0 y Hy. apply Hf. by right.
Qed.

(** ** [find_movable_pieces] *)

Lemma describes_at_top (b : Board) (p : MovablePiece) :
  describes b p → at_top b p.
Proof.
  unfold describes, at_top, stack_of.
  destruct (row_ix p) as [r| | |], (col_ix p) as [c|]; try done;
    try (intros [? _]; by eauto).
  intros (row & stack & -> & Hc & Hpeek & _); simpl. eauto.
Qed.

Lemma describes_place (b : Board) (p : MovablePiece) :
  describes b p → place p = coord p.
Proof.
  unfold describes, place, coord.
  by destruct (row_ix p) as [r| | |], (col_ix p) as [c|].
Qed.

Lemma describes_inj (b : Board) (p q : MovablePiece) :
  describes b p → describes b q → coord p = coord q → p = q.
Proof.
  unfold describes, coord. destruct p as [rp cp xp dp], q as [rq cq xq dq].
  simpl. intros Hp Hq [= <- <-].
  destruct rp as [r| | |], cp as [c|]; try done.
  - destruct Hp as (row & st & Hr & Hc & Hx & ->).
    destruct Hq as (row' & st' & Hr' & Hc' & Hx' & ->).
    simplify_eq. by f_equal.
  - destruct Hp as [Hx ->], Hq as [Hx' ->]. by simplify_eq.
  - destruct Hp as [Hx ->], Hq as [Hx' ->]. by simplify_eq.
  - destruct Hp as [Hx ->], Hq as [Hx' ->]. by simplify_eq.
Qed.

Lemma is_movable_lookup (b : Board) (r c : nat) (row : list (list Piece))
    (stack : list Piece) (ltr : bool) :
  rows b !! r = Some row → row !! c = Some stack →
  ∃ v, is_movable b r c ltr = Some v ∧ (v = true → stack ≠ []).
Proof.
  intros Hr Hc. unfold is_movable. rewrite Hr; simpl. rewrite Hc; simpl.
  case_bool_decide as Hnil; [by eauto|].
  repeat case_bool_decide; destruct ltr; eauto.
Qed.

Lemma scan_inv_set_add (b : Board) (p : MovablePiece)
    (acc : list MovablePiece) :
  describes b p → scan_inv b acc → scan_inv b (set_add p acc).
Proof.
  intros Hp [Hnd Hall]. split.
  - by apply NoDup_set_add.
  - by apply Forall_set_add.
Qed.

Lemma scan_left_to_right_inv (b : Board) (rix : nat)
    (row : list (list Piece)) (fuel col last : nat)
    (acc : list MovablePiece) :
  rows b !! rix = Some row → scan_inv b acc →
  ∃ acc', scan_left_to_right b rix row fuel col last acc = Some acc'
          ∧ scan_inv b acc'.
Proof.
  intros Hrow. revert col last acc.
  induction fuel as [|fuel IH]; intros col last acc Hacc; simpl; [by eauto|].
  case_bool_decide as Hlt; [|by eauto].
  destruct (lookup_lt_is_Some_2 row col Hlt) as [stack Hstack].
  rewrite Hstack; simpl.
  destruct (is_movable_lookup b rix col row stack true Hrow Hstack)
    as (v & -> & Hv); simpl.
  destruct (v && bool_decide (last < length stack)) eqn:Hcond.
  - apply andb_prop in Hcond as [-> _].
    destruct (peek stack) as [x|] eqn:Hpeek; simpl.
    + apply IH, scan_inv_set_add; [|done].
      unfold describes; simpl. by eauto 10.
    + apply peek_None in Hpeek. by destruct Hv.
  - destruct (bool_decide (length stack < last)); [by eauto|]. by apply IH.
Qed.

Lemma scan_right_to_left_inv (b : Board) (rix : nat)
    (row : list (list Piece)) (n last : nat) (acc : list MovablePiece) :
  rows b !! rix = Some row → n ≤ length row → scan_inv b acc →
  ∃ acc', scan_right_to_left b rix row n last acc = Some acc'
          ∧ scan_inv b acc'.
Proof.
  intros Hrow. revert last acc.
  induction n as [|col IH]; intros last acc Hn Hacc; simpl; [by eauto|].
  destruct (lookup_lt_is_Some_2 row col) as [stack Hstack]; [lia|].
  rewrite Hstack; simpl.
  destruct (is_movable_lookup b rix col row stack false Hrow Hstack)
    as (v & -> & Hv); simpl.
  destruct (v && bool_decide (last < length stack)) eqn:Hcond.
  - apply andb_prop in Hcond as [-> _].
    destruct (peek stack) as [x|] eqn:Hpeek; simpl.
    + apply IH; [lia|]. apply scan_inv_set_add; [|done].
      unfold describes; simpl. by eauto 10.
    + apply peek_None in Hpeek. by destruct Hv.
  - destruct (bool_decide (length stack < last)); [by eauto|].
    apply IH; [lia|done].
Qed.

Lemma scan_row_inv (b : Board) (acc : list MovablePiece) (rix : nat) :
  rix < length (rows b) → scan_inv b acc →
  ∃ acc', scan_row b acc rix = Some acc' ∧ scan_inv b acc'.
Proof.
  intros Hlt Hacc. unfold scan_row.
  destruct (lookup_lt_is_Some_2 _ _ Hlt) as [row Hrow]. rewrite Hrow; simpl.
  destruct (scan_left_to_right_inv b rix row (length row) 0 0 acc Hrow Hacc)
    as (acc1 & -> & Hacc1); simpl.
  by apply scan_right_to_left_inv.
Qed.

Lemma scan_inv_add_pile (b : Board) (tag : RowIx) (pile : list Piece)
    (acc : list MovablePiece) :
  (∀ x, peek pile = Some x → describes b (mkMovablePiece tag None x 1)) →
  scan_inv b acc → scan_inv b (add_pile tag pile acc).
Proof.
  intros Hd Hacc. unfold add_pile.
  destruct (peek pile) as [x|]; [|done]. apply scan_inv_set_add; auto.
Qed.

(** [find_movable_pieces] never raises; its result has no duplicates and
    holds only descriptors of the board. *)
Lemma find_movable_pieces_inv (b : Board) :
  ∃ mps, find_movable_pieces b = Some mps ∧ scan_inv b mps.
Proof.
  unfold find_movable_pieces.
  destruct (foldl_option_invariant (scan_inv b) (scan_row b)
              (seq 0 (length (rows b))) [])
    as (acc & -> & Hacc).
  { split; [apply NoDup_nil_2|apply Forall_nil_2]. }
  { intros a rix Hrix%elem_of_seq Ha. apply scan_row_inv; [lia|done]. }
  simpl. eexists; split; [done|].
  assert (scan_inv b (add_pile RIGHT (right_blocks b)
            (add_pile LEFT (left_blocks b) (add_pile TOP (top b) acc))))
    as [Hnd Hall].
  { repeat apply scan_inv_add_pile; try done; by intros x Hx. }
  split.
  - by rewrite sorted_Permutation.
  - by rewrite sorted_Permutation.
Qed.

(** ** [find_moves] *)

Section pairs.
Context {A : Type}.
Implicit Types (x y : A) (l : list A).

Lemma bind_singleton_fmap {B} (g : A → B) l : (l ≫= λ z, [g z]) = g <$> l.
Proof. induction l as [|x l IH]; [done|]. rewrite bind_cons, IH. done. Qed.

Lemma seq_bind_lookup {B} (h : A → list B) l :
  (j ← seq 0 (length l); match l !! j with Some y => h y | None => [] end)
  = l ≫= h.
Proof.
  induction l as [|x l IH]; [done|].
  simpl length. rewrite <-cons_seq, !bind_cons. simpl. f_equal.
  rewrite <-fmap_S_seq, list_fmap_bind. rewrite <-IH.
  by apply list_bind_ext.
Qed.

(** The two nested loops, by recursion on the list. *)
Lemma pairs_cons x l : pairs (x :: l) = ((x,.) <$> l) ++ pairs l.
Proof.
  destruct l as [|y l]; [done|].
  unfold pairs. cbn [length].
  replace (S (S (length l)) - 1) with (S (length l)) by lia.
  rewrite <-cons_seq, bind_cons. f_equal.
  - cbn [Nat.add]. replace (S (S (length l)) - 1) with (S (length l)) by lia.
    rewrite <-fmap_S_seq, list_fmap_bind.
    rewrite <-bind_singleton_fmap.
    rewrite <-(seq_bind_lookup (λ z, [(x, z)]) (y :: l)).
    by apply list_bind_ext.
  - replace (S (length l) - 1) with (length l) by lia.
    rewrite <-fmap_S_seq, list_fmap_bind. apply list_bind_ext; [|done].
    intros i; simpl.
    rewrite <-fmap_S_seq, list_fmap_bind. by apply list_bind_ext.
Qed.

Lemma elem_of_pairs_cons x l y z :
  (y, z) ∈ pairs (x :: l) ↔ (y = x ∧ z ∈ l) ∨ (y, z) ∈ pairs l.
Proof.
  rewrite pairs_cons, elem_of_app, list_elem_of_fmap.
  split; (intros [H|H]; [left|by right]).
  - destruct H as (w & [= -> ->] & Hw). done.
  - destruct H as [-> Hz]. by exists z.
Qed.

(** A pair is enumerated exactly when its components stand at two
    positions of the list, the first before the second. *)
Lemma elem_of_pairs l y z :
  (y, z) ∈ pairs l ↔ ∃ i j, i < j ∧ l !! i = Some y ∧ l !! j = Some z.
Proof.
  induction l as [|x l IH].
  - split; [by intros ?%elem_of_nil|]. by intros (i & j & _ & ? & _).
  - rewrite elem_of_pairs_cons, IH. split.
    + intros [[-> [j Hj]%list_elem_of_lookup_1]|(i & j & Hij & Hi & Hj)].
      * exists 0, (S j). split_and!; [lia|done..].
      * exists (S i), (S j). split_and!; [lia|done..].
    + intros (i & j & Hij & Hi & Hj).
      destruct j as [|j]; [lia|]. destruct i as [|i]; simpl in *.
      * left. split; [congruence|]. by eapply list_elem_of_lookup_2.
      * right. exists i, j. split_and!; [lia|done..].
Qed.

Lemma elem_of_pairs_l l y z : (y, z) ∈ pairs l → y ∈ l.
Proof.
  intros (i & j & _ & Hi & _)%elem_of_pairs. by eapply list_elem_of_lookup_2.
Qed.

Lemma NoDup_pairs l : NoDup l → NoDup (pairs l).
Proof.
  induction 1 as [|x l Hx Hl IH]; [apply NoDup_nil_2|].
  rewrite pairs_cons. apply NoDup_app. split_and!; [|  |done].
  - apply (NoDup_fmap_2 _); done.
  - intros [y z] (w & [= -> ->] & _)%list_elem_of_fmap Hin.
    by apply elem_of_pairs_l in Hin.
Qed.

Lemma elem_of_pairs_filter (P : A → Prop) `{∀ x, Decision (P x)} l y z :
  (y, z) ∈ pairs (filter P l) ↔ P y ∧ P z ∧ (y, z) ∈ pairs l.
Proof.
  induction l as [|x l IH].
  - split; [by intros ?%elem_of_nil|]. by intros (_ & _ & ?%elem_of_nil).
  - rewrite elem_of_pairs_cons. destruct (decide (P x)) as [Hx|Hx].
    + rewrite filter_cons_True by done.
      rewrite elem_of_pairs_cons, IH, list_elem_of_filter. split.
      * intros [(-> & Hz & Hin)|(Hy & Hz & Hin)]; split_and!; auto.
      * intros (Hy & Hz & [[-> Hin]|Hin]); auto.
    + rewrite filter_cons_False by done. rewrite IH. split.
      * intros (Hy & Hz & Hin); auto.
      * intros (Hy & Hz & [[-> _]|?]); done.
Qed.

End pairs.

Lemma foldl_set_add_spec {A} `{EqDecision A} (l acc : list A) :
  NoDup acc →
  NoDup (foldl (λ s x, set_add x s) acc l)
  ∧ ∀ y, y ∈ foldl (λ s x, set_add x s) acc l ↔ y ∈ acc ∨ y ∈ l.
Proof.
  revert acc. induction l as [|x l IH]; intros acc Hacc; simpl.
  - split; [done|]. intros y. rewrite elem_of_nil. tauto.
  - destruct (IH (set_add x acc)) as [Hnd Hin]; [by apply NoDup_set_add|].
    split; [done|]. intros y.
    rewrite Hin, elem_of_set_add, elem_of_cons. tauto.
Qed.

Lemma group_by_piece_snoc (l : list MovablePiece) (p : MovablePiece) :
  group_by_piece (l ++ [p])
  = <[piece p := default [] (group_by_piece l !! piece p) ++ [p]]>
      (group_by_piece l).
Proof. unfold group_by_piece. by rewrite foldl_snoc. Qed.

(** The dictionary maps every symbol that occurs to the pieces carrying it,
    in list order, and has no entry for the other symbols. *)
Lemma group_by_piece_lookup (l : list MovablePiece) (sym : string) :
  group_by_piece l !! sym
  = match filter (λ p, piece p = sym) l with
    | [] => None
    | ps => Some ps
    end.
Proof.
  induction l as [|p l IH] using rev_ind; [done|].
  rewrite group_by_piece_snoc, filter_app.
  destruct (decide (piece p = sym)) as [<-|Hne].
  - rewrite lookup_insert_eq, filter_cons_True, filter_nil by done.
    rewrite IH. by destruct (filter _ l).
  - rewrite lookup_insert_ne, filter_cons_False, filter_nil, app_nil_r by done.
    exact IH.
Qed.

(** The moves of [find_moves]: the enumerated pairs whose two symbols
    agree. *)
Lemma elem_of_find_moves (l : list MovablePiece) (p q : MovablePiece) :
  (p, q) ∈ find_moves l ↔ piece p = piece q ∧ (p, q) ∈ pairs l.
Proof.
  unfold find_moves. rewrite sorted_Permutation.
  destruct (foldl_set_add_spec
              (kv ← map_to_list (group_by_piece l); pairs kv.2) [])
    as [_ ->]; [apply NoDup_nil_2|].
  rewrite elem_of_nil, list_elem_of_bind. split.
  - intros [[]|([sym ps] & Hin & Hkv)]. simpl in Hin.
    apply elem_of_map_to_list in Hkv. rewrite group_by_piece_lookup in Hkv.
    assert (ps = filter (λ p, piece p = sym) l) as ->.
    { destruct (filter _ l); congruence. }
    apply elem_of_pairs_filter in Hin as (-> & -> & Hin). done.
  - intros [Hpq Hin]. right.
    exists (piece p, filter (λ x, piece x = piece p) l). split; simpl.
    + apply elem_of_pairs_filter. done.
    + apply elem_of_map_to_list. rewrite group_by_piece_lookup.
      destruct (filter _ l) eqn:E; [|done].
      apply elem_of_pairs_l in Hin.
      by apply (filter_nil_not_elem_of _ _ p) in E.
Qed.

Lemma NoDup_find_moves (l : list MovablePiece) : NoDup (find_moves l).
Proof.
  unfold find_moves. rewrite sorted_Permutation.
  apply foldl_set_add_spec, NoDup_nil_2.
Qed.

(** On a duplicate-free list no pair is lost to the set: the moves are a
    rearrangement of the same-symbol pairs. *)
Lemma find_moves_Permutation (l : list MovablePiece) :
  NoDup l →
  find_moves l ≡ₚ filter (λ m, piece m.1 = piece m.2) (pairs l).
Proof.
  intros Hl. apply NoDup_Permutation.
  - apply NoDup_find_moves.
  - by apply NoDup_filter, NoDup_pairs.
  - intros [p q]. rewrite elem_of_find_moves, list_elem_of_filter. done.
Qed.

Lemma choose2_succ (n : nat) : n + n * (n - 1) / 2 = S n * (S n - 1) / 2.
Proof.
  replace (S n - 1) with n by lia. destruct n as [|n]; [done|].
  replace (S n - 1) with n by lia.
  replace (S (S n) * S n) with (S n * n + S n * 2) by lia.
  rewrite Nat.div_add by done. lia.
Qed.

(** [n] pieces of one symbol make [n * (n - 1) / 2] pairs. *)
Lemma same_symbol_pairs_count (l : list MovablePiece) (sym : string) :
  length (filter (λ m, piece m.1 = sym)
            (filter (λ m, piece m.1 = piece m.2) (pairs l)))
  = length (filter (λ p, piece p = sym) l)
    * (length (filter (λ p, piece p = sym) l) - 1) / 2.
Proof.
  induction l as [|x l IH]; [done|].
  rewrite pairs_cons, !filter_app, length_app, IH. clear IH.
  set (n := length (filter (λ p, piece p = sym) l)).
  assert (length (filter (λ m, piece m.1 = sym)
            (filter (λ m, piece m.1 = piece m.2) ((x,.) <$> l)))
          = if decide (piece x = sym) then n else 0) as ->.
  { unfold n. clear n. induction l as [|y l IH]; [by case_decide|].
    rewrite fmap_cons. destruct (decide (piece x = piece y)) as [Hxy|Hxy].
    - rewrite (filter_cons_True _ (x, y)) by done.
      destruct (decide (piece x = sym)) as [Hx|Hx].
      + rewrite (filter_cons_True _ (x, y)), (filter_cons_True _ y)
          by (simpl; congruence).
        simpl. by rewrite IH.
      + rewrite (filter_cons_False _ (x, y)) by done. done.
    - rewrite (filter_cons_False _ (x, y)) by done. rewrite IH.
      case_decide; [|done].
      rewrite (filter_cons_False _ y) by congruence. done. }
  destruct (decide (piece x = sym)) as [Hx|Hx].
  - rewrite filter_cons_True by done. simpl length. fold n.
    apply choose2_succ.
  - by rewrite filter_cons_False by done.
Qed.

(** ** [fill] *)

Lemma insert_Permutation_swap {A} (l : list A) (i : nat) (x y : A) :
  l !! i = Some x → x :: <[i := y]> l ≡ₚ y :: l.
Proof.
  revert i. induction l as [|z l IH]; intros [|i] Hi; simplify_eq/=.
  - apply Permutation_swap.
  - etrans; [apply Permutation_swap|]. etrans; [|apply Permutation_swap].
    apply Permutation_skip. by apply IH.
Qed.

Lemma swap_Permutation {A} (i j : nat) (l l' : list A) :
  swap i j l = Some l' → l' ≡ₚ l.
Proof.
  unfold swap. destruct (l !! i) as [x|] eqn:Hi; [simpl|done].
  destruct (l !! j) as [y|] eqn:Hj; [simpl|done]. intros [= <-].
  assert (<[i := y]> l !! j = Some y) as Hj'.
  { destruct (decide (i = j)) as [->|Hne].
    - apply list_lookup_insert_eq. eauto using lookup_lt_Some.
    - by rewrite list_lookup_insert_ne. }
  apply (Permutation_cons_inv (a := y)).
  etrans; [apply (insert_Permutation_swap _ _ _ _ Hj')|].
  by apply insert_Permutation_swap.
Qed.

Lemma swap_is_Some {A} (i j : nat) (l : list A) :
  i < length l → j < length l → is_Some (swap i j l).
Proof.
  intros [x Hx]%lookup_lt_is_Some_2 [y Hy]%lookup_lt_is_Some_2.
  unfold swap. rewrite Hx, Hy. by eexists.
Qed.

(** The shuffle rearranges the pieces, whenever it does not raise. *)
Lemma shuffle_Permutation {A} (rand : nat → nat) (l l' : list A) :
  shuffle rand l = Some l' → l' ≡ₚ l.
Proof.
  unfold shuffle. generalize (seq 0 (length l)). intros ixs.
  assert (∀ acc, foldl (λ acc i, l0 ← acc; swap i (i + rand i) l0) acc ixs
                 = Some l' → ∃ a, acc = Some a ∧ l' ≡ₚ a) as Hgen.
  { induction ixs as [|i ixs IH]; intros acc Hacc; simpl in *; [by eauto|].
    apply IH in Hacc as (a & Ha & Hperm).
    destruct acc as [a0|]; [simpl in Ha|done].
    eexists; split; [done|]. rewrite Hperm. by eapply swap_Permutation. }
  intros (a & [= <-] & Hperm)%Hgen. done.
Qed.

(** The shuffle does not raise when every draw is in range. *)
Lemma shuffle_is_Some {A} (rand : nat → nat) (l : list A) :
  (∀ i, i < length l → rand i < length l - i) → is_Some (shuffle rand l).
Proof.
  intros Hrand. unfold shuffle.
  destruct (foldl_option_invariant (λ a : list A, length a = length l)
              (λ a i, swap i (i + rand i) a) (seq 0 (length l)) l)
    as (a & Ha & _); [done| |by eexists].
  intros a i Hi%elem_of_seq Hlen. specialize (Hrand i).
  destruct (swap_is_Some i (i + rand i) a) as [a' Ha']; [lia..|].
  exists a'. split; [done|].
  apply swap_Permutation, Permutation_length in Ha'. congruence.
Qed.

Lemma fresh_pieces_length : length fresh_pieces = 144.
Proof. reflexivity. Qed.

(** Dealing out 144 pieces onto the empty board: the grid takes the last
    140 of them, last first, [top] and [left_blocks] the two before, and
    [right_blocks] the first two. *)
Lemma distribute_new_board (l : list string) :
  length l = 144 →
  ∃ b, distribute new_board l = Some b
       ∧ (λ row : list (list string), length <$> row) <$> rows b = DEPTHS
       ∧ length (top b) = 1 ∧ length (left_blocks b) = 1
       ∧ length (right_blocks b) = 2
       ∧ all_pieces b
         = reverse (drop 4 l) ++ reverse (take 2 (drop 2 l)) ++ take 2 l.
Proof.
  intros Hlen.
  do 144 (destruct l as [|? l]; [discriminate Hlen|]).
  destruct l; [clear Hlen|discriminate Hlen].
  eexists; split; [vm_compute; reflexivity|].
  split_and!; vm_compute; reflexivity.
Qed.

Lemma deal_order_Permutation {A} (l : list A) :
  reverse (drop 4 l) ++ reverse (take 2 (drop 2 l)) ++ take 2 l ≡ₚ l.
Proof.
  rewrite !reverse_Permutation.
  rewrite <-(take_drop 2 l) at 4. rewrite <-(take_drop 2 (drop 2 l)) at 2.
  rewrite drop_drop. simpl.
  rewrite (comm (++) (drop 4 l)), <-(assoc (++)).
  by rewrite !(assoc (++)), (comm (++) (take 2 (drop 2 l))).
Qed.

Lemma filter_replicate_eq (sym : string) (n : nat) :
  filter (λ p, p = sym) (replicate n sym) = replicate n sym.
Proof.
  induction n as [|n IH]; [done|]. simpl. by rewrite filter_cons_True, IH.
Qed.

Lemma filter_replicate_ne (sym x : string) (n : nat) :
  x ≠ sym → filter (λ p, p = sym) (replicate n x) = [].
Proof.
  intros Hne. induction n as [|n IH]; [done|]. simpl.
  by rewrite filter_cons_False.
Qed.

Lemma filter_bind_replicate (sym : string) (n : nat) (l : list string) :
  length (filter (λ p, p = sym) (p ← l; replicate n p))
  = n * length (filter (λ p, p = sym) l).
Proof.
  induction l as [|x l IH]; [simpl; lia|].
  rewrite bind_cons, filter_app, length_app, IH.
  destruct (decide (x = sym)) as [->|Hne].
  - rewrite (filter_cons_True _ sym) by done. simpl length.
    rewrite filter_replicate_eq, length_replicate. lia.
  - rewrite (filter_cons_False _ x) by done.
    by rewrite filter_replicate_ne.
Qed.

Lemma PIECES_count (sym : string) :
  length (filter (λ p, p = sym) PIECES) = if decide (sym ∈ PIECES) then 1 else 0.
Proof.
  case_decide as Hin.
  - revert sym Hin. apply Forall_forall.
    repeat (apply Forall_cons; split; [vm_compute; reflexivity|]).
    apply Forall_nil_2.
  - destruct (filter _ PIECES) as [|x k] eqn:E; [done|].
    assert (x ∈ filter (λ p, p = sym) PIECES) as [-> ?]%list_elem_of_filter
      by (rewrite E; left).
    done.
Qed.

(** What [fill] leaves on the empty board, whenever it does not raise. *)
Lemma fill_new_board_spec (rand : nat → nat) (b : Board) :
  fill rand new_board = Some b →
  (λ row : list (list string), length <$> row) <$> rows b = DEPTHS
  ∧ length (top b) = 1 ∧ length (left_blocks b) = 1
  ∧ length (right_blocks b) = 2
  ∧ all_pieces b ≡ₚ fresh_pieces.
Proof.
  unfold fill. destruct (shuffle rand fresh_pieces) as [l|] eqn:Hl; [|done].
  simpl. apply shuffle_Permutation in Hl.
  destruct (distribute_new_board l)
    as (b' & -> & Hrows & Htop & Hleft & Hright & Hall).
  { by rewrite Hl. }
  intros [= <-]. split_and!; try done.
  by rewrite Hall, deal_order_Permutation.
Qed.

Lemma fill_new_board_is_Some (rand : nat → nat) :
  (∀ i, i < 144 → rand i < 144 - i) → is_Some (fill rand new_board).
Proof.
  intros Hrand. unfold fill.
  destruct (shuffle_is_Some rand fresh_pieces) as [l Hl]; [done|].
  rewrite Hl; simpl. apply shuffle_Permutation in Hl.
  destruct (distribute_new_board l) as (b' & -> & _); [by rewrite Hl|].
  by eexists.
Qed.

Lemma symbol_count_fill (rand : nat → nat) (b : Board) (sym : string) :
  fill rand new_board = Some b →
  symbol_count sym b = if decide (sym ∈ PIECES) then 4 else 0.
Proof.
  intros (_ & _ & _ & _ & Hall)%fill_new_board_spec.
  unfold symbol_count. rewrite Hall. unfold fresh_pieces.
  rewrite filter_bind_replicate, PIECES_count. by case_decide.
Qed.

Lemma DEPTHS_sum : sum_list (mjoin DEPTHS) = 140.
Proof. reflexivity. Qed.

Lemma grid_pieces_length (b : Board) :
  length (grid_pieces b)
  = sum_list (mjoin ((λ row : list (list string), length <$> row) <$> rows b)).
Proof.
  unfold grid_pieces. induction (rows b) as [|row rs IH]; [done|].
  rewrite fmap_cons.
  change (mjoin (row :: rs)) with (row ++ mjoin rs).
  change (mjoin ((length <$> row) :: ?l)) with ((length <$> row) ++ mjoin l).
  rewrite join_app, length_app, sum_list_with_app, IH. f_equal.
  clear. induction row as [|st row IH]; [done|].
  rewrite fmap_cons. change (mjoin (st :: row)) with (st ++ mjoin row).
  rewrite length_app, IH. done.
Qed.

(** C4, as the code has it. When every draw of the shuffle is in range,
    [fill] on the empty board does not raise and leaves 144 pieces: 140 on
    the grid, every cell filled to its depth-map maximum, one on [top], one
    on [left_blocks] and the remaining two on [right_blocks], four of every
    symbol; and [is_empty] is [False]. *)
Theorem fill_distribution (rand : nat → nat) :
  (∀ i, i < 144 → rand i < 144 - i) →
  ∃ b, fill rand new_board = Some b
       ∧ total_pieces b = 144
       ∧ length (grid_pieces b) = 140
       ∧ (λ row : list (list string), length <$> row) <$> rows b = DEPTHS
       ∧ length (top b) = 1 ∧ length (left_blocks b) = 1
       ∧ length (right_blocks b) = 2
       ∧ (∀ sym, symbol_count sym b = if decide (sym ∈ PIECES) then 4 else 0)
       ∧ is_empty b = false.
Proof.
  intros [b Hb]%fill_new_board_is_Some. exists b.
  destruct (fill_new_board_spec _ _ Hb)
    as (Hrows & Htop & Hleft & Hright & Hall).
  split_and!; try done.
  - unfold total_pieces. by rewrite Hall.
  - by rewrite grid_pieces_length, Hrows.
  - intros sym. by eapply symbol_count_fill.
  - unfold is_empty. destruct (top b); [done|].
    by rewrite bool_decide_eq_true_2.
Qed.

(** With every draw 0. *)
Lemma fill_distribution_witness :
  ∃ b, fill (λ _, 0) new_board = Some b
       ∧ total_pieces b = 144
       ∧ length (grid_pieces b) = 140
       ∧ (λ row : list (list string), length <$> row) <$> rows b = DEPTHS
       ∧ length (top b) = 1 ∧ length (left_blocks b) = 1
       ∧ length (right_blocks b) = 2
       ∧ (∀ sym, symbol_count sym b = if decide (sym ∈ PIECES) then 4 else 0)
       ∧ is_empty b = false.
Proof. apply (fill_distribution (λ _, 0)). intros i Hi. lia. Defined.

(** C4, as stated, fails: the filled grid holds 140 pieces, the sum of the
    depth map, not 96, and [right_blocks] holds two. *)
Lemma fill_grid_not_96 :
  ∃ b, fill (λ _, 0) new_board = Some b
       ∧ (λ row : list (list string), length <$> row) <$> rows b = DEPTHS
       ∧ length (top b) = 1 ∧ length (left_blocks b) = 1
       ∧ length (grid_pieces b) = 140 ∧ length (grid_pieces b) ≠ 96
       ∧ length (right_blocks b) = 2.
Proof.
  exists sample_board. split; [apply sample_board_filled|].
  split_and!; done.
Qed.

(** ** Applying a move: piece counts *)

Lemma join_insert_Permutation {A} (ls : list (list A)) (i : nat)
    (l l' : list A) (x : A) :
  ls !! i = Some l → l ≡ₚ x :: l' →
  mjoin ls ≡ₚ x :: mjoin (<[i := l']> ls).
Proof.
  revert i. induction ls as [|z ls IH]; intros [|i] Hi Hl; simplify_eq/=.
  - by rewrite Hl.
  - rewrite (IH i) by done. by rewrite Permutation_middle.
Qed.

Lemma join_join_insert_Permutation {A} (rs : list (list (list A))) (r : nat)
    (row row' : list (list A)) (x : A) :
  rs !! r = Some row → mjoin row ≡ₚ x :: mjoin row' →
  mjoin (mjoin rs) ≡ₚ x :: mjoin (mjoin (<[r := row']> rs)).
Proof.
  revert r. induction rs as [|z rs IH]; intros [|r] Hr Hrow; simplify_eq/=.
  - by rewrite !join_app, Hrow.
  - rewrite !join_app, (IH r) by done. by rewrite Permutation_middle.
Qed.

(** Taking the last piece off the stack [p] names takes that piece, and
    nothing else, off the board. *)
Lemma all_pieces_set_stack (b : Board) (p : MovablePiece) (st : list Piece)
    (x : Piece) :
  stack_of b p = Some (st ++ [x]) →
  all_pieces b ≡ₚ x :: all_pieces (set_stack b p st).
Proof.
  unfold stack_of, set_stack, all_pieces, grid_pieces.
  destruct (row_ix p) as [r| | |]; simpl.
  - destruct (rows b !! r) as [row|] eqn:Hrow; [simpl|done].
    destruct (col_ix p) as [c|]; [simpl|done]. intros Hc.
    rewrite <-(insert_alter_lookup (λ row, <[c:=st]> row) _ _ _ Hrow).
    rewrite (join_join_insert_Permutation (rows b) r row (<[c:=st]> row) x);
      [done..|].
    apply (join_insert_Permutation row c (st ++ [x])); [done|].
    symmetry. apply Permutation_cons_append.
  - intros [= ->]. rewrite <-Permutation_cons_append. simpl.
    by rewrite <-!Permutation_middle.
  - intros [= ->]. rewrite <-Permutation_cons_append. simpl.
    by rewrite <-!Permutation_middle.
  - intros [= ->]. rewrite <-Permutation_cons_append. simpl.
    by rewrite <-!Permutation_middle.
Qed.

(** A move on an exposed pair does not raise, can be undone, and takes
    exactly its two pieces off the board. *)
Lemma do_move_Permutation (b : Board) (m : Move) :
  exposed_pair b m →
  ∃ b', do_move b m = Some b' ∧ undo_move b' m = Some b
        ∧ all_pieces b ≡ₚ piece m.1 :: piece m.2 :: all_pieces b'.
Proof.
  intros (sp & sq & Hp & Hq & Hne)%exposed_pair_stacks.
  destruct m as [p q]; simpl in *.
  exists (set_stack (set_stack b p sp) q sq). split_and!.
  - by apply do_move_set_stack.
  - by apply undo_move_set_stack.
  - rewrite (all_pieces_set_stack _ _ _ _ Hp).
    rewrite (all_pieces_set_stack (set_stack b p sp) q sq (piece q)); [done|].
    by rewrite stack_of_set_stack_ne.
Qed.

(** Every move [find_moves] offers on the movable pieces of a board is an
    exposed pair of that board, of one symbol. *)
Lemma find_moves_exposed (b : Board) (mps : list MovablePiece) (m : Move) :
  find_movable_pieces b = Some mps → m ∈ find_moves mps →
  exposed_pair b m ∧ piece m.1 = piece m.2.
Proof.
  intros Hmps Hm. destruct (find_movable_pieces_inv b) as (? & ? & Hnd & Hall).
  simplify_eq. destruct m as [p q]; simpl.
  apply elem_of_find_moves in Hm as [Hsym Hpq]. split; [|done].
  apply elem_of_pairs in Hpq as (i & j & Hij & Hi & Hj).
  rewrite Forall_forall in Hall.
  assert (describes b p) as Hp by eauto using list_elem_of_lookup_2.
  assert (describes b q) as Hq by eauto using list_elem_of_lookup_2.
  split_and!; simpl; [by apply describes_at_top..|].
  rewrite (describes_place b p), (describes_place b q) by done.
  intros Hcoord. assert (p = q) as -> by eauto using describes_inj.
  assert (i = j) by eauto using NoDup_lookup. lia.
Qed.

Lemma do_move_counts (b b' : Board) (m : Move) :
  exposed_pair b m → piece m.1 = piece m.2 → do_move b m = Some b' →
  total_pieces b' + 2 = total_pieces b
  ∧ ∀ sym, symbol_count sym b
           = symbol_count sym b' + (if decide (piece m.1 = sym) then 2 else 0).
Proof.
  intros Hm Hsym Hdo.
  destruct (do_move_Permutation b m Hm) as (? & ? & _ & Hperm). simplify_eq.
  unfold total_pieces, symbol_count. split.
  - rewrite Hperm. simpl. lia.
  - intros sym. rewrite Hperm, <-Hsym. case_decide.
    + rewrite !filter_cons_True by done. simpl. lia.
    + rewrite !filter_cons_False by done. lia.
Qed.

(** Every symbol occurs an even number of times on a reachable board. *)
Lemma reachable_symbol_count_even (b : Board) (sym : string) :
  reachable b → Nat.Even (symbol_count sym b).
Proof.
  induction 1 as [rand b Hfill|b mps m b' Hb IH Hmps Hm Hdo].
  - rewrite (symbol_count_fill _ _ _ Hfill).
    case_decide; [by exists 2|by exists 0].
  - destruct (find_moves_exposed b mps m Hmps Hm) as [Hexp Hsym].
    destruct (do_move_counts b b' m Hexp Hsym Hdo) as [_ Hcount].
    rewrite Hcount in IH. destruct IH as [k Hk].
    case_decide; [exists (k - 1)|exists k]; lia.
Qed.

(** C1. On every board reachable from a freshly filled one every symbol
    occurs an even number of times, [find_movable_pieces] does not raise,
    and for every move [m] that [find_moves] returns on its result [do_move]
    does not raise, takes exactly two pieces off the board (the total over
    the grid stacks and the three piles drops by 2), and leaves an even
    number of every symbol. *)
Theorem do_move_removes_matched_pair (b : Board) :
  reachable b →
  (∀ sym, Nat.Even (symbol_count sym b))
  ∧ ∃ mps, find_movable_pieces b = Some mps
           ∧ ∀ m, m ∈ find_moves mps →
               ∃ b', do_move b m = Some b'
                     ∧ total_pieces b' + 2 = total_pieces b
                     ∧ ∀ sym, Nat.Even (symbol_count sym b').
Proof.
  intros Hb. split; [intros sym; by apply reachable_symbol_count_even|].
  destruct (find_movable_pieces_inv b) as (mps & Hmps & _).
  exists mps. split; [done|]. intros m Hm.
  destruct (find_moves_exposed b mps m Hmps Hm) as [Hexp Hsym].
  destruct (do_move_Permutation b m Hexp) as (b' & Hdo & _).
  exists b'. split; [done|]. split.
  - by apply (do_move_counts b b' m).
  - intros sym. apply reachable_symbol_count_even.
    by eapply reachable_move.
Qed.

(** On the freshly filled [sample_board], for the move [sample_move]. *)
Lemma do_move_removes_matched_pair_witness :
  ∃ b', do_move sample_board sample_move = Some b'
        ∧ total_pieces b' + 2 = total_pieces sample_board
        ∧ ∀ sym, Nat.Even (symbol_count sym b').
Proof.
  destruct (do_move_removes_matched_pair sample_board
              (reachable_fill (λ _, 0) _ sample_board_filled))
    as (_ & mps & Hmps & Hmoves).
  apply Hmoves. vm_compute in Hmps. injection Hmps as <-.
  vm_compute. apply list_elem_of_here.
Defined.

(** ** The moves [find_moves] returns *)

Lemma find_movable_pieces_NoDup (b : Board) (mps : list MovablePiece) :
  find_movable_pieces b = Some mps → NoDup mps.
Proof.
  intros Hmps. destruct (find_movable_pieces_inv b) as (? & ? & Hnd & _).
  by simplify_eq.
Qed.

(** C7. For every list of movable pieces, that is, every list without
    repeated entries, as [find_movable_pieces] returns them
    ([find_movable_pieces_NoDup]): [find_moves] returns exactly the pairs
    of two entries of one symbol, the earlier entry first: each such pair
    once and in one order only, so that a symbol with [n] entries
    contributes [n * (n - 1) / 2] moves; and on a list of exactly two
    pieces of one symbol it returns that one pair. *)
Theorem find_moves_all_pairs (mps : list MovablePiece) :
  NoDup mps →
  (∀ p q, (p, q) ∈ find_moves mps
          ↔ piece p = piece q
            ∧ ∃ i j, i < j ∧ mps !! i = Some p ∧ mps !! j = Some q)
  ∧ NoDup (find_moves mps)
  ∧ (∀ p q, (p, q) ∈ find_moves mps → (q, p) ∉ find_moves mps)
  ∧ (∀ sym,
       length (filter (λ m, piece m.1 = sym) (find_moves mps))
       = length (filter (λ p, piece p = sym) mps)
         * (length (filter (λ p, piece p = sym) mps) - 1) / 2)
  ∧ (∀ p q, mps = [p; q] → piece p = piece q → find_moves mps = [(p, q)]).
Proof.
  intros Hnd. split_and!.
  - intros p q. by rewrite elem_of_find_moves, elem_of_pairs.
  - apply NoDup_find_moves.
  - intros p q [_ Hpq]%elem_of_find_moves [_ Hqp]%elem_of_find_moves.
    apply elem_of_pairs in Hpq as (i & j & Hij & Hi & Hj).
    apply elem_of_pairs in Hqp as (j' & i' & Hji & Hj' & Hi').
    assert (i = i') by eauto using NoDup_lookup.
    assert (j = j') by eauto using NoDup_lookup. lia.
  - intros sym. rewrite (find_moves_Permutation mps Hnd).
    apply same_symbol_pairs_count.
  - intros p q -> Hsym. apply Permutation_singleton_r.
    rewrite (find_moves_Permutation _ Hnd).
    change (pairs [p; q]) with [(p, q)]. by rewrite filter_cons_True.
Qed.

(** On the pile descriptors of [sample_board]: two of them, and all three. *)
Lemma find_moves_all_pairs_witness :
  find_moves [sample_left; sample_right] = [(sample_left, sample_right)]
  ∧ length (filter (λ m, piece m.1 = "0")
              (find_moves [sample_left; sample_right; sample_top])) = 3.
Proof.
  split.
  - assert (NoDup [sample_left; sample_right]) as Hnd.
    { apply NoDup_cons. split; [|apply NoDup_singleton].
      intros H%list_elem_of_singleton. discriminate H. }
    destruct (find_moves_all_pairs _ Hnd) as (_ & _ & _ & _ & Htwo).
    by apply Htwo.
  - assert (NoDup [sample_left; sample_right; sample_top]) as Hnd.
    { apply NoDup_cons. split.
      - intros [H|H%list_elem_of_singleton]%elem_of_cons; discriminate H.
      - apply NoDup_cons. split; [|apply NoDup_singleton].
        intros H%list_elem_of_singleton. discriminate H. }
    destruct (find_moves_all_pairs _ Hnd) as (_ & _ & _ & Hcount & _).
    apply (Hcount "0").
Defined.

(** No call of the program passes a list that names one descriptor more
    than once; on such a list the set of moves keeps equal pairs once. *)
Lemma find_moves_repeated_piece :
  length (filter (λ p, piece p = "0") [sample_top; sample_top; sample_top]) = 3
  ∧ find_moves [sample_top; sample_top; sample_top]
    = [(sample_top, sample_top)].
Proof. split; vm_compute; reflexivity. Qed.

(** ** Equality of movable pieces *)

Lemma MovablePiece_eqb_eq (p q : MovablePiece) :
  MovablePiece_eqb p q = true ↔ p = q.
Proof.
  unfold MovablePiece_eqb. rewrite !andb_true_iff, !bool_decide_eq_true.
  destruct p, q; simpl. split; [intros [[[-> ->] ->] ->]|intros [= -> -> -> ->]];
    done.
Qed.

(** C5, as the code has it. Two [MovablePiece] values are equal exactly
    when all four fields agree: the coordinate, the piece symbol and the
    depth. Equal values therefore have equal coordinates; and for two values
    that [find_movable_pieces] returns on one board, equality is equality of
    the coordinates. *)
Theorem MovablePiece_eqb_fields (p q : MovablePiece) :
  (MovablePiece_eqb p q = true
   ↔ coord p = coord q ∧ piece p = piece q ∧ depth p = depth q)
  ∧ (MovablePiece_eqb p q = true → coord p = coord q)
  ∧ (∀ b mps, find_movable_pieces b = Some mps → p ∈ mps → q ∈ mps →
       (MovablePiece_eqb p q = true ↔ coord p = coord q)).
Proof.
  split_and!.
  - rewrite MovablePiece_eqb_eq. unfold coord. destruct p, q; simpl.
    split; [by intros [= -> -> -> ->]|by intros ([= -> ->] & -> & ->)].
  - by intros ->%MovablePiece_eqb_eq.
  - intros b mps Hmps Hp Hq. rewrite MovablePiece_eqb_eq.
    split; [by intros ->|]. intros Hcoord.
    destruct (find_movable_pieces_inv b) as (mps' & Hmps' & _ & Hall).
    rewrite Hmps in Hmps'. injection Hmps' as <-.
    rewrite Forall_forall in Hall. eapply describes_inj; eauto.
Qed.

(** C5, as stated, fails: two values with one coordinate and different
    piece symbols are not equal. *)
Lemma MovablePiece_same_coord_not_equal :
  coord sample_cell_A = coord sample_cell_B
  ∧ MovablePiece_eqb sample_cell_A sample_cell_B = false
  ∧ sample_cell_A ≠ sample_cell_B.
Proof. split_and!; done. Qed.

(** ** The canonical state *)

Lemma string_app_cons (a : ascii) (s t : string) :
  String a s +:+ t = String a (s +:+ t).
Proof. done. Qed.

Lemma string_app_assoc (s t u : string) : (s +:+ t) +:+ u = s +:+ t +:+ u.
Proof.
  induction s as [|a s IH]; [done|]. by rewrite !string_app_cons, IH.
Qed.

Lemma app_sep_inj (c : ascii) (s1 s2 x1 x2 : string) :
  avoids c s1 → avoids c s2 →
  s1 +:+ String c x1 = s2 +:+ String c x2 → s1 = s2 ∧ x1 = x2.
Proof.
  revert s2. induction s1 as [|a s1 IH]; intros [|a' s2]; simpl.
  - intros _ _ [= ->]. done.
  - intros _ [Ha _]. rewrite string_app_cons. intros [= -> _]. done.
  - intros [Ha _] _. rewrite string_app_cons. intros [= -> _]. done.
  - intros [_ H1] [_ H2]. rewrite !string_app_cons. intros [= -> Heq].
    destruct (IH s2 H1 H2 Heq) as [-> ->]. done.
Qed.

Lemma str_avoids_bar (n : nat) : avoids "|" (str n).
Proof.
  unfold str. induction (Nat.to_uint n) as [|u IH|u IH|u IH|u IH|u IH|u IH
    |u IH|u IH|u IH|u IH]; simpl; done.
Qed.

Global Instance str_inj : Inj (=) (=) str.
Proof.
  intros n m Heq. apply Unsigned.to_uint_inj.
  assert (Some (Nat.to_uint n) = Some (Nat.to_uint m)) as [= ->]; [|done].
  rewrite <-!NilEmpty.usu. unfold str in Heq. by rewrite Heq.
Qed.

Lemma join_str_cons (d : nat) (ds : list nat) (tail : string) :
  join "|" (str <$> d :: ds) +:+ "|" +:+ tail
  = str d +:+ "|" +:+ match ds with
                      | [] => tail
                      | _ => join "|" (str <$> ds) +:+ "|" +:+ tail
                      end.
Proof.
  destruct ds as [|d' ds]; [done|].
  rewrite !fmap_cons. cbn [join]. by rewrite !string_app_assoc.
Qed.

(** The string of the grid part determines the depths it lists. *)
Lemma join_str_inj (ds1 ds2 : list nat) (tail1 tail2 : string) :
  length ds1 = length ds2 →
  join "|" (str <$> ds1) +:+ "|" +:+ tail1
  = join "|" (str <$> ds2) +:+ "|" +:+ tail2 →
  ds1 = ds2.
Proof.
  revert ds2. induction ds1 as [|d1 ds1 IH]; intros [|d2 ds2] Hlen Heq;
    try done.
  rewrite !join_str_cons in Heq. injection Hlen as Hlen.
  apply app_sep_inj in Heq as [Hd Hrest]; [|apply str_avoids_bar..].
  apply (inj str) in Hd as ->. f_equal.
  destruct ds1 as [|d1' ds1], ds2 as [|d2' ds2]; try done.
  by apply IH.
Qed.

Lemma join_same_lengths_inj {A} (ls1 ls2 : list (list A)) :
  length <$> ls1 = length <$> ls2 → mjoin ls1 = mjoin ls2 → ls1 = ls2.
Proof.
  revert ls2. induction ls1 as [|l1 ls1 IH]; intros [|l2 ls2] Hlen Heq;
    simplify_eq/=; [done|].
  apply app_inj_1 in Heq as [-> Heq]; [|done]. f_equal. by apply IH.
Qed.

(** The list [get_state] joins: the decimal depth of every stack. *)
Lemma state_string_depths (b : Board) :
  state_string b
  = join "|" (str <$> mjoin (depths b))
    +:+ "|"
    +:+ join "|" [str (length (top b)); str (length (left_blocks b));
                  str (length (right_blocks b))].
Proof.
  unfold state_string, depths. f_equal. f_equal.
  induction (rows b) as [|row rs IH]; [done|].
  rewrite bind_cons, fmap_cons, IH.
  change (mjoin ((length <$> row) :: ?l)) with ((length <$> row) ++ mjoin l).
  rewrite fmap_app. f_equal.
  rewrite (bind_singleton_fmap (λ stack : list string, str (length stack))).
  by rewrite <-list_fmap_compose.
Qed.

Lemma depths_layout (b : Board) : length <$> depths b = layout b.
Proof.
  unfold depths, layout. rewrite <-list_fmap_compose.
  apply list_fmap_ext. intros _ row _. simpl. apply length_fmap.
Qed.

Lemma stack_depth_depths (b : Board) (r c : nat) :
  stack_depth b r c = depths b !! r ≫= (.!! c).
Proof.
  unfold stack_depth, depths. rewrite list_lookup_fmap.
  destruct (rows b !! r) as [row|]; [simpl|done].
  rewrite list_lookup_fmap. by destruct (row !! c).
Qed.

(** *** The fingerprint and the shape *)

Lemma string_app_inv_l (s x y : string) : s +:+ x = s +:+ y → x = y.
Proof.
  induction s as [|a s IH]; [done|].
  rewrite !string_app_cons. intros [= ?]. by apply IH.
Qed.

(** The hashed string determines the shape, given the layout. *)
Lemma state_string_shape (b1 b2 : Board) :
  layout b1 = layout b2 → state_string b1 = state_string b2 →
  shape b1 = shape b2.
Proof.
  intros Hlayout Heq. rewrite !state_string_depths in Heq.
  assert (mjoin (depths b1) = mjoin (depths b2)) as Hflat.
  { apply join_str_inj in Heq; [done|].
    assert (length <$> depths b1 = length <$> depths b2) as Hlen
      by (by rewrite !depths_layout).
    rewrite !length_join. by rewrite Hlen. }
  rewrite Hflat in Heq. apply string_app_inv_l in Heq.
  cbn [join] in Heq. injection Heq as Heq.
  apply app_sep_inj in Heq as [Ht Heq]; [|apply str_avoids_bar..].
  apply app_sep_inj in Heq as [Hl Hr]; [|apply str_avoids_bar..].
  apply (inj str) in Ht, Hl, Hr.
  assert (depths b1 = depths b2) as Hdepths.
  { apply join_same_lengths_inj; [|done]. by rewrite !depths_layout. }
  unfold shape. by rewrite Hdepths, Ht, Hl, Hr.
Qed.



(** ** Rendering the board, and [print_stats] *)

Lemma Board_str_is_Some (b : Board) :
  8 ≤ length (rows b) → is_Some (Board_str b).
Proof.
  intros Hlen. unfold Board_str.
  assert (∀ i, i < 8 → is_Some ((row_to_str <$> rows b) !! i)) as Hrow.
  { intros i Hi. apply lookup_lt_is_Some_2. rewrite length_fmap. lia. }
  destruct (Hrow 0) as [r0 ->]; [lia|]. destruct (Hrow 1) as [r1 ->]; [lia|].
  destruct (Hrow 2) as [r2 ->]; [lia|]. destruct (Hrow 3) as [r3 ->]; [lia|].
  destruct (Hrow 4) as [r4 ->]; [lia|]. destruct (Hrow 5) as [r5 ->]; [lia|].
  destruct (Hrow 6) as [r6 ->]; [lia|]. destruct (Hrow 7) as [r7 ->]; [lia|].
  by eexists.
Qed.

Lemma Board_str_None (b : Board) :
  length (rows b) < 8 → Board_str b = None.
Proof.
  intros Hlen. unfold Board_str.
  assert (∀ i, 7 ≤ i → (row_to_str <$> rows b) !! i = None) as Hrow.
  { intros i Hi. apply lookup_ge_None. rewrite length_fmap. lia. }
  rewrite (Hrow 7) by done.
  by repeat (destruct (_ !! _); simpl; try done).
Qed.

Lemma progress_Some (trail : list (nat * nat)) :
  progress trail = Some () ↔ Forall (λ t, t.2 ≠ 0) trail.
Proof.
  unfold progress. rewrite Forall_forall.
  destruct (forallb _ trail) eqn:Hall.
  - split; [intros _|done]. rewrite forallb_forall in Hall.
    intros t Ht%list_elem_of_In%Hall. by apply negb_true_iff, Nat.eqb_neq in Ht.
  - split; [done|]. intros Hok. apply not_true_iff_false in Hall.
    destruct Hall. apply forallb_forall. intros t Ht%list_elem_of_In%Hok.
    by apply negb_true_iff, Nat.eqb_neq.
Qed.

(** [print_stats] counts the call and changes nothing else, or raises;
    it raises only on a board of fewer than eight rows or with a zero
    denominator on the trail. *)
Lemma print_stats_outcome (s : BoardSearcher) :
  match print_stats s with
  | Returned s' =>
      s' = mkSearcher (board s) (moves s) (trail s) (solutions s)
                      (seen_states s) (stats_calls s + 1) (history s)
  | Raised => ¬ can_report s
  | OutOfFuel => False
  end.
Proof.
  unfold print_stats, can_report.
  destruct (progress (trail s)) as [[]|] eqn:Hprogress.
  - case_decide; simpl; [|done].
    destruct (Board_str (board s)) as [str|] eqn:Hstr; simpl; [done|].
    intros [[? Hsome]%Board_str_is_Some _]. congruence.
  - assert (¬ Forall (λ t : nat * nat, t.2 ≠ 0) (trail s)) as Hzero.
    { intros Hok%progress_Some. congruence. }
    case_decide; simpl; [|by intros [_ ?]].
    destruct (Board_str (board s)); simpl; by intros [_ ?].
Qed.

(** ** [backtracking_search] *)

Lemma search_inv_refl (s : BoardSearcher) : search_inv s s.
Proof.
  split_and!; try done. exists []. split; [by rewrite app_nil_r|constructor].
Qed.

Lemma search_inv_can_report (s s' : BoardSearcher) :
  search_inv s s' → can_report s' ↔ can_report s.
Proof. intros (Hboard & _ & Htrail & _). unfold can_report. by rewrite Hboard, Htrail. Qed.

Lemma remove_piece_rows_length (b b' : Board) (p : MovablePiece) :
  remove_piece b p = Some b' → length (rows b') = length (rows b).
Proof.
  unfold remove_piece. destruct (row_ix p) as [r| | |].
  - destruct (rows b !! r) as [row|]; [simpl|done].
    destruct (col_ix p) as [c|]; [simpl|done].
    destruct (row !! c) as [stack|]; [simpl|done].
    destruct (pop stack) as [[stack' x]|]; [simpl|done].
    intros [= <-]; simpl. apply length_insert.
  - destruct (pop (top b)) as [[l x]|]; [simpl|done]. by intros [= <-].
  - destruct (pop (left_blocks b)) as [[l x]|]; [simpl|done]. by intros [= <-].
  - destruct (pop (right_blocks b)) as [[l x]|]; [simpl|done]. by intros [= <-].
Qed.

Lemma do_move_rows_length (b b' : Board) (m : Move) :
  do_move b m = Some b' → length (rows b') = length (rows b).
Proof.
  unfold do_move.
  destruct (remove_piece b m.1) as [b1|] eqn:H1; [simpl|done]. intros H2.
  apply remove_piece_rows_length in H1, H2. congruence.
Qed.

(** An outcome that is not a return ends the loop. *)
Lemma foldl_outcome_stuck {A B} (f : A → B → outcome A) (l : list B)
    (o : outcome A) :
  (∀ a, o ≠ Returned a) → foldl (λ acc x, s ← acc; f s x) o l = o.
Proof.
  intros Ho. induction l as [|x l IH]; [done|]. simpl.
  destruct o as [a| |]; [by destruct (Ho a)|done..].
Qed.

(** A loop over the outcome monad: when every iteration returns keeping
    [P], raises only if [D] and runs out of fuel only if [C], so does the
    loop. *)
Lemma foldl_outcome_invariant {A B} (P : A → Prop) (C D : Prop)
    (f : A → B → outcome A) (l : list B) (a : A) :
  P a →
  (∀ a x, x ∈ l → P a →
     match f a x with
     | Returned a' => P a'
     | Raised => D
     | OutOfFuel => C
     end) →
  match foldl (λ acc x, s ← acc; f s x) (Returned a) l with
  | Returned a' => P a'
  | Raised => D
  | OutOfFuel => C
  end.
Proof.
  revert a. induction l as [|x l IH]; intros a Ha Hf; simpl; [done|].
  pose proof (Hf a x (list_elem_of_here _ _) Ha) as Hx.
  destruct (f a x) as [a'| |].
  - apply IH; [done|]. intros a0 y Hy. apply Hf. by right.
  - by rewrite foldl_outcome_stuck.
  - by rewrite foldl_outcome_stuck.
Qed.

(** One iteration of the loop over the moves, given what the recursive call
    does with [fuel]. *)
Lemma visit_outcome (search : BoardSearcher → outcome BoardSearcher)
    (fuel n ix : nat) (s0 s : BoardSearcher) (move : Move) :
  (∀ s1, match search s1 with
         | Returned s2 => search_inv s1 s2
         | Raised => ¬ can_report s1
         | OutOfFuel => 2 * fuel ≤ total_pieces (board s1)
         end) →
  n ≠ 0 →
  exposed_pair (board s) move → piece move.1 = piece move.2 →
  search_inv s0 s →
  match visit search n s ix move with
  | Returned s' => search_inv s0 s'
  | Raised => ¬ can_report s
  | OutOfFuel => 2 * S fuel ≤ total_pieces (board s)
  end.
Proof.
  intros Hsearch Hn Hexp Hsym (Hboard & Hmoves & Htrail & h & Hh & Hpaired).
  destruct (do_move_Permutation (board s) move Hexp)
    as (b1 & Hdo & Hundo & _).
  destruct (do_move_counts (board s) b1 move Hexp Hsym Hdo) as [Htotal _].
  unfold visit. rewrite Hdo. simpl.
  match goal with
  | |- context [search ?s1] =>
      pose proof (Hsearch s1) as H1; destruct (search s1) as [s2| |]
  end; simpl.
  - destruct H1 as (Hb2 & Hm2 & Ht2 & h2 & Hh2 & Hp2).
    simpl in Hb2, Hm2, Ht2, Hh2.
    rewrite Hb2, Hundo, Hm2, Ht2. simpl. rewrite !pop_snoc. simpl.
    split_and!; simpl; try done.
    exists (h ++ Do move :: h2 ++ [Undo move]). split.
    + rewrite Hh2, Hh. by rewrite <-!(assoc (++)).
    + apply paired_app; [done|]. by apply paired_wrap.
  - intros [Hrows Hok]. apply H1. split; simpl.
    + by rewrite (do_move_rows_length _ _ _ Hdo).
    + apply Forall_app. split; [done|]. by apply Forall_singleton.
  - simpl in H1. lia.
Qed.

(** [backtracking_search] with [fuel]: when it returns, board, path and
    trail are as it found them and the history it added is paired; it runs
    out of fuel only when the fuel is at most half the pieces on the board;
    and it raises only where [print_stats] does. *)
Lemma backtracking_search_outcome (fuel : nat) (s : BoardSearcher) :
  match backtracking_search fuel s with
  | Returned s' => search_inv s s'
  | Raised => ¬ can_report s
  | OutOfFuel => 2 * fuel ≤ total_pieces (board s)
  end.
Proof.
  revert s. induction fuel as [|fuel IH]; intros s; [simpl; lia|].
  cbn [backtracking_search].
  destruct (is_empty (board s)).
  { match goal with
    | |- context [print_stats ?s1] =>
        pose proof (print_stats_outcome s1) as H1;
        destruct (print_stats s1) as [s2| |]
    end; [|done..].
    subst s2. simpl. split_and!; try done.
    exists []. split; [by rewrite app_nil_r|constructor]. }
  destruct (decide (get_state (board s) ∈ seen_states s)).
  { apply search_inv_refl. }
  cbn [board].
  destruct (find_movable_pieces_inv (board s)) as (mps & Hmps & _).
  rewrite Hmps. cbn [lift mbind outcome_bind].
  destruct (decide (find_moves mps = [])) as [Hnil|Hne].
  { match goal with
    | |- context [print_stats ?s1] =>
        pose proof (print_stats_outcome s1) as H1;
        destruct (print_stats s1) as [s2| |]
    end; [|done..].
    subst s2. simpl. split_and!; try done.
    exists []. split; [by rewrite app_nil_r|constructor]. }
  match goal with
  | |- context [foldl _ (Returned ?s1) _] => set (s0 := s1)
  end.
  assert (search_inv s s0) as Hs0.
  { split_and!; try done. exists []. split; [by rewrite app_nil_r|constructor]. }
  pose proof (foldl_outcome_invariant (search_inv s)
           (2 * S fuel ≤ total_pieces (board s)) (¬ can_report s)
           (λ s1 im, visit (backtracking_search fuel)
                       (length (find_moves mps)) s1 im.1 im.2)
           (zip (seq 0 (length (find_moves mps))) (find_moves mps)) s0 Hs0)
    as Hfold.
  apply Hfold. clear Hfold.
  intros s1 [ix move] Hin%elem_of_zip_r Hs1. simpl.
  destruct (find_moves_exposed (board s) mps move Hmps Hin) as [Hexp Hsym].
  assert (board s1 = board s) as Hboard by apply Hs1.
  rewrite <-Hboard in Hexp.
  pose proof (visit_outcome (backtracking_search fuel) fuel
                (length (find_moves mps)) ix s s1 move IH) as Hvisit.
  destruct (visit _ _ s1 ix move) as [s2| |].
  - apply Hvisit; [by destruct (find_moves mps)|done..].
  - rewrite <-(search_inv_can_report s s1 Hs1).
    apply Hvisit; [by destruct (find_moves mps)|done..].
  - rewrite <-Hboard. apply Hvisit; [by destruct (find_moves mps)|done..].
Qed.

(** C9. [backtracking_search] terminates on every board: with a recursion
    budget above half the number of pieces the budget is never used up, so
    every call ends, by returning or, where [print_stats] raises, by that
    exception; every move the search applies takes two pieces off the
    board, and the search has no depth limit of its own. On a board the
    program builds (eight rows or more for [__str__], no zero denominator
    on the trail, at most the 144 pieces of the game, which keeps the 73
    nested calls within the interpreter's recursion limit) the call
    returns. *)
Theorem backtracking_search_terminates (s : BoardSearcher) (fuel : nat) :
  total_pieces (board s) < 2 * fuel →
  backtracking_search fuel s ≠ OutOfFuel
  ∧ (8 ≤ length (rows (board s)) → Forall (λ t, t.2 ≠ 0) (trail s) →
     total_pieces (board s) ≤ 144 →
     ∃ s', backtracking_search fuel s = Returned s')
  ∧ (∀ mps m, find_movable_pieces (board s) = Some mps → m ∈ find_moves mps →
       ∃ b', do_move (board s) m = Some b'
             ∧ total_pieces b' + 2 = total_pieces (board s)).
Proof.
  intros Hfuel. pose proof (backtracking_search_outcome fuel s) as Hout.
  split_and!.
  - intros Heq. rewrite Heq in Hout. lia.
  - intros Hrows Htrail _.
    destruct (backtracking_search fuel s) as [s'| |]; [by exists s'| |lia].
    by destruct Hout.
  - intros mps m Hmps Hm.
    destruct (find_moves_exposed _ mps m Hmps Hm) as [Hexp Hsym].
    destruct (do_move_Permutation _ m Hexp) as (b' & Hdo & _).
    exists b'. split; [done|]. by apply (do_move_counts _ b' m).
Qed.

(** On the eight-row board with one pair, and on the full [sample_board]. *)
Lemma backtracking_search_terminates_witness :
  (∃ s', backtracking_search 2 (new_searcher pair_board) = Returned s')
  ∧ ∃ s', backtracking_search 73 (new_searcher sample_board) = Returned s'.
Proof.
  split.
  - destruct (backtracking_search_terminates (new_searcher pair_board) 2)
      as (_ & Hret & _); [vm_compute; lia|].
    apply Hret; [vm_compute; lia|constructor|vm_compute; lia].
  - destruct (backtracking_search_terminates (new_searcher sample_board) 73)
      as (_ & Hret & _); [vm_compute; lia|].
    apply Hret; [vm_compute; lia|constructor|vm_compute; lia].
Defined.

(** C10. Whenever [backtracking_search] returns, the searcher's board is
    the board the call began with, stack by stack and pile by pile, and the
    [do_move] and [undo_move] calls it made are paired: every [do_move] is
    followed by the [undo_move] of the same move, the calls in between
    being paired in the same way. And it does return, with a recursion
    budget above half the number of pieces, on a board the program builds
    (eight rows or more, no zero denominator on the trail, at most 144
    pieces). *)
Theorem backtracking_search_restores_board (fuel : nat) (s : BoardSearcher) :
  (∀ s', backtracking_search fuel s = Returned s' →
     board s' = board s ∧ ∃ h, history s' = history s ++ h ∧ paired h)
  ∧ (total_pieces (board s) < 2 * fuel →
     8 ≤ length (rows (board s)) → Forall (λ t, t.2 ≠ 0) (trail s) →
     total_pieces (board s) ≤ 144 →
     ∃ s', backtracking_search fuel s = Returned s').
Proof.
  pose proof (backtracking_search_outcome fuel s) as Hout. split.
  - intros s' Hret. rewrite Hret in Hout.
    destruct Hout as (Hboard & _ & _ & Hh). done.
  - intros Hfuel Hrows Htrail _.
    destruct (backtracking_search fuel s) as [s'| |]; [by exists s'| |lia].
    by destruct Hout.
Qed.

(** On the eight-row board with one pair: one move is made and undone. *)
Lemma backtracking_search_restores_board_witness :
  ∃ s', backtracking_search 2 (new_searcher pair_board) = Returned s'
        ∧ board s' = pair_board
        ∧ history s' = [Do pair_move; Undo pair_move].
Proof.
  destruct (backtracking_search_restores_board 2 (new_searcher pair_board))
    as [Hrestore Hreturn].
  destruct Hreturn as [s' Hs'];
    [vm_compute; lia|vm_compute; lia|constructor|vm_compute; lia|].
  exists s'. split; [done|].
  destruct (Hrestore s' Hs') as [Hboard _]. split; [exact Hboard|].
  vm_compute in Hs'. injection Hs' as <-. reflexivity.
Defined.

(** * Further properties of the code *)

(** ** [is_empty] and [is_movable] *)

Lemma forallb_join_nil {A} (ls : list (list A)) :
  forallb (λ l : list A, bool_decide (l = [])) ls = true ↔ mjoin ls = [].
Proof.
  induction ls as [|l ls IH]; [done|].
  cbn [forallb]. change (mjoin (l :: ls)) with (l ++ mjoin ls).
  rewrite andb_true_iff, bool_decide_eq_true, IH. split.
  - by intros [-> ->].
  - by intros [-> ->]%app_eq_nil.
Qed.

Lemma forallb_join_join_nil {A} (rs : list (list (list A))) :
  forallb (forallb (λ l : list A, bool_decide (l = []))) rs = true
  ↔ mjoin (mjoin rs) = [].
Proof.
  induction rs as [|r rs IH]; [done|].
  cbn [forallb]. change (mjoin (r :: rs)) with (r ++ mjoin rs).
  rewrite join_app, andb_true_iff, forallb_join_nil, IH. split.
  - by intros [-> ->].
  - by intros [-> ->]%app_eq_nil.
Qed.

Lemma is_empty_total_pieces (b : Board) :
  is_empty b = true ↔ total_pieces b = 0.
Proof.
  unfold total_pieces, all_pieces, grid_pieces, is_empty.
  rewrite length_zero_iff_nil.
  destruct (top b) as [|x t]; [|split; [done|by intros [_ ?]%app_eq_nil]].
  destruct (left_blocks b) as [|y l];
    [|split; [done|by intros [_ ?]%app_eq_nil]].
  destruct (right_blocks b) as [|z r];
    [|split; [done|by intros [_ ?]%app_eq_nil]].
  rewrite !bool_decide_eq_false_2 by (by intros ?).
  rewrite forallb_join_join_nil, !app_nil_r. done.
Qed.

(** X1. [is_empty] is [True] exactly when no piece is left on the board,
    none on any grid stack and none on the three piles, and [False]
    exactly when at least one piece is left. *)
Theorem is_empty_no_pieces (b : Board) :
  (is_empty b = true ↔ total_pieces b = 0)
  ∧ (is_empty b = false ↔ 0 < total_pieces b).
Proof.
  pose proof (is_empty_total_pieces b) as H.
  split; [done|]. destruct (is_empty b).
  - split; [done|]. intros ?. assert (total_pieces b = 0) by by apply H. lia.
  - split; [|done]. intros _.
    destruct (total_pieces b) as [|n] eqn:Hn; [|lia].
    assert (false = true) by (by apply H). done.
Qed.

(** X2. [is_movable] raises exactly when the cell does not exist; on an
    empty stack it answers [False]; and the scan direction matters only
    for a stack of one piece in row 3 or row 4. *)
Theorem is_movable_edge_cases (b : Board) (r c : nat) :
  (∀ ltr, is_movable b r c ltr = None ↔ stack_depth b r c = None)
  ∧ (∀ ltr, stack_depth b r c = Some 0 → is_movable b r c ltr = Some false)
  ∧ (is_movable b r c true ≠ is_movable b r c false →
     stack_depth b r c = Some 1 ∧ 3 ≤ r ≤ 4).
Proof.
  unfold is_movable, stack_depth.
  destruct (rows b !! r) as [row|]; simpl; [|by split_and!].
  destruct (row !! c) as [stack|]; simpl; [|by split_and!].
  split_and!.
  - intros ltr. split; [|done].
    repeat case_bool_decide; destruct ltr; done.
  - intros ltr [= Hlen]. apply length_zero_iff_nil in Hlen as ->. done.
  - repeat case_bool_decide; try done; intros _; (split; [congruence|done]).
Qed.

(** ** [remove_piece] and [replace_piece] *)

Lemma place_eq_stack_of (b : Board) (p q : MovablePiece) :
  place p = place q → stack_of b p = stack_of b q.
Proof.
  unfold place, stack_of.
  destruct (row_ix p) as [r| | |], (row_ix q) as [r'| | |]; try done.
  by intros [= -> ->].
Qed.

Lemma place_eq_set_stack (b : Board) (p q : MovablePiece) (st : list Piece) :
  place p = place q → set_stack b p st = set_stack b q st.
Proof.
  unfold place, set_stack.
  destruct (row_ix p) as [r| | |], (row_ix q) as [r'| | |]; try done.
  by intros [= -> ->].
Qed.

Lemma remove_piece_empty (b : Board) (p : MovablePiece) :
  stack_of b p = Some [] → remove_piece b p = None.
Proof.
  unfold stack_of, remove_piece.
  destruct (row_ix p) as [r| | |]; [|by intros [= ->]..].
  destruct (rows b !! r) as [row|]; [simpl|done].
  destruct (col_ix p) as [c|]; [simpl|done]. by intros ->.
Qed.

Lemma remove_piece_no_stack (b : Board) (p : MovablePiece) :
  stack_of b p = None → remove_piece b p = None.
Proof.
  unfold stack_of, remove_piece.
  destruct (row_ix p) as [r| | |]; [|done..].
  destruct (rows b !! r) as [row|]; [simpl|done].
  destruct (col_ix p) as [c|]; [simpl|done]. by intros ->.
Qed.

Lemma replace_piece_no_stack (b : Board) (p : MovablePiece) :
  stack_of b p = None → replace_piece b p = None.
Proof.
  unfold stack_of, replace_piece.
  destruct (row_ix p) as [r| | |]; [|done..].
  destruct (rows b !! r) as [row|]; [simpl|done].
  destruct (col_ix p) as [c|]; [simpl|done]. by intros ->.
Qed.

Lemma remove_piece_Some (b b' : Board) (p : MovablePiece) :
  remove_piece b p = Some b' ↔
  ∃ st x, stack_of b p = Some (st ++ [x]) ∧ b' = set_stack b p st.
Proof.
  split.
  - destruct (stack_of b p) as [stack|] eqn:Hst.
    + destruct stack as [|x st _] using rev_ind.
      * by rewrite remove_piece_empty.
      * rewrite (remove_piece_set_stack _ _ _ _ Hst). intros [= <-]. eauto.
    + by rewrite remove_piece_no_stack.
  - intros (st & x & Hst & ->). by eapply remove_piece_set_stack.
Qed.

Lemma replace_piece_Some (b b' : Board) (p : MovablePiece) :
  replace_piece b p = Some b' ↔
  ∃ st, stack_of b p = Some st ∧ b' = set_stack b p (st ++ [piece p]).
Proof.
  split.
  - destruct (stack_of b p) as [st|] eqn:Hst.
    + rewrite (replace_piece_set_stack _ _ _ Hst). intros [= <-]. eauto.
    + by rewrite replace_piece_no_stack.
  - intros (st & Hst & ->). by apply replace_piece_set_stack.
Qed.

(** X3. [remove_piece] raises exactly when the place it is given does not
    exist or its stack is empty; [replace_piece] raises exactly when the
    place does not exist, which for the three piles never happens. *)
Theorem remove_replace_piece_raise (b : Board) (p : MovablePiece) :
  (remove_piece b p = None
   ↔ stack_of b p = None ∨ stack_of b p = Some [])
  ∧ (replace_piece b p = None ↔ stack_of b p = None)
  ∧ (row_ix p ∈ [TOP; LEFT; RIGHT] → is_Some (replace_piece b p)).
Proof.
  split_and!.
  - split.
    + intros Hrem. destruct (stack_of b p) as [stack|] eqn:Hst; [right|by left].
      destruct stack as [|x st _] using rev_ind; [done|].
      by rewrite (remove_piece_set_stack _ _ _ _ Hst) in Hrem.
    + intros [Hst|Hst];
        [by apply remove_piece_no_stack|by apply remove_piece_empty].
  - split; [|apply replace_piece_no_stack].
    intros Hrep. destruct (stack_of b p) as [st|] eqn:Hst; [|done].
    by rewrite (replace_piece_set_stack _ _ _ Hst) in Hrep.
  - unfold replace_piece. intros Hrow.
    destruct (row_ix p) as [r| | |]; [|by eauto..].
    apply elem_of_cons in Hrow as [?|Hrow]; [done|].
    apply elem_of_cons in Hrow as [?|Hrow]; [done|].
    by apply list_elem_of_singleton in Hrow.
Qed.

(** X4. Taking back what was just put: when [replace_piece] succeeds,
    [remove_piece] on the same descriptor gives the board back; and when
    [undo_move] succeeds, [do_move] of the same move gives the board back,
    for every pair of descriptors, also one that names a stack twice. *)
Theorem do_move_undo_move (b b' : Board) :
  (∀ p, replace_piece b p = Some b' → remove_piece b' p = Some b)
  ∧ (∀ m, undo_move b m = Some b' → do_move b' m = Some b).
Proof.
  assert (∀ b b' p, replace_piece b p = Some b' → remove_piece b' p = Some b)
    as Hone.
  { clear. intros b b' p (st & Hst & ->)%replace_piece_Some.
    erewrite remove_piece_set_stack by (by eapply stack_of_set_stack_eq).
    by rewrite set_stack_set_stack, set_stack_id. }
  split; [apply Hone|]. intros [p q]. unfold undo_move, do_move; simpl.
  destruct (replace_piece b p) as [b1|] eqn:Hp; [simpl|done]. intros Hq.
  destruct (decide (place p = place q)) as [Heq|Hne].
  - apply replace_piece_Some in Hp as (st & Hst & ->).
    apply replace_piece_Some in Hq as (st' & Hst' & ->).
    rewrite <-(place_eq_stack_of _ p q Heq) in Hst'.
    rewrite (stack_of_set_stack_eq _ _ _ _ Hst) in Hst'. injection Hst' as <-.
    rewrite <-(place_eq_set_stack _ p q) by done.
    rewrite set_stack_set_stack.
    erewrite (remove_piece_set_stack _ p (st ++ [piece p]) (piece q))
      by (by eapply stack_of_set_stack_eq).
    simpl. rewrite set_stack_set_stack.
    erewrite (remove_piece_set_stack _ q st (piece p)); last first.
    { rewrite <-(place_eq_stack_of _ p q Heq).
      by eapply stack_of_set_stack_eq. }
    rewrite <-(place_eq_set_stack _ p q) by done.
    by rewrite set_stack_set_stack, set_stack_id.
  - apply replace_piece_Some in Hp as (st & Hst & ->).
    apply replace_piece_Some in Hq as (st' & Hst' & ->).
    rewrite stack_of_set_stack_ne in Hst' by done.
    erewrite (remove_piece_set_stack _ p st (piece p)); last first.
    { rewrite stack_of_set_stack_ne by done.
      by eapply stack_of_set_stack_eq. }
    simpl. rewrite (set_stack_comm _ q p) by done.
    rewrite set_stack_set_stack, (set_stack_id _ p) by done.
    erewrite (remove_piece_set_stack _ q st' (piece q))
      by (by eapply stack_of_set_stack_eq).
    by rewrite set_stack_set_stack, set_stack_id.
Qed.

Lemma layout_set_stack (b : Board) (p : MovablePiece) (st : list Piece) :
  layout (set_stack b p st) = layout b.
Proof.
  unfold layout, set_stack.
  destruct (row_ix p) as [r| | |]; try done.
  destruct (col_ix p) as [c|]; [simpl|done].
  apply list_eq. intros i. rewrite !list_lookup_fmap.
  destruct (decide (r = i)) as [->|Hne].
  - rewrite list_lookup_alter_eq. destruct (rows b !! i); [simpl|done].
    by rewrite length_insert.
  - by rewrite list_lookup_alter_ne.
Qed.

Lemma total_pieces_set_stack (b : Board) (p : MovablePiece)
    (st : list Piece) (x : Piece) :
  stack_of b p = Some (st ++ [x]) →
  total_pieces b = S (total_pieces (set_stack b p st)).
Proof.
  intros Hst. unfold total_pieces.
  by rewrite (all_pieces_set_stack _ _ _ _ Hst).
Qed.

Lemma remove_piece_frame (b b' : Board) (p : MovablePiece) :
  remove_piece b p = Some b' →
  layout b' = layout b ∧ total_pieces b = S (total_pieces b').
Proof.
  intros (st & x & Hst & ->)%remove_piece_Some. split.
  - apply layout_set_stack.
  - by eapply total_pieces_set_stack.
Qed.

Lemma replace_piece_frame (b b' : Board) (p : MovablePiece) :
  replace_piece b p = Some b' →
  layout b' = layout b ∧ total_pieces b' = S (total_pieces b).
Proof.
  intros Hrep. split.
  - apply replace_piece_Some in Hrep as (st & _ & ->).
    apply layout_set_stack.
  - assert (remove_piece b' p = Some b) as Hrem.
    { apply replace_piece_Some in Hrep as (st & Hst & ->).
      erewrite remove_piece_set_stack by (by eapply stack_of_set_stack_eq).
      by rewrite set_stack_set_stack, set_stack_id. }
    by apply remove_piece_frame in Hrem as [_ ?].
Qed.

Lemma do_move_frame (b b' : Board) (m : Move) :
  do_move b m = Some b' →
  layout b' = layout b ∧ total_pieces b' + 2 = total_pieces b.
Proof.
  unfold do_move.
  destruct (remove_piece b m.1) as [b1|] eqn:H1; [simpl|done]. intros H2.
  apply remove_piece_frame in H1 as [Hl1 Ht1].
  apply remove_piece_frame in H2 as [Hl2 Ht2].
  split; [congruence|lia].
Qed.

(** X5. Whatever pair of descriptors it is given, a [do_move] that does not
    raise takes exactly two pieces off the board and an [undo_move] that
    does not raise puts exactly two on; neither changes the number of rows
    or the number of cells of a row. *)
Theorem moves_frame (b b' : Board) (m : Move) :
  (do_move b m = Some b' →
   layout b' = layout b ∧ total_pieces b' + 2 = total_pieces b)
  ∧ (undo_move b m = Some b' →
     layout b' = layout b ∧ total_pieces b' = total_pieces b + 2).
Proof.
  split; [apply do_move_frame|]. unfold undo_move.
  - destruct (replace_piece b m.1) as [b1|] eqn:H1; [simpl|done]. intros H2.
    apply replace_piece_frame in H1 as [Hl1 Ht1].
    apply replace_piece_frame in H2 as [Hl2 Ht2].
    split; [congruence|lia].
Qed.

(** ** Boards in play stay within the depth map *)

(** The descriptor of the cell (r, c), for [stack_of]. *)
Lemma stack_depth_stack_of (b : Board) (r c : nat) :
  stack_depth b r c
  = length <$> stack_of b (mkMovablePiece (Row r) (Some c) "" 0).
Proof.
  unfold stack_depth, stack_of; simpl.
  destruct (rows b !! r) as [row|]; [simpl|done]. by destruct (row !! c).
Qed.

(** Taking a piece off never lengthens a stack or pile. *)
Lemma stack_of_remove_piece (b b' : Board) (p q : MovablePiece)
    (s' : list Piece) :
  remove_piece b p = Some b' → stack_of b' q = Some s' →
  ∃ s, stack_of b q = Some s ∧ length s' ≤ length s.
Proof.
  intros (st & x & Hst & ->)%remove_piece_Some Hq.
  destruct (decide (place p = place q)) as [Heq|Hne].
  - rewrite <-(place_eq_stack_of (set_stack b p st) p q Heq) in Hq.
    rewrite <-(place_eq_stack_of b p q Heq).
    rewrite (stack_of_set_stack_eq _ _ _ _ Hst) in Hq. injection Hq as <-.
    exists (st ++ [x]). split; [done|]. rewrite length_app. lia.
  - rewrite stack_of_set_stack_ne in Hq by done. by exists s'.
Qed.

Lemma stack_of_do_move (b b' : Board) (m : Move) (q : MovablePiece)
    (s' : list Piece) :
  do_move b m = Some b' → stack_of b' q = Some s' →
  ∃ s, stack_of b q = Some s ∧ length s' ≤ length s.
Proof.
  unfold do_move.
  destruct (remove_piece b m.1) as [b1|] eqn:H1; [simpl|done]. intros H2 Hq.
  destruct (stack_of_remove_piece _ _ _ q s' H2 Hq) as (s1 & Hs1 & Hle1).
  destruct (stack_of_remove_piece _ _ _ q s1 H1 Hs1) as (s & Hs & Hle).
  exists s. split; [done|lia].
Qed.

(** X6. On every board reachable from a freshly filled one the grid has
    the layout of the depth map, no stack is deeper than the depth map
    allows, [top] and [left_blocks] hold at most one piece and
    [right_blocks] at most two, and the number of pieces is even and at
    most 144. *)
Theorem reachable_within_depths (b : Board) :
  reachable b → within_depths b.
Proof.
  induction 1 as [rand b Hfill|b mps m b' Hb IH Hmps Hm Hdo].
  - destruct (fill_new_board_spec _ _ Hfill)
      as (Hrows & Htop & Hleft & Hright & Hall).
    split_and!; try lia.
    + rewrite <-depths_layout. unfold depths. by rewrite Hrows.
    + intros r c d. rewrite stack_depth_depths. unfold depths.
      rewrite Hrows. by eauto.
    + unfold total_pieces. by rewrite Hall.
    + unfold total_pieces. rewrite Hall. by exists 72.
  - destruct IH as (Hlay & Hdepth & Htop & Hleft & Hright & Htot & Heven).
    destruct (do_move_frame b b' m Hdo) as [Hlay' Htot'].
    split_and!.
    + congruence.
    + intros r c d. rewrite stack_depth_stack_of.
      destruct (stack_of b' _) as [s'|] eqn:Hs'; [simpl|done]. intros [= <-].
      destruct (stack_of_do_move _ _ _ _ _ Hdo Hs') as (s & Hs & Hle).
      destruct (Hdepth r c (length s)) as (dmax & Hmax & Hle').
      { by rewrite stack_depth_stack_of, Hs. }
      exists dmax. split; [done|lia].
    + destruct (stack_of_do_move b b' m (mkMovablePiece TOP None "" 0) (top b')
                  Hdo eq_refl) as (s & [= <-] & Hle). lia.
    + destruct (stack_of_do_move b b' m (mkMovablePiece LEFT None "" 0)
                  (left_blocks b') Hdo eq_refl) as (s & [= <-] & Hle). lia.
    + destruct (stack_of_do_move b b' m (mkMovablePiece RIGHT None "" 0)
                  (right_blocks b') Hdo eq_refl) as (s & [= <-] & Hle). lia.
    + lia.
    + destruct Heven as [k Hk]. exists (k - 1). lia.
Qed.

(** On [sample_board] after the move [sample_move]. *)
Lemma reachable_within_depths_witness :
  within_depths (default sample_board (do_move sample_board sample_move)).
Proof.
  apply reachable_within_depths.
  eapply (reachable_move sample_board _ sample_move).
  - apply (reachable_fill (λ _, 0)), sample_board_filled.
  - vm_compute. reflexivity.
  - vm_compute. apply list_elem_of_here.
  - vm_compute. reflexivity.
Defined.

(** ** When [find_moves] finds nothing *)

(** X7. [find_moves] returns no move exactly when no two entries of the
    list it is given carry the same symbol: a dead end of the game is a
    position whose exposed pieces are pairwise different. *)
Theorem find_moves_nil (l : list MovablePiece) :
  find_moves l = [] ↔ NoDup (piece <$> l).
Proof.
  split.
  - intros Hnil. apply NoDup_alt. intros i j x Hi Hj.
    rewrite list_lookup_fmap in Hi, Hj.
    destruct (l !! i) as [p|] eqn:Hp; [|done].
    destruct (l !! j) as [q|] eqn:Hq; [|done].
    simpl in Hi, Hj. injection Hi as Hi. injection Hj as Hj.
    destruct (Nat.lt_total i j) as [Hlt|[Heq|Hlt]]; [|done|]; exfalso.
    + assert ((p, q) ∈ find_moves l) as Hin.
      { apply elem_of_find_moves. split; [congruence|].
        apply elem_of_pairs. by exists i, j. }
      rewrite Hnil in Hin. by apply elem_of_nil in Hin.
    + assert ((q, p) ∈ find_moves l) as Hin.
      { apply elem_of_find_moves. split; [congruence|].
        apply elem_of_pairs. by exists j, i. }
      rewrite Hnil in Hin. by apply elem_of_nil in Hin.
  - intros Hnd. destruct (find_moves l) as [|[p q] ms] eqn:Hms; [done|].
    exfalso. assert ((p, q) ∈ find_moves l) as Hin by (rewrite Hms; left).
    apply elem_of_find_moves in Hin as [Hsym Hpq].
    apply elem_of_pairs in Hpq as (i & j & Hlt & Hi & Hj).
    assert (i = j); [|lia].
    apply (NoDup_lookup _ i j (piece p) Hnd); rewrite list_lookup_fmap.
    + by rewrite Hi.
    + rewrite Hj; simpl. by rewrite Hsym.
Qed.

(** ** The order of the results *)

Lemma compare_order_lex {A B C} (f : C → A) (g : C → B)
    (cmpA : A → A → comparison) (cmpB : B → B → comparison) :
  compare_order cmpA → compare_order cmpB →
  compare_order (lex_compare f g cmpA cmpB).
Proof.
  intros (HsymA & HtransA & HeqA) (HsymB & HtransB & HeqB).
  unfold lex_compare. split_and!.
  - intros x y. rewrite (HsymA (f x) (f y)).
    destruct (cmpA (f x) (f y)); simpl; auto.
  - intros x y z.
    destruct (cmpA (f x) (f y)) eqn:Hxy, (cmpA (f y) (f z)) eqn:Hyz;
      try done.
    + rewrite (HeqA _ _ _ Hxy), Hyz. apply HtransB.
    + by rewrite (HeqA _ _ _ Hxy), Hyz.
    + intros _ _. rewrite (HsymA (f z) (f x)), <-(HeqA _ _ _ Hyz).
      by rewrite (HsymA (f x) (f y)), Hxy.
    + by rewrite (HtransA _ _ _ Hxy Hyz).
  - intros x y z.
    destruct (cmpA (f x) (f y)) eqn:Hxy; try done. intros Hg.
    by rewrite (HeqA _ _ _ Hxy), (HeqB _ _ _ Hg).
Qed.

Lemma compare_order_nat : compare_order Nat.compare.
Proof.
  split_and!.
  - intros x y. apply Nat.compare_antisym.
  - intros x y z. rewrite !Nat.compare_lt_iff. lia.
  - by intros x y z ->%Nat.compare_eq_iff.
Qed.

Lemma compare_order_RowIx : compare_order RowIx_compare.
Proof.
  destruct compare_order_nat as (Hsym & Htrans & Heq). split_and!.
  - intros [m| | |] [n| | |]; simpl; try done; apply Hsym.
  - intros [m| | |] [n| | |] [k| | |]; simpl; try done; apply Htrans.
  - intros [m| | |] [n| | |] [k| | |]; simpl; try done; apply Heq.
Qed.

Lemma compare_order_col : compare_order col_compare.
Proof.
  destruct compare_order_nat as (Hsym & Htrans & Heq). split_and!.
  - intros [m|] [n|]; simpl; try done; apply Hsym.
  - intros [m|] [n|] [k|]; simpl; try done; apply Htrans.
  - intros [m|] [n|] [k|]; simpl; try done; apply Heq.
Qed.

Lemma compare_order_coord : compare_order coord_compare.
Proof.
  apply (compare_order_lex row_ix col_ix);
    [apply compare_order_RowIx|apply compare_order_col].
Qed.

Lemma coord_compare_Eq (p q : MovablePiece) :
  coord_compare p q = Eq ↔ coord p = coord q.
Proof.
  unfold coord_compare, coord. split.
  - destruct (RowIx_compare (row_ix p) (row_ix q)) eqn:Hr; try done.
    intros Hc. f_equal.
    + destruct (row_ix p) as [m| | |], (row_ix q) as [n| | |]; try done.
      simpl in Hr. by apply Nat.compare_eq_iff in Hr as ->.
    + destruct (col_ix p) as [m|], (col_ix q) as [n|]; try done.
      simpl in Hc. by apply Nat.compare_eq_iff in Hc as ->.
  - intros [= -> ->].
    assert (RowIx_compare (row_ix q) (row_ix q) = Eq) as ->.
    { destruct (row_ix q); simpl; try done. apply Nat.compare_refl. }
    destruct (col_ix q); simpl; [apply Nat.compare_refl|done].
Qed.

(** The key comparison of [find_moves] is the tuple comparison of the two
    coordinates. *)
Lemma move_key_le_lex (m1 m2 : Move) :
  move_key_le m1 m2
  = not_Gt (lex_compare fst snd coord_compare coord_compare m1 m2).
Proof.
  unfold move_key_le, lex_compare.
  by destruct (coord_compare m1.1 m2.1).
Qed.

Lemma not_Gt_total {A} (cmp : A → A → comparison) (x y : A) :
  compare_order cmp → not_Gt (cmp x y) = false → not_Gt (cmp y x) = true.
Proof.
  intros (Hsym & _ & _). rewrite (Hsym x y). by destruct (cmp x y).
Qed.

Lemma not_Gt_trans {A} (cmp : A → A → comparison) (x y z : A) :
  compare_order cmp →
  not_Gt (cmp x y) = true → not_Gt (cmp y z) = true →
  not_Gt (cmp x z) = true.
Proof.
  intros (Hsym & Htrans & Heq).
  destruct (cmp x y) eqn:Hxy, (cmp y z) eqn:Hyz; try done; intros _ _.
  - by rewrite (Heq _ _ _ Hxy), Hyz.
  - by rewrite (Heq _ _ _ Hxy), Hyz.
  - rewrite (Hsym z x), <-(Heq _ _ _ Hyz). by rewrite (Hsym x y), Hxy.
  - by rewrite (Htrans _ _ _ Hxy Hyz).
Qed.

(** Insertion sort orders its input, for any total and transitive [le]. *)
Lemma insert_sorted_StronglySorted {A} (le : A → A → bool) (x : A)
    (l : list A) :
  (∀ x y, le x y = false → le y x = true) →
  (∀ x y z, le x y = true → le y z = true → le x z = true) →
  StronglySorted (λ x y, le x y = true) l →
  StronglySorted (λ x y, le x y = true) (insert_sorted le x l).
Proof.
  intros Htotal Htrans. induction 1 as [|y l Hl IH Hy]; simpl.
  - by repeat constructor.
  - destruct (le x y) eqn:Hxy.
    + constructor; [by constructor|]. constructor; [done|].
      eapply Forall_impl; [exact Hy|]. intros z Hz. by eapply Htrans.
    + constructor; [done|].
      rewrite (insert_sorted_Permutation le x l). constructor; [|done].
      by apply Htotal.
Qed.

Lemma sorted_StronglySorted {A} (le : A → A → bool) (l : list A) :
  (∀ x y, le x y = false → le y x = true) →
  (∀ x y z, le x y = true → le y z = true → le x z = true) →
  StronglySorted (λ x y, le x y = true) (sorted le l).
Proof.
  intros Htotal Htrans. induction l as [|x l IH]; simpl.
  - constructor.
  - by apply insert_sorted_StronglySorted.
Qed.

Lemma StronglySorted_pairs {A} (R : A → A → Prop) (l : list A) (y z : A) :
  StronglySorted R l → (y, z) ∈ pairs l → R y z.
Proof.
  induction 1 as [|x l Hl IH Hx]; intros Hin.
  - by apply elem_of_nil in Hin.
  - apply elem_of_pairs_cons in Hin as [[-> Hz]|Hin]; [|by apply IH].
    rewrite Forall_forall in Hx. by apply Hx.
Qed.

Lemma find_movable_pieces_StronglySorted (b : Board)
    (mps : list MovablePiece) :
  find_movable_pieces b = Some mps → StronglySorted coord_lt mps.
Proof.
  intros Hmps.
  destruct (find_movable_pieces_inv b) as (mps' & Hmps' & Hnd & Hdesc).
  rewrite Hmps in Hmps'. injection Hmps' as <-.
  assert (StronglySorted (λ p q, piece_key_le p q = true) mps) as Hsorted.
  { unfold find_movable_pieces in Hmps.
    destruct (foldl _ _ _) as [acc|]; [simpl in Hmps|done].
    injection Hmps as <-. apply sorted_StronglySorted.
    - intros x y. by apply (not_Gt_total coord_compare), compare_order_coord.
    - intros x y z. by apply (not_Gt_trans coord_compare), compare_order_coord. }
  clear Hmps. induction Hsorted as [|p l Hl IH Hp]; [constructor|].
  apply NoDup_cons in Hnd as [Hnotin Hnd].
  apply Forall_cons in Hdesc as [Hdp Hdesc].
  constructor; [by apply IH|].
  rewrite Forall_forall in Hp, Hdesc |- *. intros q Hq.
  specialize (Hp q Hq). unfold piece_key_le in Hp. unfold coord_lt.
  destruct (coord_compare p q) eqn:Hcmp; try done.
  apply coord_compare_Eq in Hcmp.
  destruct Hnotin. by rewrite (describes_inj b p q Hdp (Hdesc q Hq) Hcmp).
Qed.

(** ** What [find_movable_pieces] returns *)

Lemma foldl_option_None {A B} (f : A → B → option A) (l : list B) :
  foldl (λ acc x, s ← acc; f s x) None l = None.
Proof. by induction l. Qed.

Lemma foldl_option_Some_inv {A B} (P : A → Prop) (f : A → B → option A)
    (l : list B) (a a' : A) :
  foldl (λ acc x, s ← acc; f s x) (Some a) l = Some a' → P a →
  (∀ a x a1, x ∈ l → P a → f a x = Some a1 → P a1) → P a'.
Proof.
  revert a. induction l as [|x l IH]; intros a; simpl.
  - by intros [= <-].
  - destruct (f a x) as [a1|] eqn:Ha1.
    + intros Hfold Ha Hstep. apply (IH a1 Hfold).
      * eapply Hstep; [left|done..].
      * intros a0 x0 a2 Hx0. apply Hstep. by right.
    + by rewrite foldl_option_None.
Qed.

Lemma foldl_option_app_inv {A B} (f : A → B → option A)
    (l1 l2 : list B) (x : B) (a a' : A) :
  foldl (λ acc x, s ← acc; f s x) (Some a) (l1 ++ x :: l2) = Some a' →
  ∃ a1 a2, foldl (λ acc x, s ← acc; f s x) (Some a) l1 = Some a1
           ∧ f a1 x = Some a2
           ∧ foldl (λ acc x, s ← acc; f s x) (Some a2) l2 = Some a'.
Proof.
  rewrite foldl_app; simpl.
  destruct (foldl _ (Some a) l1) as [a1|]; simpl;
    [|by rewrite foldl_option_None].
  destruct (f a1 x) as [a2|] eqn:Ha2; [|by rewrite foldl_option_None].
  intros Hfold. by exists a1, a2.
Qed.

(** The scans only add, and add only what [scanned] allows. *)
Lemma scan_left_to_right_elem (b : Board) (rix : nat)
    (row : list (list Piece)) (fuel col last : nat)
    (acc acc' : list MovablePiece) :
  scan_left_to_right b rix row fuel col last acc = Some acc' →
  acc ⊆ acc' ∧ ∀ p, p ∈ acc' → p ∈ acc ∨ scanned b rix row true p.
Proof.
  revert col last acc. induction fuel as [|fuel IH]; intros col last acc; simpl.
  { intros [= <-]. split; [done|by left]. }
  case_bool_decide; [|intros [= <-]; split; [done|by left]].
  destruct (row !! col) as [stack|] eqn:Hstack; [simpl|done].
  destruct (is_movable b rix col true) as [v|] eqn:Hv; [simpl|done].
  destruct (v && bool_decide (last < length stack)) eqn:Hcond.
  - destruct (peek stack) as [x|] eqn:Hx; [simpl|done].
    intros [Hsub Hel]%IH. apply andb_true_iff in Hcond as [-> _]. split.
    + intros p Hp. apply Hsub, elem_of_set_add. by right.
    + intros p [[->|Hp]%elem_of_set_add|Hp]%Hel; [right|by left|by right].
      by exists col, stack, x.
  - destruct (bool_decide (length stack < last));
      [intros [= <-]; split; [done|by left]|]. apply IH.
Qed.

Lemma scan_right_to_left_elem (b : Board) (rix : nat)
    (row : list (list Piece)) (n last : nat)
    (acc acc' : list MovablePiece) :
  scan_right_to_left b rix row n last acc = Some acc' →
  acc ⊆ acc' ∧ ∀ p, p ∈ acc' → p ∈ acc ∨ scanned b rix row false p.
Proof.
  revert last acc. induction n as [|col IH]; intros last acc; simpl.
  { intros [= <-]. split; [done|by left]. }
  destruct (row !! col) as [stack|] eqn:Hstack; [simpl|done].
  destruct (is_movable b rix col false) as [v|] eqn:Hv; [simpl|done].
  destruct (v && bool_decide (last < length stack)) eqn:Hcond.
  - destruct (peek stack) as [x|] eqn:Hx; [simpl|done].
    intros [Hsub Hel]%IH. apply andb_true_iff in Hcond as [-> _]. split.
    + intros p Hp. apply Hsub, elem_of_set_add. by right.
    + intros p [[->|Hp]%elem_of_set_add|Hp]%Hel; [right|by left|by right].
      by exists col, stack, x.
  - destruct (bool_decide (length stack < last));
      [intros [= <-]; split; [done|by left]|]. apply IH.
Qed.

Lemma scan_row_elem (b : Board) (rix : nat) (acc acc' : list MovablePiece) :
  scan_row b acc rix = Some acc' →
  acc ⊆ acc'
  ∧ ∀ p, p ∈ acc' →
      p ∈ acc ∨ ∃ row ltr, rows b !! rix = Some row ∧ scanned b rix row ltr p.
Proof.
  unfold scan_row. destruct (rows b !! rix) as [row|]; [simpl|done].
  destruct (scan_left_to_right _ _ _ _ _ _ _) as [acc1|] eqn:H1; [simpl|done].
  intros H2. apply scan_left_to_right_elem in H1 as [Hsub1 Hel1].
  apply scan_right_to_left_elem in H2 as [Hsub2 Hel2]. split.
  - intros p Hp. by apply Hsub2, Hsub1.
  - intros p [[Hp|Hp]%Hel1|Hp]%Hel2; [by left|right..];
      [by exists row, true|by exists row, false].
Qed.

Lemma elem_of_add_pile (tag : RowIx) (pile : list Piece)
    (acc : list MovablePiece) (p : MovablePiece) :
  p ∈ add_pile tag pile acc
  ↔ p ∈ acc ∨ ∃ x, peek pile = Some x ∧ p = mkMovablePiece tag None x 1.
Proof.
  unfold add_pile. destruct (peek pile) as [x|].
  - rewrite elem_of_set_add. split.
    + intros [->|?]; [right|by left]. by exists x.
    + intros [?|(? & [= <-] & ->)]; [by right|by left].
  - split; [by left|]. by intros [?|(? & ? & _)].
Qed.

(** The grid part of [find_movable_pieces]: the loop over the rows. *)
Lemma scan_rows_elem (b : Board) (n : nat) (acc : list MovablePiece) :
  foldl (λ acc rix, s ← acc; scan_row b s rix) (Some []) (seq 0 n) = Some acc →
  ∀ p, p ∈ acc →
    ∃ rix row ltr, rows b !! rix = Some row ∧ scanned b rix row ltr p.
Proof.
  intros Hfold.
  apply (foldl_option_Some_inv
           (λ acc, ∀ p, p ∈ acc → ∃ rix row ltr,
                      rows b !! rix = Some row ∧ scanned b rix row ltr p)
           _ _ _ _ Hfold).
  - by intros p ?%elem_of_nil.
  - intros a rix a1 _ Ha [_ Hel]%scan_row_elem p [Hp|Hp]%Hel; [by apply Ha|].
    by exists rix.
Qed.

Lemma find_movable_pieces_elem (b : Board) (mps : list MovablePiece)
    (p : MovablePiece) :
  find_movable_pieces b = Some mps → p ∈ mps →
  (∃ rix row ltr, rows b !! rix = Some row ∧ scanned b rix row ltr p)
  ∨ (∃ x, peek (top b) = Some x ∧ p = mkMovablePiece TOP None x 1)
  ∨ (∃ x, peek (left_blocks b) = Some x ∧ p = mkMovablePiece LEFT None x 1)
  ∨ (∃ x, peek (right_blocks b) = Some x ∧ p = mkMovablePiece RIGHT None x 1).
Proof.
  unfold find_movable_pieces.
  destruct (foldl _ _ _) as [acc|] eqn:Hfold; [simpl|done].
  intros [= <-]. rewrite sorted_Permutation, !elem_of_add_pile.
  intros [[[Hp|Hp]|Hp]|Hp]; eauto using scan_rows_elem.
Qed.

(** X8. Every descriptor [find_movable_pieces] returns names an occupied
    place of the board, carries the last piece of that place and its depth,
    and, when it names a grid cell, [is_movable] holds for that cell in one
    of the two scan directions. The call never raises. *)
Theorem find_movable_pieces_sound (b : Board) :
  ∃ mps, find_movable_pieces b = Some mps
         ∧ ∀ p, p ∈ mps → describes b p ∧ movable_from_a_side b p.
Proof.
  destruct (find_movable_pieces_inv b) as (mps & Hmps & _ & Hdesc).
  exists mps. split; [done|]. intros p Hp. split.
  - rewrite Forall_forall in Hdesc. by apply Hdesc.
  - unfold movable_from_a_side.
    destruct (find_movable_pieces_elem b mps p Hmps Hp)
      as [(rix & row & ltr & Hrow & c & stack & x & -> & Hc & Hx & Hmov)
         |[(x & _ & ->)|[(x & _ & ->)|(x & _ & ->)]]]; simpl; try done.
    destruct ltr; [by left|by right].
Qed.

(** X9. The list [find_movable_pieces] returns is strictly increasing in
    the sort key (row_ix, col_ix), so it holds at most one descriptor for
    each place: grid cells in row-major order, then the piles in the order
    left, right, top. *)
Theorem find_movable_pieces_sorted (b : Board) (mps : list MovablePiece) :
  find_movable_pieces b = Some mps →
  StronglySorted coord_lt mps ∧ NoDup (coord <$> mps).
Proof.
  intros Hmps. split; [by apply (find_movable_pieces_StronglySorted b)|].
  destruct (find_movable_pieces_inv b) as (mps' & Hmps' & Hnd & Hdesc).
  rewrite Hmps in Hmps'. injection Hmps' as <-.
  rewrite Forall_forall in Hdesc.
  apply NoDup_fmap_2_strong; [|done].
  intros p q Hp Hq. apply (describes_inj b); by apply Hdesc.
Qed.

Lemma find_movable_pieces_sorted_witness :
  StronglySorted coord_lt
    [mkMovablePiece (Row 0) (Some 0) "A" 1; mkMovablePiece (Row 0) (Some 1) "A" 1]
  ∧ NoDup [(Row 0, Some 0); (Row 0, Some 1)].
Proof. by apply (find_movable_pieces_sorted two_cell_board). Defined.

(** X10. A non-empty pile is always offered, by its last piece and with
    depth 1, and an empty pile never is: the piece on [top], the piece on
    [left_blocks] and the last piece of [right_blocks]. *)
Theorem find_movable_pieces_piles (b : Board) (mps : list MovablePiece) :
  find_movable_pieces b = Some mps →
  ∀ x, (mkMovablePiece TOP None x 1 ∈ mps ↔ peek (top b) = Some x)
       ∧ (mkMovablePiece LEFT None x 1 ∈ mps ↔ peek (left_blocks b) = Some x)
       ∧ (mkMovablePiece RIGHT None x 1 ∈ mps
          ↔ peek (right_blocks b) = Some x).
Proof.
  intros Hmps x.
  destruct (find_movable_pieces_inv b) as (mps' & Hmps' & _ & Hdesc).
  rewrite Hmps in Hmps'. injection Hmps' as <-.
  rewrite Forall_forall in Hdesc.
  unfold find_movable_pieces in Hmps.
  destruct (foldl _ _ _) as [acc|]; [simpl in Hmps|done].
  injection Hmps as <-.
  split_and!; (split; [by intros [? _]%Hdesc|]); intros Hx;
    rewrite sorted_Permutation, !elem_of_add_pile; eauto 6.
Qed.

Lemma find_movable_pieces_piles_witness :
  (sample_top ∈ default [] (find_movable_pieces sample_board)
   ↔ peek (top sample_board) = Some "0")
  ∧ (sample_left ∈ default [] (find_movable_pieces sample_board)
     ↔ peek (left_blocks sample_board) = Some "0")
  ∧ (sample_right ∈ default [] (find_movable_pieces sample_board)
     ↔ peek (right_blocks sample_board) = Some "0").
Proof.
  apply (find_movable_pieces_piles sample_board). vm_compute. reflexivity.
Defined.

(** ** The order of the moves *)

Lemma find_moves_StronglySorted (l : list MovablePiece) :
  StronglySorted (λ m1 m2, move_key_le m1 m2 = true) (find_moves l).
Proof.
  assert (compare_order (lex_compare (C:=Move) fst snd
                                     coord_compare coord_compare)) as Hord
    by (apply compare_order_lex; apply compare_order_coord).
  unfold find_moves. apply sorted_StronglySorted.
  - intros x y. rewrite !move_key_le_lex. by apply not_Gt_total.
  - intros x y z. rewrite !move_key_le_lex. by apply not_Gt_trans.
Qed.

(** X11. [find_moves] lists its moves in non-decreasing order of the key
    (row and column of the first piece, then of the second). On the result
    of [find_movable_pieces] the first piece of every move comes before
    the second in that order, so no pair is offered in both orders. *)
Theorem find_moves_ordered (b : Board) (mps : list MovablePiece) :
  find_movable_pieces b = Some mps →
  StronglySorted (λ m1 m2, move_key_le m1 m2 = true) (find_moves mps)
  ∧ ∀ p q, (p, q) ∈ find_moves mps →
           coord_lt p q ∧ (q, p) ∉ find_moves mps.
Proof.
  intros Hmps%find_movable_pieces_StronglySorted.
  split; [apply find_moves_StronglySorted|].
  assert (∀ p q, (p, q) ∈ find_moves mps → coord_lt p q) as Hlt.
  { intros p q [_ Hpq]%elem_of_find_moves.
    by apply (StronglySorted_pairs _ mps). }
  intros p q Hpq. split; [by apply Hlt|].
  intros Hqp. apply Hlt in Hpq, Hqp. unfold coord_lt in Hpq, Hqp.
  destruct compare_order_coord as (Hsym & _ & _).
  rewrite (Hsym p q), Hpq in Hqp. done.
Qed.

Lemma find_moves_ordered_witness :
  StronglySorted (λ m1 m2, move_key_le m1 m2 = true)
    (find_moves (default [] (find_movable_pieces two_cell_board)))
  ∧ ∀ p q, (p, q) ∈ find_moves (default [] (find_movable_pieces two_cell_board)) →
           coord_lt p q
           ∧ (q, p) ∉ find_moves (default [] (find_movable_pieces two_cell_board)).
Proof. by apply (find_moves_ordered two_cell_board). Defined.

(** ** The ends of a row *)

Lemma is_movable_empty_stack (b : Board) (r c : nat)
    (row : list (list Piece)) (ltr : bool) :
  rows b !! r = Some row → row !! c = Some [] →
  is_movable b r c ltr = Some false.
Proof. unfold is_movable. intros Hr Hc. rewrite Hr; simpl. by rewrite Hc. Qed.

Lemma scan_left_to_right_first (b : Board) (rix : nat)
    (row : list (list Piece)) (fuel col c : nat) (stack : list Piece)
    (x : Piece) (acc acc' : list MovablePiece) :
  rows b !! rix = Some row → row !! c = Some stack → peek stack = Some x →
  (∀ c', col ≤ c' → c' < c → row !! c' = Some []) →
  col ≤ c < col + fuel →
  is_movable b rix c true = Some true →
  scan_left_to_right b rix row fuel col 0 acc = Some acc' →
  cell_piece rix c stack x ∈ acc'.
Proof.
  intros Hrow Hc Hx. revert col acc.
  induction fuel as [|fuel IH]; intros col acc Hempty Hcol Hmov; [lia|].
  simpl. rewrite bool_decide_eq_true_2
    by (apply lookup_lt_Some in Hc; lia).
  destruct (decide (col = c)) as [->|Hne].
  - rewrite Hc; simpl. rewrite Hmov; simpl.
    apply peek_Some in Hx as Hst. destruct Hst as [st ->].
    rewrite bool_decide_eq_true_2 by (rewrite length_app; simpl; lia).
    rewrite Hx; simpl. intros [Hsub _]%scan_left_to_right_elem.
    apply Hsub, elem_of_set_add. by left.
  - rewrite (Hempty col) by lia; simpl.
    rewrite (is_movable_empty_stack b rix col row) by (try done; apply Hempty; lia).
    simpl. apply IH; [|lia|done]. intros c' ??. apply Hempty; lia.
Qed.

Lemma scan_right_to_left_first (b : Board) (rix : nat)
    (row : list (list Piece)) (n c : nat) (stack : list Piece)
    (x : Piece) (acc acc' : list MovablePiece) :
  rows b !! rix = Some row → row !! c = Some stack → peek stack = Some x →
  (∀ c', c < c' → c' < n → row !! c' = Some []) →
  c < n →
  is_movable b rix c false = Some true →
  scan_right_to_left b rix row n 0 acc = Some acc' →
  cell_piece rix c stack x ∈ acc'.
Proof.
  intros Hrow Hc Hx. revert acc.
  induction n as [|col IH]; intros acc Hempty Hcol Hmov; [lia|].
  simpl. destruct (decide (col = c)) as [->|Hne].
  - rewrite Hc; simpl. rewrite Hmov; simpl.
    apply peek_Some in Hx as Hst. destruct Hst as [st ->].
    rewrite bool_decide_eq_true_2 by (rewrite length_app; simpl; lia).
    rewrite Hx; simpl. intros [Hsub _]%scan_right_to_left_elem.
    apply Hsub, elem_of_set_add. by left.
  - rewrite (Hempty col) by lia; simpl.
    rewrite (is_movable_empty_stack b rix col row) by (try done; apply Hempty; lia).
    simpl. apply IH; [|lia|done]. intros c' ??. apply Hempty; lia.
Qed.

Lemma scan_rows_mono (b : Board) (l : list nat)
    (acc acc' : list MovablePiece) :
  foldl (λ acc rix, s ← acc; scan_row b s rix) (Some acc) l = Some acc' →
  acc ⊆ acc'.
Proof.
  intros Hfold.
  apply (foldl_option_Some_inv (λ a, acc ⊆ a) _ _ _ _ Hfold); [done|].
  intros a rix a1 _ Ha [Hsub _]%scan_row_elem. by etrans.
Qed.

Lemma find_movable_pieces_unfold (b : Board) (mps : list MovablePiece) :
  find_movable_pieces b = Some mps →
  ∃ acc,
    foldl (λ acc rix, s ← acc; scan_row b s rix) (Some [])
          (seq 0 (length (rows b))) = Some acc
    ∧ ∀ p, p ∈ mps ↔
        p ∈ acc
        ∨ (∃ x, peek (top b) = Some x ∧ p = mkMovablePiece TOP None x 1)
        ∨ (∃ x, peek (left_blocks b) = Some x
                ∧ p = mkMovablePiece LEFT None x 1)
        ∨ (∃ x, peek (right_blocks b) = Some x
                ∧ p = mkMovablePiece RIGHT None x 1).
Proof.
  unfold find_movable_pieces.
  destruct (foldl _ _ _) as [acc|]; [simpl|done]. intros [= <-].
  exists acc. split; [done|]. intros p.
  rewrite sorted_Permutation, !elem_of_add_pile. tauto.
Qed.

Lemma scan_rows_row_ends (b : Board) (acc : list MovablePiece)
    (r c : nat) (row : list (list Piece)) (stack : list Piece) (x : Piece) :
  foldl (λ acc rix, s ← acc; scan_row b s rix) (Some [])
        (seq 0 (length (rows b))) = Some acc →
  rows b !! r = Some row → row !! c = Some stack → peek stack = Some x →
  ((∀ c', c' < c → row !! c' = Some [])
   ∧ is_movable b r c true = Some true)
  ∨ ((∀ c', c < c' → c' < length row → row !! c' = Some [])
     ∧ is_movable b r c false = Some true) →
  cell_piece r c stack x ∈ acc.
Proof.
  intros Hfold Hrow Hc Hx Hend.
  assert (r < length (rows b)) as Hr by eauto using lookup_lt_Some.
  replace (length (rows b)) with (r + S (length (rows b) - S r)) in Hfold
    by lia.
  rewrite seq_app in Hfold; simpl in Hfold.
  apply foldl_option_app_inv in Hfold as (a1 & a2 & _ & Hscan & Hrest).
  apply scan_rows_mono in Hrest. apply Hrest. clear Hrest.
  unfold scan_row in Hscan. rewrite Hrow in Hscan; simpl in Hscan.
  destruct (scan_left_to_right _ _ _ _ _ _ _) as [acc1|] eqn:H1;
    [simpl in Hscan|done].
  destruct Hend as [[Hempty Hmov]|[Hempty Hmov]].
  - apply scan_right_to_left_elem in Hscan as [Hsub _]. apply Hsub.
    apply (scan_left_to_right_first _ _ _ _ _ _ _ _ _ _ Hrow Hc Hx) in H1;
      [done| |apply lookup_lt_Some in Hc; lia|done].
    intros c' _. apply Hempty.
  - apply (scan_right_to_left_first _ _ _ _ _ _ _ _ _ Hrow Hc Hx) in Hscan;
      [done|done|by eapply lookup_lt_Some|done].
Qed.

(** X12. The first non-empty stack of a row is offered whenever
    [is_movable] holds for it in the left-to-right direction, and the last
    non-empty stack of a row whenever [is_movable] holds for it in the
    right-to-left direction. *)
Theorem find_movable_pieces_row_ends (b : Board) (mps : list MovablePiece)
    (r c : nat) (row : list (list Piece)) (stack : list Piece) (x : Piece) :
  find_movable_pieces b = Some mps →
  rows b !! r = Some row → row !! c = Some stack → peek stack = Some x →
  ((∀ c', c' < c → row !! c' = Some [])
   ∧ is_movable b r c true = Some true)
  ∨ ((∀ c', c < c' → c' < length row → row !! c' = Some [])
     ∧ is_movable b r c false = Some true) →
  mkMovablePiece (Row r) (Some c) x (length stack) ∈ mps.
Proof.
  intros (acc & Hfold & Hel)%find_movable_pieces_unfold Hrow Hc Hx Hend.
  apply Hel. left. by eapply scan_rows_row_ends.
Qed.

Lemma find_movable_pieces_row_ends_witness :
  mkMovablePiece (Row 0) (Some 1) "A" 1
  ∈ [mkMovablePiece (Row 0) (Some 0) "A" 1; mkMovablePiece (Row 0) (Some 1) "A" 1].
Proof.
  apply (find_movable_pieces_row_ends two_cell_board _ 0 1 [["A"]; ["A"]] ["A"]);
    try reflexivity.
  right. split; [|reflexivity]. intros c' ??. simpl in *. lia.
Defined.

(** ** A board with nothing to offer *)

Lemma peek_is_Some {A} (l : list A) : l ≠ [] → is_Some (peek l).
Proof.
  intros Hl. destruct (peek l) eqn:Hp; [done|].
  by apply peek_None in Hp.
Qed.

Lemma is_movable_no_piles (b : Board) (r c : nat)
    (row : list (list Piece)) (stack : list Piece) (ltr : bool) :
  top b = [] → left_blocks b = [] → right_blocks b = [] →
  rows b !! r = Some row → row !! c = Some stack → stack ≠ [] →
  is_movable b r c ltr = Some true.
Proof.
  unfold is_movable. intros Ht Hl Hr Hrow Hc Hne.
  rewrite Hrow; simpl. rewrite Hc; simpl. rewrite Ht, Hl, Hr.
  rewrite bool_decide_eq_false_2 by done.
  repeat case_bool_decide; by destruct ltr.
Qed.

Lemma forallb_false_lookup {A} (f : A → bool) (l : list A) :
  forallb f l = false → ∃ i x, l !! i = Some x ∧ f x = false.
Proof.
  induction l as [|x l IH]; [done|simpl].
  destruct (f x) eqn:Hx; simpl.
  - intros (i & y & ? & ?)%IH. by exists (S i), y.
  - intros _. by exists 0, x.
Qed.

Lemma is_empty_stack_of (b : Board) (p : MovablePiece) (st : list Piece) :
  is_empty b = true → stack_of b p = Some st → st = [].
Proof.
  unfold is_empty, stack_of. repeat case_bool_decide; try done.
  intros Hrows.
  destruct (row_ix p) as [r| | |];
    [|by intros [= <-]..].
  destruct (rows b !! r) as [row|] eqn:Hrow; [simpl|done].
  destruct (col_ix p) as [c|]; [simpl|done]. intros Hc.
  rewrite forallb_forall in Hrows.
  apply list_elem_of_lookup_2, list_elem_of_In, Hrows in Hrow.
  rewrite forallb_forall in Hrow.
  apply list_elem_of_lookup_2, list_elem_of_In, Hrow in Hc.
  by apply bool_decide_eq_true in Hc.
Qed.

(** X13. [find_movable_pieces] returns the empty list exactly when the
    board is empty: as long as a piece is left, some piece is offered. *)
Theorem find_movable_pieces_nil (b : Board) :
  find_movable_pieces b = Some [] ↔ is_empty b = true.
Proof.
  split.
  - intros (acc & Hfold & Hel)%find_movable_pieces_unfold.
    assert (∀ l : list Piece, l = [] ∨ ∃ x, peek l = Some x) as Hpeek.
    { intros l. destruct (decide (l = [])) as [|[x ?]%peek_is_Some]; eauto. }
    destruct (Hpeek (top b)) as [Htop|[x Hx]];
      [|exfalso; eapply elem_of_nil, Hel; eauto 6].
    destruct (Hpeek (left_blocks b)) as [Hleft|[x Hx]];
      [|exfalso; eapply elem_of_nil, Hel; eauto 6].
    destruct (Hpeek (right_blocks b)) as [Hright|[x Hx]];
      [|exfalso; eapply elem_of_nil, Hel; eauto 6].
    destruct (is_empty b) eqn:Hempty; [done|exfalso].
    unfold is_empty in Hempty. rewrite Htop, Hleft, Hright in Hempty.
    rewrite !bool_decide_eq_false_2 in Hempty by (by intros []).
    apply forallb_false_lookup in Hempty as (r & row & Hrow & Hstacks).
    destruct (list_find (λ stack : list Piece, stack ≠ []) row)
      as [[c stack]|] eqn:Hfind.
    + apply list_find_Some in Hfind as (Hc & Hne & Hfirst).
      destruct (peek_is_Some stack Hne) as [x Hx].
      eapply elem_of_nil, Hel. left.
      apply (scan_rows_row_ends b acc r c row stack x); try done.
      left. split; [|by eapply is_movable_no_piles].
      intros c' Hlt.
      destruct (lookup_lt_is_Some_2 row c') as [y Hy];
        [apply lookup_lt_Some in Hc; lia|].
      rewrite Hy. f_equal. destruct (decide (y = [])) as [|Hy']; [done|].
      by destruct (Hfirst c' y Hy Hlt).
    + apply list_find_None in Hfind.
      apply forallb_false_lookup in Hstacks as (c & stack & Hc & Hne).
      apply bool_decide_eq_false in Hne.
      rewrite Forall_forall in Hfind.
      by destruct (Hfind stack (list_elem_of_lookup_2 _ _ _ Hc)).
  - intros Hempty.
    destruct (find_movable_pieces_inv b) as (mps & Hmps & _ & Hdesc).
    rewrite Hmps. f_equal. destruct mps as [|p mps]; [done|exfalso].
    apply Forall_cons in Hdesc as [Hp%describes_at_top _].
    destruct Hp as (stack & Hstack & [st ->]%peek_Some).
    apply (is_empty_stack_of b p _ Hempty) in Hstack. by destruct st.
Qed.

(** ** The shuffle of [fill] *)

Lemma shuffle_steps_ext {A} (rand rand' : nat → nat) (ixs : list nat)
    (acc : option (list A)) :
  (∀ i, i ∈ ixs → rand i = rand' i) →
  foldl (λ acc i, l ← acc; swap i (i + rand i) l) acc ixs
  = foldl (λ acc i, l ← acc; swap i (i + rand' i) l) acc ixs.
Proof.
  revert acc. induction ixs as [|i ixs IH]; intros acc Hext; [done|].
  simpl. rewrite (Hext i) by left. apply IH. intros j Hj. apply Hext. by right.
Qed.

(** The first [n] steps of the shuffle can put any arrangement's first [n]
    entries in place. *)
Lemma shuffle_steps_complete {A} (l l' : list A) (n : nat) :
  l' ≡ₚ l → n ≤ length l →
  ∃ rand cur,
    (∀ i, i < length l → rand i < length l - i)
    ∧ foldl (λ acc i, l ← acc; swap i (i + rand i) l) (Some l) (seq 0 n)
      = Some cur
    ∧ take n cur = take n l' ∧ cur ≡ₚ l.
Proof.
  intros Hperm. induction n as [|n IH]; intros Hn.
  { exists (λ _, 0), l. split_and!; try done. intros i Hi. lia. }
  destruct IH as (rand & cur & Hrand & Hfold & Htake & Hcur); [lia|].
  assert (length cur = length l) as Hlen by by rewrite Hcur.
  assert (length l' = length l) as Hlen' by by rewrite Hperm.
  destruct (lookup_lt_is_Some_2 l' n) as [x Hx]; [lia|].
  assert (∃ k, cur !! (n + k) = Some x) as [k Hk].
  { assert (x ∈ drop n cur) as [k Hk]%list_elem_of_lookup.
    { assert (drop n cur ≡ₚ drop n l') as ->.
      { apply (Permutation_app_inv_l (take n cur)).
        rewrite take_drop, Htake, take_drop. by rewrite Hcur, Hperm. }
      apply list_elem_of_lookup. exists 0.
      by rewrite lookup_drop, Nat.add_0_r. }
    exists k. by rewrite lookup_drop in Hk. }
  assert (n + k < length l) as Hk' by (apply lookup_lt_Some in Hk; lia).
  destruct (lookup_lt_is_Some_2 cur n) as [y Hy]; [lia|].
  exists (λ i, if decide (i = n) then k else rand i),
         (<[n + k := y]> (<[n := x]> cur)).
  split_and!.
  - intros i Hi. case_decide; [subst; lia|by apply Hrand].
  - rewrite seq_S, foldl_app; simpl.
    rewrite <-(shuffle_steps_ext rand), Hfold; simpl.
    + rewrite decide_True by done. unfold swap. by rewrite Hy, Hk.
    + intros i Hi%elem_of_seq. rewrite decide_False by lia. done.
  - rewrite (take_S_r l' n x) by done.
    rewrite (take_S_r _ n x).
    + by rewrite !take_insert_ge, Htake by lia.
    + destruct (decide (k = 0)) as [->|Hne].
      * rewrite Nat.add_0_r in Hk |- *. rewrite list_insert_insert_eq.
        rewrite list_lookup_insert_eq by lia. congruence.
      * rewrite list_lookup_insert_ne by lia.
        apply list_lookup_insert_eq. lia.
  - rewrite <-Hcur. apply (swap_Permutation n (n + k)).
    unfold swap. by rewrite Hy, Hk.
Qed.

(** X14. The shuffle loop of [fill] is exact: with every draw in its range
    it returns a rearrangement of the pieces it is given, and every
    rearrangement is returned for some draws. *)
Theorem shuffle_arrangements {A} (l l' : list A) :
  l' ≡ₚ l ↔
  ∃ rand, (∀ i, i < length l → rand i < length l - i)
          ∧ shuffle rand l = Some l'.
Proof.
  split.
  - intros Hperm.
    destruct (shuffle_steps_complete l l' (length l) Hperm)
      as (rand & cur & Hrand & Hfold & Htake & Hcur); [done|].
    exists rand. split; [done|]. unfold shuffle. rewrite Hfold. f_equal.
    rewrite <-(take_ge cur (length l)), <-(take_ge l' (length l)); [done|..].
    + by rewrite Hperm.
    + by rewrite Hcur.
  - intros (rand & _ & Hl'). by eapply shuffle_Permutation.
Qed.

(** ** [monte_carlo_search] *)

Lemma plays_total_pieces (b b' : Board) (ms : list Move) :
  plays b ms b' → total_pieces b = total_pieces b' + 2 * length ms.
Proof.
  induction 1 as [|b mps m b1 ms b' _ _ Hdo _ IH]; simpl; [lia|].
  apply do_move_frame in Hdo as [_ Hdo]. lia.
Qed.

Lemma plays_reachable (b b' : Board) (ms : list Move) :
  plays b ms b' → reachable b → reachable b'.
Proof.
  induction 1 as [|b mps m b1 ms b' Hmps Hm Hdo _ IH]; [done|].
  intros Hb. apply IH. by eapply reachable_move.
Qed.

Lemma plays_snoc (b b1 b' : Board) (ms : list Move) (mps : list MovablePiece)
    (m : Move) :
  plays b ms b1 → find_movable_pieces b1 = Some mps → m ∈ find_moves mps →
  do_move b1 m = Some b' → plays b (ms ++ [m]) b'.
Proof.
  induction 1 as [|b mps0 m0 b0 ms b1 Hmps0 Hm0 Hdo0 _ IH]; intros Hmps Hm Hdo.
  - simpl. eapply plays_cons; [done..|constructor].
  - simpl. eapply plays_cons; [done..|]. by apply IH.
Qed.

(** A move [find_moves] offers can be made. *)
Lemma find_moves_do_move (b : Board) (mps : list MovablePiece) (m : Move) :
  find_movable_pieces b = Some mps → m ∈ find_moves mps →
  is_Some (do_move b m).
Proof.
  intros Hmps Hm.
  destruct (find_moves_exposed b mps m Hmps Hm) as [Hexp _].
  destruct (do_move_Permutation b m Hexp) as (b' & Hdo & _). by exists b'.
Qed.

(** What a run that returns has done. *)
Lemma monte_carlo_search_Returned (rand : nat → nat → nat) (fuel k : nat)
    (s s' : MonteCarloSearcher) :
  monte_carlo_search rand fuel k s = Returned s' →
  ∃ ms, plays (board (base s)) ms (board (base s'))
        ∧ max_depth s' = max_depth s + length ms
        ∧ base s' = with_board (board (base s')) (base s)
        ∧ (is_empty (board (base s')) = true
           ∨ ∃ mps, find_movable_pieces (board (base s')) = Some mps
                    ∧ find_moves mps = []).
Proof.
  revert k s. induction fuel as [|fuel IH]; intros k s; [done|].
  cbn [monte_carlo_search].
  destruct (is_empty (board (base s))) eqn:Hempty.
  { intros [= <-]. exists []. split_and!; [constructor|simpl; lia| |by left].
    by destruct s as [[]]. }
  destruct (find_movable_pieces (board (base s))) as [mps|] eqn:Hmps; [|done].
  cbn [lift mbind outcome_bind].
  destruct (decide (find_moves mps = [])) as [Hnil|Hne].
  { intros [= <-]. exists []. split_and!; [constructor|simpl; lia| |by eauto].
    by destruct s as [[]]. }
  destruct (find_moves mps !! rand k (length (find_moves mps)))
    as [move|] eqn:Hmove; [|done].
  cbn [lift mbind outcome_bind].
  destruct (do_move (board (base s)) move) as [b1|] eqn:Hdo; [|done].
  cbn [lift mbind outcome_bind].
  intros (ms & Hplays & Hdepth & Hbase & Hend)%IH. simpl in *.
  exists (move :: ms). split_and!; [|simpl; lia|done|done].
  eapply plays_cons; [done| |done..]. by eapply list_elem_of_lookup_2.
Qed.

(** A run returns when the draws are in range and the budget is large
    enough. *)
Lemma monte_carlo_search_is_Returned (rand : nat → nat → nat) (fuel k : nat)
    (s : MonteCarloSearcher) :
  (∀ k n, 0 < n → rand k n < n) →
  total_pieces (board (base s)) < 2 * fuel →
  ∃ s', monte_carlo_search rand fuel k s = Returned s'.
Proof.
  intros Hrand. revert k s. induction fuel as [|fuel IH]; intros k s Hfuel;
    [lia|].
  cbn [monte_carlo_search].
  destruct (is_empty (board (base s))); [by eauto|].
  destruct (find_movable_pieces_inv (board (base s))) as (mps & Hmps & _).
  rewrite Hmps. cbn [lift mbind outcome_bind].
  destruct (decide (find_moves mps = [])) as [Hnil|Hne]; [by eauto|].
  destruct (lookup_lt_is_Some_2 (find_moves mps)
              (rand k (length (find_moves mps)))) as [move Hmove].
  { apply Hrand. destruct (find_moves mps); [done|simpl; lia]. }
  rewrite Hmove. cbn [lift mbind outcome_bind].
  destruct (find_moves_do_move _ mps move Hmps) as [b1 Hdo];
    [by eapply list_elem_of_lookup_2|].
  rewrite Hdo. cbn [lift mbind outcome_bind].
  apply IH. simpl. apply do_move_frame in Hdo as [_ Hdo]. lia.
Qed.

(** X15. [monte_carlo_search] stops: with every draw in its range it
    returns after at most half as many moves as there are pieces. When it
    returns, it has played [max_depth] moves that [find_moves] offered one
    after the other, the board is what these moves leave, it is empty or
    has no move left, and nothing else of the searcher has changed. *)
Theorem monte_carlo_search_returns (rand : nat → nat → nat) (fuel k : nat)
    (s : MonteCarloSearcher) :
  (∀ k n, 0 < n → rand k n < n) →
  total_pieces (board (base s)) < 2 * fuel →
  ∃ s' ms,
    monte_carlo_search rand fuel k s = Returned s'
    ∧ plays (board (base s)) ms (board (base s'))
    ∧ max_depth s' = max_depth s + length ms
    ∧ base s' = with_board (board (base s')) (base s)
    ∧ (is_empty (board (base s')) = true
       ∨ ∃ mps, find_movable_pieces (board (base s')) = Some mps
                ∧ find_moves mps = []).
Proof.
  intros Hrand Hfuel.
  destruct (monte_carlo_search_is_Returned rand fuel k s Hrand Hfuel)
    as [s' Hs'].
  destruct (monte_carlo_search_Returned _ _ _ _ _ Hs') as (ms & H).
  by exists s', ms.
Qed.

Lemma monte_carlo_search_returns_witness :
  ∃ s' ms,
    monte_carlo_search (λ _ _, 0) 2 0 (new_monte_carlo two_cell_board)
    = Returned s'
    ∧ plays two_cell_board ms (board (base s'))
    ∧ max_depth s' = 0 + length ms
    ∧ base s' = with_board (board (base s')) (new_searcher two_cell_board)
    ∧ (is_empty (board (base s')) = true
       ∨ ∃ mps, find_movable_pieces (board (base s')) = Some mps
                ∧ find_moves mps = []).
Proof.
  apply (monte_carlo_search_returns (λ _ _, 0) 2 0
           (new_monte_carlo two_cell_board)).
  - intros _ n Hn. exact Hn.
  - vm_compute. lia.
Defined.

(** X16. The driver's test for a solved board: on a freshly filled board
    a run of [monte_carlo_search] that returns has [max_depth] at most 72,
    and [max_depth] is 72 exactly when the run has emptied the board. *)
Theorem monte_carlo_search_solved (deal : nat → nat) (rand : nat → nat → nat)
    (fuel k : nat) (b : Board) (s' : MonteCarloSearcher) :
  fill deal new_board = Some b →
  monte_carlo_search rand fuel k (new_monte_carlo b) = Returned s' →
  max_depth s' ≤ 72
  ∧ (max_depth s' = 72 ↔ is_empty (board (base s')) = true).
Proof.
  intros Hfill (ms & Hplays & Hdepth & _)%monte_carlo_search_Returned.
  simpl in Hplays, Hdepth. apply plays_total_pieces in Hplays.
  destruct (fill_new_board_spec _ _ Hfill) as (_ & _ & _ & _ & Hall).
  assert (total_pieces b = 144) as Htotal.
  { unfold total_pieces. by rewrite Hall. }
  rewrite is_empty_total_pieces. lia.
Qed.

(** A run on [sample_board] that gets stuck after 35 moves. *)
Lemma monte_carlo_search_solved_witness :
  ∃ s', monte_carlo_search (λ _ _, 0) 73 0 (new_monte_carlo sample_board)
        = Returned s'
        ∧ max_depth s' = 35
        ∧ max_depth s' ≤ 72
        ∧ (max_depth s' = 72 ↔ is_empty (board (base s')) = true).
Proof.
  eexists. split; [vm_compute; reflexivity|]. split; [reflexivity|].
  apply (monte_carlo_search_solved (λ _, 0) (λ _ _, 0) 73 0 sample_board);
    vm_compute; reflexivity.
Defined.


(** ** What [backtracking_search] records *)

Lemma foldl_outcome_not_Returned {A B} (f : A → B → outcome A) (l : list B)
    (o : outcome A) :
  (∀ a, o ≠ Returned a) →
  ∀ a, foldl (λ acc x, s ← acc; f s x) o l ≠ Returned a.
Proof.
  revert o. induction l as [|x l IH]; intros o Ho; [done|].
  simpl. apply IH. intros a.
  destruct o as [a0| |]; simpl; [by destruct (Ho a0)|done..].
Qed.

Lemma foldl_outcome_Returned_inv {A B} (P : A → Prop) (f : A → B → outcome A)
    (l : list B) (a a' : A) :
  foldl (λ acc x, s ← acc; f s x) (Returned a) l = Returned a' → P a →
  (∀ a x a1, x ∈ l → P a → f a x = Returned a1 → P a1) → P a'.
Proof.
  revert a. induction l as [|x l IH]; intros a; simpl.
  - by intros [= <-].
  - destruct (f a x) as [a1| |] eqn:Ha1.
    + intros Hfold Ha Hstep. apply (IH a1 Hfold).
      * eapply Hstep; [left|done..].
      * intros a0 x0 a2 Hx0. apply Hstep. by right.
    + intros Hfold. by apply foldl_outcome_not_Returned in Hfold.
    + intros Hfold. by apply foldl_outcome_not_Returned in Hfold.
Qed.

Lemma visit_Returned (search : BoardSearcher → outcome BoardSearcher)
    (n ix : nat) (s s' : BoardSearcher) (move : Move) :
  visit search n s ix move = Returned s' →
  ∃ b1 s2,
    do_move (board s) move = Some b1
    ∧ search (mkSearcher b1 (moves s ++ [move]) (trail s ++ [(ix, n)])
                (solutions s) (seen_states s) (stats_calls s)
                (history s ++ [Do move])) = Returned s2
    ∧ solutions s' = solutions s2 ∧ seen_states s' = seen_states s2
    ∧ stats_calls s' = stats_calls s2.
Proof.
  unfold visit.
  destruct (do_move (board s) move) as [b1|]; [|done].
  cbn [lift mbind outcome_bind].
  destruct (search _) as [s2| |] eqn:Hsearch; [|done..].
  cbn [lift mbind outcome_bind].
  destruct (undo_move (board s2) move) as [b2|]; [|done].
  cbn [lift mbind outcome_bind].
  destruct (pop (moves s2)) as [[moves2 ?]|]; [|done].
  cbn [lift mbind outcome_bind].
  destruct (pop (trail s2)) as [[trail2 ?]|]; [|done].
  cbn [lift mbind outcome_bind].
  intros [= <-]. by exists b1, s2.
Qed.

Lemma print_stats_Returned (s s' : BoardSearcher) :
  print_stats s = Returned s' →
  s' = mkSearcher (board s) (moves s) (trail s) (solutions s)
                  (seen_states s) (stats_calls s + 1) (history s).
Proof.
  intros Heq. pose proof (print_stats_outcome s) as H. by rewrite Heq in H.
Qed.

Lemma backtracking_search_adds (fuel : nat) (s s' : BoardSearcher) :
  backtracking_search fuel s = Returned s' → search_adds s s'.
Proof.
  revert s s'. induction fuel as [|fuel IH]; intros s s'; [done|].
  cbn [backtracking_search].
  destruct (is_empty (board s)) eqn:Hempty.
  { intros ->%print_stats_Returned. unfold search_adds; simpl.
    split_and!; try done.
    - intros sol Hsol. apply elem_of_set_add. by right.
    - lia.
    - intros sol [->|Hsol]%elem_of_set_add; [right|by left].
      exists [], (board s). split_and!; [by rewrite app_nil_r|constructor|done].
    - congruence. }
  destruct (decide (get_state (board s) ∈ seen_states s)) as [Hseen|Hseen].
  { intros [= <-]. unfold search_adds. split_and!; try done. by left. }
  cbn [board].
  destruct (find_movable_pieces (board s)) as [mps|] eqn:Hmps; [|done].
  cbn [lift mbind outcome_bind].
  destruct (decide (find_moves mps = [])) as [Hnil|Hne].
  { intros ->%print_stats_Returned. unfold search_adds; simpl.
    split_and!; try done.
    - set_solver.
    - lia.
    - by left.
    - set_solver. }
  set (s0 := mkSearcher (board s) (moves s) (trail s) (solutions s)
               ({[get_state (board s)]} ∪ seen_states s) (stats_calls s)
               (history s)).
  intros Hfold.
  assert (search_inv s0 s' ∧ search_adds s0 s') as [_ Hadds].
  { apply (foldl_outcome_Returned_inv
             (λ s1, search_inv s0 s1 ∧ search_adds s0 s1) _ _ _ _ Hfold).
    - split; [apply search_inv_refl|].
      unfold search_adds; simpl. split_and!; try done; [by left|set_solver].
    - intros s1 [ix move] s2 Hin%elem_of_zip_r [Hinv Hadds] Hvisit.
      simpl in Hvisit.
      destruct (find_moves_exposed (board s) mps move Hmps Hin)
        as [Hexp Hsym].
      assert (board s1 = board s) as Hboard by apply Hinv.
      assert (moves s1 = moves s) as Hmoves by apply Hinv.
      split.
      + rewrite <-Hboard in Hexp.
        pose proof (visit_outcome (backtracking_search fuel) fuel
                      (length (find_moves mps)) ix s0 s1 move
                      (backtracking_search_outcome fuel)) as Hout.
        rewrite Hvisit in Hout.
        apply Hout; [by destruct (find_moves mps)|done..].
      + apply visit_Returned in Hvisit
          as (b1 & s3 & Hdo & Hsearch & Hsol & Hseen' & Hstats).
        apply IH in Hsearch as (Hsol3 & Hseen3 & Hstats3 & Hnew3 & _).
        destruct Hadds as (Hsol1 & Hseen1 & Hstats1 & Hnew1 & Hstate1).
        simpl in Hsol3, Hseen3, Hstats3, Hnew3.
        unfold search_adds. rewrite Hsol, Hseen', Hstats.
        split_and!.
        * by etrans.
        * by etrans.
        * lia.
        * intros sol [Hin1|(ms & b' & -> & Hplays & Hb')]%Hnew3;
            [by apply Hnew1|right].
          exists (move :: ms), b'. simpl. rewrite Hmoves, Hboard in *.
          split_and!; [by rewrite <-(assoc (++))| |done].
          by eapply plays_cons.
        * intros Hne'. by apply Hseen3, Hstate1. }
  destruct Hadds as (Hsol & Hseen' & Hstats & Hnew & Hstate).
  unfold search_adds. simpl in *. split_and!; try done. set_solver.
Qed.

(** X17. Every solution [backtracking_search] records is sound: it is the
    path the call started with, followed by moves that [find_moves]
    offered one after the other and that empty the board, half as many as
    there were pieces. *)
Theorem backtracking_search_solutions (fuel : nat) (s s' : BoardSearcher) :
  backtracking_search fuel s = Returned s' →
  ∀ sol, sol ∈ solutions s' →
    sol ∈ solutions s
    ∨ ∃ ms b', sol = moves s ++ ms ∧ plays (board s) ms b'
               ∧ is_empty b' = true
               ∧ 2 * length ms = total_pieces (board s).
Proof.
  intros (_ & _ & _ & Hnew & _)%backtracking_search_adds sol
    [Hin|(ms & b' & -> & Hplays & Hb')]%Hnew; [by left|right].
  exists ms, b'. split_and!; try done.
  apply plays_total_pieces in Hplays.
  apply is_empty_total_pieces in Hb'. lia.
Qed.

(** On the eight-row board with one pair the one solution is the one
    move. *)
Lemma backtracking_search_solutions_witness :
  ∃ s', backtracking_search 2 (new_searcher pair_board) = Returned s'
        ∧ solutions s' = [[pair_move]]
        ∧ ∀ sol, sol ∈ solutions s' →
            sol ∈ []
            ∨ ∃ ms b', sol = [] ++ ms ∧ plays pair_board ms b'
                       ∧ is_empty b' = true
                       ∧ 2 * length ms = total_pieces pair_board.
Proof.
  eexists. split; [vm_compute; reflexivity|]. split; [reflexivity|].
  apply (backtracking_search_solutions 2 (new_searcher pair_board)).
  vm_compute. reflexivity.
Defined.

(** X18. A call of [backtracking_search] that returns leaves the current
    path and the trail as it found them, and only adds to what the
    searcher has collected: no solution and no seen state is dropped, and
    [stats_calls] does not decrease. *)
Theorem backtracking_search_grows (fuel : nat) (s s' : BoardSearcher) :
  backtracking_search fuel s = Returned s' →
  moves s' = moves s ∧ trail s' = trail s
  ∧ solutions s ⊆ solutions s' ∧ seen_states s ⊆ seen_states s'
  ∧ stats_calls s ≤ stats_calls s'.
Proof.
  intros Hret.
  destruct (backtracking_search_adds _ _ _ Hret)
    as (Hsol & Hseen & Hstats & _ & _).
  pose proof (backtracking_search_outcome fuel s) as Hout.
  rewrite Hret in Hout. destruct Hout as (_ & Hmoves & Htrail & _). done.
Qed.

(** On the eight-row board with one pair. *)
Lemma backtracking_search_grows_witness :
  ∃ s', backtracking_search 2 (new_searcher pair_board) = Returned s'
        ∧ moves s' = [] ∧ trail s' = []
        ∧ [] ⊆ solutions s' ∧ ∅ ⊆ seen_states s' ∧ 0 ≤ stats_calls s'.
Proof.
  eexists. split; [vm_compute; reflexivity|].
  apply (backtracking_search_grows 2 (new_searcher pair_board)).
  vm_compute. reflexivity.
Defined.

(** X19. A position is searched once: after a call on a board that is not
    empty the state of that board is among the seen states, and calling
    [backtracking_search] again on the searcher the call returned comes
    back at once with nothing changed. *)
Theorem backtracking_search_again (fuel fuel' : nat) (s s' : BoardSearcher) :
  is_empty (board s) = false →
  backtracking_search fuel s = Returned s' →
  get_state (board s) ∈ seen_states s'
  ∧ backtracking_search (S fuel') s' = Returned s'.
Proof.
  intros Hempty Hret.
  destruct (backtracking_search_adds _ _ _ Hret) as (_ & _ & _ & _ & Hstate).
  pose proof (backtracking_search_outcome fuel s) as Hout.
  rewrite Hret in Hout. destruct Hout as (Hboard & _).
  split; [by apply Hstate|].
  cbn [backtracking_search]. rewrite Hboard, Hempty.
  rewrite decide_True by (by apply Hstate). done.
Qed.

(** On the eight-row board with one pair. *)
Lemma backtracking_search_again_witness :
  ∃ s', backtracking_search 2 (new_searcher pair_board) = Returned s'
        ∧ get_state pair_board ∈ seen_states s'
        ∧ backtracking_search 1 s' = Returned s'.
Proof.
  eexists. split; [vm_compute; reflexivity|].
  apply (backtracking_search_again 2 0 (new_searcher pair_board));
    vm_compute; reflexivity.
Defined.


(** ** [backtracking_search] finds a solution when there is one *)

Lemma plays_app (b b1 b2 : Board) (ms1 ms2 : list Move) :
  plays b ms1 b1 → plays b1 ms2 b2 → plays b (ms1 ++ ms2) b2.
Proof.
  induction 1 as [|b mps m b0 ms b1 Hmps Hm Hdo _ IH]; [done|].
  intros H2. simpl. eapply plays_cons; [done..|]. by apply IH.
Qed.

Lemma foldl_outcome_Returned_prefix {A B} (P : list B → A → Prop)
    (f : A → B → outcome A) (l : list B) (a a' : A) :
  foldl (λ acc x, s ← acc; f s x) (Returned a) l = Returned a' → P [] a →
  (∀ l1 x a a1, x ∈ l → P l1 a → f a x = Returned a1 → P (l1 ++ [x]) a1) →
  P l a'.
Proof.
  intros Hfold Ha Hstep.
  enough (∀ l0 a, P l0 a →
            foldl (λ acc x, s ← acc; f s x) (Returned a) l = Returned a' →
            P (l0 ++ l) a') as Hgen by by apply (Hgen [] a).
  clear a Hfold Ha. induction l as [|x l IH]; intros l0 a Ha; simpl.
  - intros [= <-]. by rewrite app_nil_r.
  - destruct (f a x) as [a1| |] eqn:Ha1.
    + intros Hfold. rewrite cons_middle, (assoc (++)).
      apply (IH (λ l1 y a0 a2 Hy, Hstep l1 y a0 a2 (list_elem_of_further _ _ _ Hy))
               (l0 ++ [x]) a1); [|done].
      eapply Hstep; [left|done..].
    + intros Hfold. by apply foldl_outcome_not_Returned in Hfold.
    + intros Hfold. by apply foldl_outcome_not_Returned in Hfold.
Qed.

Lemma elem_of_zip_seq {A} (l : list A) (x : A) :
  x ∈ l → ∃ i, (i, x) ∈ zip (seq 0 (length l)) l.
Proof.
  intros [i Hi]%list_elem_of_lookup. exists i.
  apply list_elem_of_lookup. exists i.
  apply lookup_zip_with_Some. exists i, x. split_and!; [done| |done].
  apply lookup_seq. split; [done|]. by eapply lookup_lt_Some.
Qed.

Lemma subseteq_not_nil {A} (l k : list A) : l ⊆ k → l ≠ [] → k ≠ [].
Proof.
  intros Hsub Hl ->. destruct l as [|x l]; [done|].
  by apply (not_elem_of_nil x), Hsub; left.
Qed.

Lemma backtracking_search_finished (b0 : Board) (fuel : nat)
    (s s' : BoardSearcher) :
  no_collision b0 → position b0 (board s) →
  finished b0 s (S (total_pieces (board s))) →
  backtracking_search fuel s = Returned s' →
  finished b0 s' (S (total_pieces (board s)))
  ∧ (solvable (board s) → solutions s' ≠ [])
  ∧ seen_below s s'.
Proof.
  intros Hinj. revert s s'.
  induction fuel as [|fuel IH]; intros s s' Hpos Hpre; [done|].
  cbn [backtracking_search].
  destruct (is_empty (board s)) eqn:Hempty.
  { intros ->%print_stats_Returned. simpl.
    assert (set_add (moves s) (solutions s) ≠ []) as Hne.
    { intros Hnil. apply (not_elem_of_nil (moves s)). rewrite <-Hnil.
      apply elem_of_set_add. by left. }
    split_and!; [by intros c _ _ _ _|done|by left]. }
  destruct (decide (get_state (board s) ∈ seen_states s)) as [Hseen|Hseen].
  { intros [= <-]. split_and!; [done| |by left].
    intros Hsolv. apply (Hpre (board s)); [done|done|lia|done]. }
  cbn [board].
  destruct (find_movable_pieces (board s)) as [mps|] eqn:Hmps; [|done].
  cbn [lift mbind outcome_bind].
  set (b := board s) in *. set (T := total_pieces b) in *.
  assert (¬ solvable b ∨ find_moves mps ≠ []) as Hstuck.
  { destruct (decide (find_moves mps = [])) as [Hnil|?]; [left|by right].
    intros (ms & c' & Hplays & Hc'). inversion Hplays as [|? mps' m]; subst.
    - congruence.
    - assert (mps' = mps) as -> by congruence.
      rewrite Hnil in *. by eapply not_elem_of_nil. }
  assert (∀ c, position b0 c → get_state c = get_state b → c = b) as Hself.
  { intros c Hc Hst. by apply Hinj. }
  destruct (decide (find_moves mps = [])) as [Hnil|Hne].
  { intros ->%print_stats_Returned. destruct Hstuck as [Hstuck|?]; [|done].
    split_and!; simpl.
    - intros c Hc Hst Hlt Hsolv. simpl in Hst |- *.
      apply elem_of_union in Hst as [Hst%elem_of_singleton|Hin].
      + apply Hself in Hst; [|done]. by subst c.
      + by apply (Hpre c).
    - done.
    - intros st Hst. simpl in Hst.
      apply elem_of_union in Hst as [->%elem_of_singleton|Hin]; [right|by left].
      exists [], b. split; [constructor|done]. }
  set (s0 := mkSearcher b (moves s) (trail s) (solutions s)
               ({[get_state b]} ∪ seen_states s) (stats_calls s)
               (history s)).
  intros Hfold.
  pose (Q := λ (l1 : list (nat * Move)) (s1 : BoardSearcher),
          search_inv s0 s1 ∧ solutions s0 ⊆ solutions s1
          ∧ finished b0 s1 (T - 1) ∧ seen_below s0 s1
          ∧ ∀ im b1, im ∈ l1 → do_move b im.2 = Some b1 →
                     solvable b1 → solutions s1 ≠ []).
  assert (Q (zip (seq 0 (length (find_moves mps))) (find_moves mps)) s')
    as (_ & Hsol & Hfin & Hbelow & Hkids).
  { apply (foldl_outcome_Returned_prefix Q _ _ _ _ Hfold).
    - unfold Q. split_and!.
      + apply search_inv_refl.
      + done.
      + intros c Hc Hst Hlt Hsolv. simpl in Hst |- *.
        apply elem_of_union in Hst as [Hst%elem_of_singleton|Hin].
        * apply Hself in Hst; [|done]. subst c. unfold T in Hlt. lia.
        * apply (Hpre c); [done..|lia|done].
      + intros st Hst. by left.
      + by intros im b1 ?%elem_of_nil.
    - intros l1 [ix m] s1 s2 Hin%elem_of_zip_r
        (Hinv & Hsol1 & Hfin1 & Hbelow1 & Hkids1) Hvisit.
      simpl in Hvisit.
      destruct (find_moves_exposed b mps m Hmps Hin) as [Hexp Hsym].
      assert (board s1 = b) as Hboard by apply Hinv.
      assert (search_inv s0 s2) as Hinv2.
      { rewrite <-Hboard in Hexp.
        pose proof (visit_outcome (backtracking_search fuel) fuel
                      (length (find_moves mps)) ix s0 s1 m
                      (backtracking_search_outcome fuel)) as Hout.
        rewrite Hvisit in Hout.
        apply Hout; [by destruct (find_moves mps)|done..]. }
      apply visit_Returned in Hvisit
        as (b1 & s3 & Hdo & Hsearch & Hsol3 & Hseen3 & _).
      rewrite Hboard in Hdo.
      destruct (do_move_frame b b1 m Hdo) as [_ Htot].
      pose proof (backtracking_search_adds _ _ _ Hsearch)
        as (Hsub & _ & _ & _ & _). simpl in Hsub.
      apply IH in Hsearch as (Hfin3 & Hkey3 & Hbelow3); simpl.
      + simpl in Hfin3, Hkey3, Hbelow3. unfold Q. split_and!.
        * done.
        * rewrite Hsol3. by etrans.
        * replace (S (total_pieces b1)) with (T - 1) in Hfin3 by (unfold T; lia).
          unfold finished. rewrite Hsol3, Hseen3. exact Hfin3.
        * intros st Hst. rewrite Hseen3 in Hst.
          destruct (Hbelow3 st Hst) as [Hst1|(ms & d & Hplays & ->)];
            [by apply Hbelow1|right].
          exists (m :: ms), d. split; [|done]. by eapply plays_cons.
        * rewrite Hsol3.
          intros im b1' [Him| ->%list_elem_of_singleton]%elem_of_app Hdo' Hsolv.
          -- eapply subseteq_not_nil; [exact Hsub|]. by eapply Hkids1.
          -- simpl in Hdo'. assert (b1' = b1) as -> by congruence.
             by apply Hkey3.
      + destruct Hpos as [ms0 Hms0]. exists (ms0 ++ [m]).
        by eapply plays_snoc.
      + replace (S (total_pieces b1)) with (T - 1) by (unfold T; lia).
        exact Hfin1. }
  assert (solvable b → solutions s' ≠ []) as Hkey.
  { intros (ms & c' & Hplays & Hc'). inversion Hplays as [|? mps' m b1]; subst.
    - congruence.
    - assert (mps' = mps) as -> by congruence.
      destruct (elem_of_zip_seq (find_moves mps) m) as [ix Hix]; [done|].
      apply (Hkids (ix, m) b1); [done..|]. by exists ms0, c'. }
  split_and!; [|done|].
  - intros c Hc Hst Hlt Hsolv.
    destruct (Hbelow _ Hst) as [Hst0|(ms & d & Hplays & Hd)];
      [simpl in Hst0;
       apply elem_of_union in Hst0 as [Hst0%elem_of_singleton|Hin]|].
    + apply Hself in Hst0; [|done]. subst c. by apply Hkey.
    + eapply subseteq_not_nil; [exact Hsol|]. by apply (Hpre c).
    + simpl in Hplays. assert (c = d) as ->.
      { apply Hinj; [done| |done]. destruct Hpos as [ms0 Hms0].
        exists (ms0 ++ ms). by eapply plays_app. }
      destruct ms as [|m ms].
      * inversion Hplays; subst. by apply Hkey.
      * apply plays_total_pieces in Hplays as Htot. simpl in Htot.
        apply (Hfin d); [done..| |done]. unfold T. lia.
  - intros st Hst.
    destruct (Hbelow _ Hst) as [Hst0|Hd]; [|by right].
    simpl in Hst0.
    apply elem_of_union in Hst0 as [->%elem_of_singleton|Hin]; [right|by left].
    exists [], b. split; [constructor|done].
Qed.

(** *** Positions of one game are told apart by their shape *)

Lemma stack_of_remove_piece_prefix (b b' : Board) (p q : MovablePiece)
    (s' : list Piece) :
  remove_piece b p = Some b' → stack_of b' q = Some s' →
  ∃ s, stack_of b q = Some s ∧ s' `prefix_of` s.
Proof.
  intros (st & x & Hst & ->)%remove_piece_Some Hq.
  destruct (decide (place p = place q)) as [Heq|Hne].
  - rewrite <-(place_eq_stack_of (set_stack b p st) p q Heq) in Hq.
    rewrite <-(place_eq_stack_of b p q Heq).
    rewrite (stack_of_set_stack_eq _ _ _ _ Hst) in Hq. injection Hq as <-.
    exists (st ++ [x]). split; [done|]. by apply prefix_app_r.
  - rewrite stack_of_set_stack_ne in Hq by done. by exists s'.
Qed.

Lemma stack_of_plays_prefix (b c : Board) (ms : list Move) (q : MovablePiece)
    (s' : list Piece) :
  plays b ms c → stack_of c q = Some s' →
  ∃ s, stack_of b q = Some s ∧ s' `prefix_of` s.
Proof.
  induction 1 as [|b mps m b1 ms c _ _ Hdo _ IH]; intros Hq; [by exists s'|].
  destruct (IH Hq) as (s1 & Hs1 & Hpre1).
  unfold do_move in Hdo.
  destruct (remove_piece b m.1) as [b0|] eqn:H1; [simpl in Hdo|done].
  destruct (stack_of_remove_piece_prefix _ _ _ q s1 Hdo Hs1)
    as (s2 & Hs2 & Hpre2).
  destruct (stack_of_remove_piece_prefix _ _ _ q s2 H1 Hs2)
    as (s & Hs & Hpre).
  exists s. split; [done|]. by repeat (etrans; [eassumption|]).
Qed.

Lemma plays_layout (b c : Board) (ms : list Move) :
  plays b ms c → layout c = layout b.
Proof.
  induction 1 as [|b mps m b1 ms c _ _ Hdo _ IH]; [done|].
  apply do_move_frame in Hdo as [Hdo _]. congruence.
Qed.

Lemma prefix_same_length {A} (l1 l2 l : list A) :
  l1 `prefix_of` l → l2 `prefix_of` l → length l1 = length l2 → l1 = l2.
Proof.
  intros [k1 ->] [k2 Hk] Hlen. by apply app_inj_1 in Hk as [-> _].
Qed.

(** Two positions of one game with the same shape are the same board. *)
Lemma position_shape_inj (b0 c1 c2 : Board) :
  position b0 c1 → position b0 c2 → shape c1 = shape c2 → c1 = c2.
Proof.
  intros [ms1 H1] [ms2 H2] [= Hdepths Htop Hleft Hright].
  assert (∀ q s1 s2, stack_of c1 q = Some s1 → stack_of c2 q = Some s2 →
                     length s1 = length s2 → s1 = s2) as Hstack.
  { intros q s1 s2 Hs1 Hs2 Hlen.
    destruct (stack_of_plays_prefix _ _ _ q s1 H1 Hs1) as (s & Hs & Hp1).
    destruct (stack_of_plays_prefix _ _ _ q s2 H2 Hs2) as (s' & Hs' & Hp2).
    assert (s' = s) as -> by congruence. by eapply prefix_same_length. }
  apply Board_eq.
  - apply list_eq. intros r.
    assert (depths c1 !! r = depths c2 !! r) as Hr by by rewrite Hdepths.
    unfold depths in Hr. rewrite !list_lookup_fmap in Hr.
    destruct (rows c1 !! r) as [row1|] eqn:Hrow1,
             (rows c2 !! r) as [row2|] eqn:Hrow2; try done.
    simpl in Hr. injection Hr as Hr. f_equal. apply list_eq. intros c.
    assert ((length <$> row1) !! c = (length <$> row2) !! c) as Hc
      by by rewrite Hr.
    rewrite !list_lookup_fmap in Hc.
    destruct (row1 !! c) as [st1|] eqn:Hst1, (row2 !! c) as [st2|] eqn:Hst2;
      try done.
    simpl in Hc. injection Hc as Hc. f_equal.
    apply (Hstack (mkMovablePiece (Row r) (Some c) "" 0)); [..|done];
      unfold stack_of; simpl.
    + by rewrite Hrow1.
    + by rewrite Hrow2.
  - by apply (Hstack (mkMovablePiece TOP None "" 0)).
  - by apply (Hstack (mkMovablePiece LEFT None "" 0)).
  - by apply (Hstack (mkMovablePiece RIGHT None "" 0)).
Qed.

Lemma md5_collision_free_no_collision (b0 : Board) :
  md5_collision_free b0 → no_collision b0.
Proof.
  intros Hfree c1 c2 Hc1 Hc2 Hst.
  apply (position_shape_inj b0); [done..|].
  apply state_string_shape; [|by apply Hfree].
  destruct Hc1 as [ms1 H1], Hc2 as [ms2 H2].
  by rewrite (plays_layout _ _ _ H1), (plays_layout _ _ _ H2).
Qed.

(** X20. [backtracking_search] is complete up to MD5 collisions: when no
    two positions of the game on the given board collide under the digest
    of [get_state], a search that starts with a fresh searcher and returns
    has recorded a solution exactly when the board can be emptied by moves
    that [find_moves] offers. *)
Theorem backtracking_search_complete (fuel : nat) (b : Board)
    (s' : BoardSearcher) :
  md5_collision_free b →
  backtracking_search fuel (new_searcher b) = Returned s' →
  solutions s' ≠ [] ↔ solvable b.
Proof.
  intros Hfree%md5_collision_free_no_collision Hret. split.
  - intros Hne. destruct (solutions s') as [|sol sols] eqn:Hsols; [done|].
    destruct (backtracking_search_adds _ _ _ Hret) as (_ & _ & _ & Hnew & _).
    destruct (Hnew sol) as [Hin|(ms & b' & _ & Hplays & Hb')].
    + rewrite Hsols. left.
    + by apply elem_of_nil in Hin.
    + by exists ms, b'.
  - apply (backtracking_search_finished b fuel (new_searcher b) s');
      [done| |by intros c _ Hin%elem_of_empty|done].
    exists []. constructor.
Qed.

(** The game on [pair_board] has two positions, with different states. *)
Lemma pair_board_collision_free : md5_collision_free pair_board.
Proof.
  assert (∀ c, position pair_board c → c = pair_board ∨ c = new_board)
    as Hpos.
  { intros c [ms H].
    inversion H as [|? mps m b1 ms' ? Hmps Hm Hdo Hrest]; subst; [by left|].
    right. vm_compute in Hmps. injection Hmps as <-.
    vm_compute in Hm. apply list_elem_of_singleton in Hm as ->.
    vm_compute in Hdo. injection Hdo as <-.
    inversion Hrest as [|? mps2 m2 b2 ms2 ? Hmps2 Hm2 Hdo2 Hrest2]; subst;
      [done|].
    vm_compute in Hmps2. injection Hmps2 as <-.
    vm_compute in Hm2. by apply elem_of_nil in Hm2. }
  intros c1 c2 H1 H2 Hst.
  destruct (Hpos c1 H1) as [->| ->], (Hpos c2 H2) as [->| ->];
    [reflexivity| | |reflexivity]; vm_compute in Hst; discriminate Hst.
Qed.

(** On the eight-row board with one pair, which can be solved. *)
Lemma backtracking_search_complete_witness :
  ∃ s', backtracking_search 2 (new_searcher pair_board) = Returned s'
        ∧ (solutions s' ≠ [] ↔ solvable pair_board).
Proof.
  eexists. split; [vm_compute; reflexivity|].
  apply (backtracking_search_complete 2 pair_board).
  - apply pair_board_collision_free.
  - vm_compute. reflexivity.
Defined.


(** ** [row_to_str], [__str__] and the raising of [print_stats] *)

Lemma string_length_app (s t : string) :
  String.length (s +:+ t) = String.length s + String.length t.
Proof. induction s as [|a s IH]; [done|]. simpl. by rewrite IH. Qed.

Lemma repeat_string_length (s : string) (n : nat) :
  String.length (repeat_string s n) = n * String.length s.
Proof.
  induction n as [|n IH]; [done|]. simpl.
  by rewrite string_length_app, IH.
Qed.

Lemma cell_to_str_length (stack : list Piece) :
  four_wide stack → String.length (cell_to_str stack) = 4.
Proof.
  intros [Hlen Hp]. unfold cell_to_str.
  destruct (peek stack) as [p|] eqn:Hpeek; [|done].
  rewrite !string_length_app, !repeat_string_length, (Hp p) by done. simpl.
  apply peek_Some in Hpeek as [st ->]. rewrite length_app in *. simpl in *.
  lia.
Qed.

(** X21. [row_to_str] keeps the columns aligned: when every stack of the
    row holds at most four pieces and shows a symbol of one character, each
    cell takes four characters and the string of a row of [n] cells is
    [5 * n - 1] characters long. *)
Theorem row_to_str_width (row : list (list Piece)) :
  Forall four_wide row →
  String.length (row_to_str row) = 5 * length row - 1.
Proof.
  unfold row_to_str. induction 1 as [|stack row Hstack Hrow IH]; [done|].
  rewrite fmap_cons. destruct row as [|stack' row].
  - simpl. rewrite cell_to_str_length by done. lia.
  - rewrite fmap_cons in *. cbn [join].
    rewrite !string_length_app, cell_to_str_length by done.
    cbn [join] in IH. rewrite IH. simpl. lia.
Qed.

Lemma row_to_str_width_witness :
  String.length (row_to_str [["A"]; []; ["B"; "C"; "D"; "E"]]) = 5 * 3 - 1.
Proof.
  apply (row_to_str_width [["A"]; []; ["B"; "C"; "D"; "E"]]).
  repeat constructor; simpl; try lia; by intros p [= <-].
Defined.

Lemma reachable_layout (b : Board) : reachable b → layout b = layout new_board.
Proof.
  induction 1 as [rand b Hfill|b mps m b' Hb IH Hmps Hm Hdo].
  - destruct (fill_new_board_spec _ _ Hfill) as (Hrows & _).
    rewrite <-depths_layout. unfold depths. by rewrite Hrows.
  - apply do_move_frame in Hdo as [Hdo _]. congruence.
Qed.

Lemma Board_str_None_inv (b : Board) :
  Board_str b = None → length (rows b) < 8.
Proof.
  intros Hnone. destruct (decide (length (rows b) < 8)) as [|Hge]; [done|].
  destruct (Board_str_is_Some b) as [str Hstr]; [lia|congruence].
Qed.

(** X22. [__str__] raises exactly on a board of fewer than eight rows, so
    never on a board in play. *)
Theorem Board_str_rows (b : Board) :
  (Board_str b = None ↔ length (rows b) < 8)
  ∧ (reachable b → is_Some (Board_str b)).
Proof.
  split.
  - split; [apply Board_str_None_inv|apply Board_str_None].
  - intros Hb%reachable_layout. apply Board_str_is_Some.
    assert (length (layout b) = 8) as Hlen by (by rewrite Hb).
    unfold layout in Hlen. rewrite length_fmap in Hlen. lia.
Qed.


Lemma print_stats_Raised (s : BoardSearcher) :
  length (rows (board s)) < 8 → (stats_calls s + 1) mod 100 ≠ 0 →
  print_stats s = Raised.
Proof.
  intros Hrows Hmod. unfold print_stats.
  rewrite decide_True by done. by rewrite (Board_str_None _ Hrows).
Qed.

(** X24. On a board of fewer than eight rows [backtracking_search] raises
    at a solved board and at a dead end, where it calls [print_stats],
    unless the call is the hundredth. *)
Theorem backtracking_search_raises (fuel : nat) (s : BoardSearcher) :
  length (rows (board s)) < 8 → (stats_calls s + 1) mod 100 ≠ 0 →
  (is_empty (board s) = true → backtracking_search (S fuel) s = Raised)
  ∧ (is_empty (board s) = false → get_state (board s) ∉ seen_states s →
     (∃ mps, find_movable_pieces (board s) = Some mps ∧ find_moves mps = []) →
     backtracking_search (S fuel) s = Raised).
Proof.
  intros Hrows Hmod. cbn [backtracking_search]. split.
  - intros ->. by apply print_stats_Raised.
  - intros -> Hseen (mps & Hmps & Hnil).
    rewrite decide_False by done. cbn [board]. rewrite Hmps.
    cbn [lift mbind outcome_bind]. rewrite decide_True by done.
    by apply print_stats_Raised.
Qed.

(** On the one-row board without pieces and on a one-row board without
    moves. *)
Lemma backtracking_search_raises_witness :
  backtracking_search 1 (new_searcher empty_row_board) = Raised
  ∧ backtracking_search 1 (new_searcher stuck_row_board) = Raised.
Proof.
  split.
  - destruct (backtracking_search_raises 0 (new_searcher empty_row_board))
      as [Hsolved _]; [simpl; lia|done|].
    by apply Hsolved.
  - destruct (backtracking_search_raises 0 (new_searcher stuck_row_board))
      as [_ Hstuck]; [simpl; lia|done|].
    apply Hstuck; [done|apply not_elem_of_empty|].
    eexists. split; [vm_compute; reflexivity|reflexivity].
Defined.
